(** * Forecast aggregation pipeline: carry-forward engine, ordered Brier
      score, central-tendency estimators, renormalising aggregator and the
      freeze / rank / trim controller.

    The development embeds the Python sources function by function.

    Numbers.  pandas / numpy columns of dtype float are idealised as exact
    numbers: rationals ([Q]) where the code only adds, multiplies, divides
    and compares, reals ([R]) where it takes [exp] and [log].  Rounding is
    not modelled, so a storage cast such as [astype("float32")] is the
    identity on the idealised value.  The exception is the product under
    [math.ceil] on line 152 of pipeline.py, whose ceiling is the index of
    the freeze day: it is computed in binary64 ([Float64]).  NaN is
    modelled where the code produces or tests it.  Integer columns are
    integers ([Z]); the cast of the bucket ordinal to 16 bits is written
    out with its wrap-around.  Calendar days (timestamps floored to the
    day) are integer day numbers, so a [Timedelta] comparison in days is a
    comparison of integers. *)

From Stdlib Require Import List ZArith Bool String Lia Permutation Sorted.
From Stdlib Require Import QArith Qround Qabs Qpower Reals Psatz.
From Stdlib Require SpecFloat.
Import ListNotations.

Set Implicit Arguments.

(** ** Python-level plumbing shared by the modules *)

Inductive exception : Type :=
| ValueError (msg : string)
| IndexError.

Inductive result (A : Type) : Type :=
| Ok (a : A)
| Raise (e : exception).
Arguments Ok {A} a.
Arguments Raise {A} e.

(** Insertion-ordered dictionaries (the semantics of a Python [dict]):
    assigning to a present key keeps its position, assigning to a new key
    appends, [pop] removes. *)
Section Dict.
Variables (K V : Type) (eqb : K -> K -> bool).

Fixpoint dict_get (k : K) (d : list (K * V)) : option V :=
  match d with
  | [] => None
  | (k', v) :: d' => if eqb k' k then Some v else dict_get k d'
  end.

Fixpoint dict_set (k : K) (v : V) (d : list (K * V)) : list (K * V) :=
  match d with
  | [] => [(k, v)]
  | (k', v') :: d' =>
      if eqb k' k then (k', v) :: d' else (k', v') :: dict_set k v d'
  end.

Definition dict_pop (k : K) (d : list (K * V)) : list (K * V) :=
  filter (fun e => negb (eqb (fst e) k)) d.
End Dict.

(** [pd.unique] / [drop_duplicates] / the group order of
    [groupby(sort=False)]: first occurrences, in order of appearance. *)
Fixpoint unique (A : Type) (eqb : A -> A -> bool) (l : list A) : list A :=
  match l with
  | [] => []
  | x :: t => x :: filter (fun y => negb (eqb x y)) (unique eqb t)
  end.

(** [sorted] on day numbers. *)
Fixpoint insert_sorted (x : Z) (l : list Z) : list Z :=
  match l with
  | [] => [x]
  | y :: t => if (x <=? y)%Z then x :: y :: t else y :: insert_sorted x t
  end.

Definition sorted (l : list Z) : list Z := fold_right insert_sorted [] l.

(** [astype("float32")]: a change of storage width (see the header). *)
Definition astype_float32 (x : Q) : Q := x.

(** [astype("int16")] on an integer column: the value wrapped into 16 bits,
    two's complement. *)
Definition astype_int16 (z : Z) : Z := ((z + 32768) mod 65536 - 32768)%Z.

(** ** carry_forward.py *)
Module CarryForward.

(** One row of the [forecaster_day] table. *)
Record fd_row : Type := {
  qid : Z;                              (* "discover question id" *)
  guid : string;                        (* "membership guid" *)
  day : Z;                              (* "day" *)
  aso : Z;                              (* "answer sort order" *)
  prob : Q;                             (* "prob" *)
  resolved_probability : Q;
  correctness_known_day : option Z      (* None: NaT *)
}.

(** One emitted snapshot record.  The two metadata fields are [None] when
    the column was not requested or the lookup has no entry. *)
Record snapshot : Type := {
  s_qid : Z;
  s_guid : string;
  s_day : Z;
  s_aso : Z;
  s_prob : Q;
  s_resolved_probability : option Q;
  s_correctness_known_day : option Z
}.

Definition key : Type := (string * Z)%type.

Definition key_eqb (a b : key) : bool :=
  String.eqb (fst a) (fst b) && Z.eqb (snd a) (snd b).

Definition row_key (r : fd_row) : key := (guid r, aso r).

Definition qa_eqb (a b : Z * Z) : bool :=
  Z.eqb (fst a) (fst b) && Z.eqb (snd a) (snd b).

(** The two state maps of one question. *)
Record state : Type := {
  latest_probs : list (key * Q);
  latest_day : list (key * Z)
}.

Definition empty_state : state := {| latest_probs := []; latest_day := [] |}.

(** Lines 30-37: the per-(question, answer) lookup.  Rows are deduplicated
    on (question, answer, value) and then written in order, so a later
    distinct value overwrites an earlier one. *)
Definition build_per_answer_lookup (fd : list fd_row) : list ((Z * Z) * Q) :=
  let uniq_pa :=
    unique (fun a b => qa_eqb (fst a) (fst b) && Qeq_bool (snd a) (snd b))
           (map (fun r => ((qid r, aso r), resolved_probability r)) fd) in
  fold_left (fun d e => dict_set qa_eqb (fst e) (snd e) d) uniq_pa [].

Definition option_Z_eqb (a b : option Z) : bool :=
  match a, b with
  | Some x, Some y => Z.eqb x y
  | None, None => true
  | _, _ => false
  end.

(** Lines 40-44: the per-question lookup. *)
Definition build_per_question_lookup (fd : list fd_row)
  : list (Z * option Z) :=
  let uniq_pq :=
    unique (fun a b => Z.eqb (fst a) (fst b) && option_Z_eqb (snd a) (snd b))
           (map (fun r => (qid r, correctness_known_day r)) fd) in
  fold_left (fun d e => dict_set Z.eqb (fst e) (snd e) d) uniq_pq [].

(** Lines 62-66: today's submissions, grouped by (forecaster, bucket) in
    order of first appearance; the last row of each block is written. *)
Definition apply_updates (d : Z) (today_rows : list fd_row) (st : state)
  : state :=
  fold_left
    (fun st k =>
       let block := filter (fun r => key_eqb (row_key r) k) today_rows in
       {| latest_probs :=
            dict_set key_eqb k (last (map prob block) 0) (latest_probs st);
          latest_day := dict_set key_eqb k d (latest_day st) |})
    (unique key_eqb (map row_key today_rows)) st.

(** Lines 69-77: eviction of the entries older than the cutoff. *)
Definition drop_stale (max_staleness_days : option Z) (d : Z) (st : state)
  : state :=
  match max_staleness_days with
  | None => st
  | Some cutoff =>
      let to_drop :=
        map fst (filter (fun e => (d - snd e >? cutoff)%Z) (latest_day st)) in
      fold_left
        (fun st k =>
           {| latest_probs := dict_pop key_eqb k (latest_probs st);
              latest_day := dict_pop key_eqb k (latest_day st) |})
        to_drop st
  end.

Section Engine.
Variables (max_staleness_days : option Z)
          (pa_cols pq_cols : bool)
          (per_answer_lookup : list ((Z * Z) * Q))
          (per_question_lookup : list (Z * option Z)).

(** Lines 80-92: one record per live entry, in dictionary order. *)
Definition emit (q : Z) (d : Z) (st : state) : list snapshot :=
  map (fun e =>
         {| s_qid := q;
            s_guid := fst (fst e);
            s_day := d;
            s_aso := snd (fst e);
            s_prob := snd e;
            s_resolved_probability :=
              if pa_cols
              then dict_get qa_eqb (q, snd (fst e)) per_answer_lookup
              else None;
            s_correctness_known_day :=
              if pq_cols
              then match dict_get Z.eqb q per_question_lookup with
                   | Some v => v
                   | None => None
                   end
              else None |})
      (latest_probs st).

(** Lines 57-92: the loop over the sorted days of one question. *)
Fixpoint day_loop (q : Z) (sub_q : list fd_row) (days : list Z)
         (st : state) : list snapshot :=
  match days with
  | [] => []
  | d :: days' =>
      let today_rows := filter (fun r => (day r =? d)%Z) sub_q in
      let st1 := apply_updates d today_rows st in
      let st2 := drop_stale max_staleness_days d st1 in
      emit q d st2 ++ day_loop q sub_q days' st2
  end.

(** Lines 94-108: the downcast of a chunk: floats to float32, the bucket
    ordinal (an integer column) to int16; the identifiers become
    categoricals, which keeps their values. *)
Definition downcast_chunk (downcast : bool) (chunk : list snapshot)
  : list snapshot :=
  if downcast then
    map (fun s =>
           {| s_qid := s_qid s;
              s_guid := s_guid s;
              s_day := s_day s;
              s_aso := astype_int16 (s_aso s);
              s_prob := astype_float32 (s_prob s);
              s_resolved_probability :=
                option_map astype_float32 (s_resolved_probability s);
              s_correctness_known_day := s_correctness_known_day s |})
        chunk
  else chunk.

(** Lines 49-110: one chunk per question. *)
Definition question_chunk (downcast : bool) (fd : list fd_row) (q : Z)
  : list snapshot :=
  let sub_q := filter (fun r => (qid r =? q)%Z) fd in
  let days_sorted := sorted (unique Z.eqb (map day sub_q)) in
  downcast_chunk downcast (day_loop q sub_q days_sorted empty_state).
End Engine.

(** [carry_forward_snapshots]: questions in order of first appearance,
    chunks concatenated; no chunk at all gives the empty table. *)
Definition carry_forward_snapshots (forecaster_day : list fd_row)
           (max_staleness_days : option Z)
           (per_answer_cols per_question_cols : bool) (downcast : bool)
  : list snapshot :=
  let per_answer_lookup :=
    if per_answer_cols then build_per_answer_lookup forecaster_day else [] in
  let per_question_lookup :=
    if per_question_cols then build_per_question_lookup forecaster_day
    else [] in
  flat_map
    (question_chunk max_staleness_days per_answer_cols per_question_cols
                    per_answer_lookup per_question_lookup downcast
                    forecaster_day)
    (unique Z.eqb (map qid forecaster_day)).

(** *** The engine's contract, in the words of the specification *)

(** The genuine submissions of [k] dated on or before [D]. *)
Definition submissions_upto (fd : list fd_row) (k : key) (D : Z)
  : list fd_row :=
  filter (fun r => key_eqb (row_key r) k && (day r <=? D)%Z) fd.

Definition list_max (l : list Z) : option Z :=
  match l with
  | [] => None
  | x :: t => Some (fold_right Z.max x t)
  end.

(** The day of the most recent submission of [k] on or before [D]. *)
Definition last_update_day (fd : list fd_row) (k : key) (D : Z) : option Z :=
  list_max (map day (submissions_upto fd k D)).

(** The value submitted by [k] on day [U]: the last one in row order. *)
Definition last_prob_on (fd : list fd_row) (k : key) (U : Z) : Q :=
  last (map prob
            (filter (fun r => key_eqb (row_key r) k && (day r =? U)%Z) fd))
       0.

(** The most recent submission of [k] on or before [D]. *)
Definition latest_submission (fd : list fd_row) (k : key) (D : Z)
  : option Q :=
  option_map (last_prob_on fd k) (last_update_day fd k D).

(** [D - U > S], when a limit [S] is configured. *)
Definition stale (max_staleness_days : option Z) (D U : Z) : bool :=
  match max_staleness_days with
  | None => false
  | Some cutoff => (D - U >? cutoff)%Z
  end.

(** The last update day of [k] as of [D], unless it is stale on [D]. *)
Definition live_day (max_staleness_days : option Z) (fd : list fd_row)
           (k : key) (D : Z) : option Z :=
  match last_update_day fd k D with
  | Some U => if stale max_staleness_days D U then None else Some U
  | None => None
  end.

(** The snapshot rows of forecaster [X], bucket [B], day [D]. *)
Definition rows_for (X : string) (B D : Z) (out : list snapshot)
  : list snapshot :=
  filter (fun s => key_eqb (s_guid s, s_aso s) (X, B) && (s_day s =? D)%Z)
         out.

(** The rows of question [q], and its snapshot rows for ([X], [B], [D]). *)
Definition question_rows (fd : list fd_row) (q : Z) : list fd_row :=
  filter (fun r => (qid r =? q)%Z) fd.

Definition rows_for_question (q : Z) (X : string) (B D : Z)
           (out : list snapshot) : list snapshot :=
  filter (fun s => (s_qid s =? q)%Z
                   && (key_eqb (s_guid s, s_aso s) (X, B) && (s_day s =? D)%Z))
         out.

(** The records appended to [rows_q] by the day loops, question after
    question: the returned table when the downcast is off. *)
Definition emitted_records (fd : list fd_row) (max_staleness_days : option Z)
           (per_answer_cols per_question_cols : bool) : list snapshot :=
  carry_forward_snapshots fd max_staleness_days
                          per_answer_cols per_question_cols false.

(** The bucket ordinals survive the int16 storage of the downcast table. *)
Definition fits_int16 (z : Z) : Prop := (-32768 <= z <= 32767)%Z.

Definition buckets_fit (downcast : bool) (fd : list fd_row) : Prop :=
  downcast = true -> Forall (fun r => fits_int16 (aso r)) fd.

Definition observed_day (fd : list fd_row) (D : Z) : Prop :=
  In D (map day fd).

(** Exactly one row for ([X], [B], [D]), carrying the most recent
    submission of [X] for [B] on or before [D]. *)
Definition latest_row (fd : list fd_row) (X : string) (B D : Z)
           (out : list snapshot) : Prop :=
  exists s p,
    rows_for X B D out = [s]
    /\ latest_submission fd (X, B) D = Some p
    /\ s_prob s = p.

(** The staleness rule for the entry ([X], [B]) of question [q] on its
    observed day [D], with limit [S], read on the table [out]:
    a row exists iff the entry has a last update [U] with [D - U <= S];
    then there is exactly one row, with the value submitted on [U];
    an entry with [D - U > S] has no row on [D], nor on a later observed
    day as long as [U] stays its last update;
    with [S = 7], a row on day [U + 7] and none from [U + 8] on. *)
Definition staleness_rule (S : Z) (rows : list fd_row) (q : Z) (X : string)
           (B D : Z) (out : list snapshot) : Prop :=
  ((exists s, In s (rows_for_question q X B D out))
   <-> (exists U, last_update_day rows (X, B) D = Some U /\ (D - U <= S)%Z))
  /\ (forall U, last_update_day rows (X, B) D = Some U -> (D - U <= S)%Z ->
                exists s, rows_for_question q X B D out = [s]
                          /\ s_prob s = last_prob_on rows (X, B) U)
  /\ (forall U, last_update_day rows (X, B) D = Some U -> (D - U > S)%Z ->
                rows_for_question q X B D out = []
                /\ forall D', In D' (map day rows) -> (D <= D')%Z ->
                              last_update_day rows (X, B) D' = Some U ->
                              rows_for_question q X B D' out = [])
  /\ (S = 7%Z ->
      forall U, last_update_day rows (X, B) D = Some U ->
                (D = U + 7 -> exists s, rows_for_question q X B D out = [s])%Z
                /\ (U + 8 <= D -> rows_for_question q X B D out = [])%Z).

Definition has_submission (fd : list fd_row) (X : string) (B d : Z) : Prop :=
  exists r, In r fd /\ guid r = X /\ aso r = B /\ day r = d.

(** A worked table: one question, forecaster X submits on day 0 only,
    forecaster Y on days 7 and 8. *)
Definition example_table : list fd_row :=
  [ {| qid := 1; guid := "X"; day := 0; aso := 0; prob := 1 # 2;
       resolved_probability := 1; correctness_known_day := Some 9%Z |};
    {| qid := 1; guid := "Y"; day := 7; aso := 0; prob := 1 # 4;
       resolved_probability := 1; correctness_known_day := Some 9%Z |};
    {| qid := 1; guid := "Y"; day := 8; aso := 0; prob := 3 # 10;
       resolved_probability := 1; correctness_known_day := Some 9%Z |} ].

(** The state between two days: the day map holds, for every key, its
    last update day unless stale on the day just processed, and the
    probability map holds the value submitted on that day. *)
Definition engine_inv (S : option Z) (sub_q : list fd_row)
           (prev : option Z) (st : state) : Prop :=
  NoDup (map fst (latest_probs st))
  /\ NoDup (map fst (latest_day st))
  /\ (forall k, dict_get key_eqb k (latest_day st)
                = match prev with
                  | None => None
                  | Some dp => live_day S sub_q k dp
                  end)
  /\ (forall k, dict_get key_eqb k (latest_probs st)
                = option_map (last_prob_on sub_q k)
                             (dict_get key_eqb k (latest_day st))).

End CarryForward.

(** ** ordered_brier_eval.py *)
Module OrderedBrier.

(** A numpy array of floats, by number of dimensions. *)
Inductive ndarray : Type :=
| Array0 (x : Q)                         (* 0-d: a scalar *)
| Array1 (v : list Q)                    (* 1-d *)
| ArrayN (extra : nat) (flat : list Q).  (* 2 + extra dimensions *)

Definition ndim (a : ndarray) : nat :=
  match a with
  | Array0 _ => 0
  | Array1 _ => 1
  | ArrayN extra _ => 2 + extra
  end.

(** The entries of a 1-d array. *)
Definition entries (a : ndarray) : list Q :=
  match a with
  | Array1 v => v
  | _ => []
  end.

Definition np_sum (l : list Q) : Q := fold_right Qplus 0 l.

Definition np_mean (l : list Q) : Q :=
  np_sum l / inject_Z (Z.of_nat (List.length l)).

Fixpoint cumsum_from (acc : Q) (l : list Q) : list Q :=
  match l with
  | [] => []
  | x :: t => (acc + x) :: cumsum_from (acc + x) t
  end.

Definition np_cumsum (l : list Q) : list Q :=
  match l with
  | [] => []
  | x :: t => x :: cumsum_from x t
  end.

(** [np.unique]: the sorted distinct values. *)
Fixpoint insert_unique (x : Q) (l : list Q) : list Q :=
  match l with
  | [] => [x]
  | y :: t =>
      match x ?= y with
      | Lt => x :: y :: t
      | Eq => y :: t
      | Gt => y :: insert_unique x t
      end
  end.

Definition np_unique (l : list Q) : list Q := fold_right insert_unique [] l.

Definition np_isin (v : Q) (values : list Q) : bool :=
  existsb (Qeq_bool v) values.

(** Elementwise operation on two arrays of one length. *)
Fixpoint zip_with (f : Q -> Q -> Q) (a b : list Q) : list Q :=
  match a, b with
  | x :: a', y :: b' => f x y :: zip_with f a' b'
  | _, _ => []
  end.

(** [np.sum(outcome == 1.0)]. *)
Definition count_ones (outcome : list Q) : nat :=
  List.length (filter (fun y => Qeq_bool y 1) outcome).

(** Lines 34-39: a single bucket is completed by its implicit complement. *)
Definition expand_single_bucket (probs outcome : list Q)
  : list Q * list Q :=
  let K := List.length probs in
  if (K =? 1)%nat then
    let p := hd 0 probs in
    let y := hd 0 outcome in
    ([p; 1 - p], [y; 1 - y])
  else (probs, outcome).

(** Lines 41-58: the strict one-hot check; [Some e] is the exception
    raised. *)
Definition check_one_hot (outcome : list Q) : option exception :=
  let unique_vals := np_unique outcome in
  if negb (forallb (fun v => np_isin v [0; 1]) unique_vals) then
    Some (ValueError "Outcome must be one-hot: entries must be 0 or 1 only.")
  else if negb (count_ones outcome =? 1)%nat then
    Some (ValueError
            "Outcome must be one-hot: exactly one category must be 1.")
  else None.

(** Lines 60-86: renormalised forecast, cumulative vectors, mean of the
    binary Brier scores of the splits. *)
Definition score_splits (probs outcome : list Q) : Q :=
  let psum := np_sum probs in
  let probs :=
    if negb (Qle_bool psum 0) then map (fun x => x / psum) probs
    else probs in
  let cum_forecast := np_cumsum probs in
  let cum_truth := np_cumsum outcome in
  let diffsq :=
    zip_with (fun a b => (a - b) ^ 2)
             (removelast cum_forecast) (removelast cum_truth) in
  let brier_per_split := map (Qmult 2) diffsq in
  np_mean brier_per_split.

Definition ordered_brier_from_distribution (probs outcome : ndarray)
  : result Q :=
  if negb (ndim probs =? 1)%nat || negb (ndim outcome =? 1)%nat then
    Raise (ValueError "probs and outcome must be 1-D arrays.")
  else
    let probs := entries probs in
    let outcome := entries outcome in
    if negb (List.length probs =? List.length outcome)%nat then
      Raise (ValueError "probs and outcome must have same length.")
    else
      let '(probs, outcome) := expand_single_bucket probs outcome in
      match check_one_hot outcome with
      | Some e => Raise e
      | None => Ok (score_splits probs outcome)
      end.

(** *** The score in the words of the specification *)

(** The cumulative sum up to (and including) position [j]. *)
Definition spec_cumulative (l : list Q) (j : nat) : Q :=
  np_sum (firstn (S j) l).

(** [probs] rescaled to sum to 1 when the raw sum is positive. *)
Definition spec_rescaled (probs : list Q) : list Q :=
  if Qlt_le_dec 0 (np_sum probs)
  then map (fun x => x / np_sum probs) probs
  else probs.

(** The mean over the split points [j = 0 .. K-2] of [2 (P_j - Y_j)^2]. *)
Definition spec_ordered_brier (probs outcome : list Q) : Q :=
  let K := List.length probs in
  let P := spec_cumulative (spec_rescaled probs) in
  let Y := spec_cumulative outcome in
  np_sum (map (fun j => 2 * (P j - Y j) ^ 2) (seq 0 (K - 1)))
  / inject_Z (Z.of_nat (K - 1)).

(** Exactly one entry is 1 and the others are 0. *)
Definition one_hot (outcome : list Q) : Prop :=
  exists a y b,
    outcome = a ++ y :: b
    /\ y == 1
    /\ Forall (fun x => x == 0) a
    /\ Forall (fun x => x == 0) b.

(** The outcome that is validated: the [K = 1] input is first expanded to
    its binary complement. *)
Definition expanded_outcome (outcome : list Q) : list Q :=
  match outcome with
  | [y] => [y; 1 - y]
  | _ => outcome
  end.

(** The inputs the function rejects. *)
Definition rejected (probs outcome : ndarray) : Prop :=
  ndim probs <> 1%nat
  \/ ndim outcome <> 1%nat
  \/ List.length (entries probs) <> List.length (entries outcome)
  \/ (exists v, In v (expanded_outcome (entries outcome))
                /\ ~ v == 0 /\ ~ v == 1)
  \/ count_ones (expanded_outcome (entries outcome)) <> 1%nat.

End OrderedBrier.

(** ** means.py *)
Module Means.
Local Open Scope R_scope.

(** The float returned by an estimator: NaN or a number. *)
Inductive npfloat : Type :=
| NaN
| Finite (x : R).

Definition EPS : R := 1 / 100000.

(** [np.clip(a, lo, hi)]: [minimum(maximum(a, lo), hi)]. *)
Definition np_clip (lo hi x : R) : R := Rmin (Rmax x lo) hi.

Definition arr_sum (l : list R) : R := fold_right Rplus 0 l.

Definition arr_mean (l : list R) : R := arr_sum l / INR (List.length l).

(** [np.any(arr < c)] and [np.any(arr > c)]. *)
Definition any_below (c : R) (arr : list R) : bool :=
  existsb (fun x => if Rlt_dec x c then true else false) arr.

Definition any_above (c : R) (arr : list R) : bool :=
  existsb (fun x => if Rlt_dec c x then true else false) arr.

Definition geometric_mean_prob (probs : list R) : npfloat :=
  let arr := probs in
  if (List.length arr =? 0)%nat then NaN
  else if any_below 0 arr then NaN
  else
    let arr := map (np_clip EPS (1 - EPS)) arr in
    Finite (exp (arr_mean (map ln arr))).

Definition geometric_mean_odds (probs : list R) : npfloat :=
  let arr := probs in
  if (List.length arr =? 0)%nat then NaN
  else if any_below 0 arr || any_above 1 arr then NaN
  else
    let arr := map (np_clip EPS (1 - EPS)) arr in
    let odds := map (fun a => a / (1 - a)) arr in
    let o_geo := exp (arr_mean (map ln odds)) in
    let p_geo := o_geo / (1 + o_geo) in
    Finite p_geo.

(** A value that is a number within [lo, hi]. *)
Definition finite_within (lo hi : R) (v : npfloat) : Prop :=
  exists x, v = Finite x /\ lo <= x <= hi.

End Means.

(** ** aggregation.py *)
Module Aggregation.
Import CarryForward.

(** A float cell of the aggregate table; [None] is NaN. *)
Definition cell : Type := option Q.

Record agg_row : Type := {
  a_qid : Z;                            (* "discover question id" *)
  a_day : Z;                            (* "day" *)
  answer_sort_order : Z;
  mean_probability : cell;
  median_probability : cell;
  trimmed_mean_probability : cell;
  geometric_mean_probability : cell;
  geometric_mean_odds : cell;
  n_forecasters : nat;
  a_resolved_probability : cell
}.

(** The columns renormalised per (question, day). *)
Inductive prob_col : Type :=
| mean_col
| median_col
| trimmed_col
| geom_prob_col
| geom_odds_col.

Definition PROB_COLS : list prob_col :=
  [mean_col; median_col; trimmed_col; geom_prob_col; geom_odds_col].

Definition get_col (c : prob_col) (r : agg_row) : cell :=
  match c with
  | mean_col => mean_probability r
  | median_col => median_probability r
  | trimmed_col => trimmed_mean_probability r
  | geom_prob_col => geometric_mean_probability r
  | geom_odds_col => geometric_mean_odds r
  end.

Definition with_cols (r : agg_row) (m md t gp go : cell) : agg_row :=
  {| a_qid := a_qid r;
     a_day := a_day r;
     answer_sort_order := answer_sort_order r;
     mean_probability := m;
     median_probability := md;
     trimmed_mean_probability := t;
     geometric_mean_probability := gp;
     geometric_mean_odds := go;
     n_forecasters := n_forecasters r;
     a_resolved_probability := a_resolved_probability r |}.

Definition set_col (c : prob_col) (v : cell) (r : agg_row) : agg_row :=
  match c with
  | mean_col =>
      with_cols r v (median_probability r) (trimmed_mean_probability r)
                (geometric_mean_probability r) (geometric_mean_odds r)
  | median_col =>
      with_cols r (mean_probability r) v (trimmed_mean_probability r)
                (geometric_mean_probability r) (geometric_mean_odds r)
  | trimmed_col =>
      with_cols r (mean_probability r) (median_probability r) v
                (geometric_mean_probability r) (geometric_mean_odds r)
  | geom_prob_col =>
      with_cols r (mean_probability r) (median_probability r)
                (trimmed_mean_probability r) v (geometric_mean_odds r)
  | geom_odds_col =>
      with_cols r (mean_probability r) (median_probability r)
                (trimmed_mean_probability r) (geometric_mean_probability r) v
  end.

(** The group key (question, day, answer) and its lexicographic order. *)
Definition key3 : Type := (Z * Z * Z)%type.

Definition key3_eqb (a b : key3) : bool :=
  (fst (fst a) =? fst (fst b))%Z && (snd (fst a) =? snd (fst b))%Z
  && (snd a =? snd b)%Z.

Definition key3_leb (a b : key3) : bool :=
  if (fst (fst a) =? fst (fst b))%Z then
    if (snd (fst a) =? snd (fst b))%Z then (snd a <=? snd b)%Z
    else (snd (fst a) <? snd (fst b))%Z
  else (fst (fst a) <? fst (fst b))%Z.

Fixpoint insert_key3 (k : key3) (l : list key3) : list key3 :=
  match l with
  | [] => [k]
  | y :: t => if key3_leb k y then k :: y :: t else y :: insert_key3 k t
  end.

Definition row_key3 (r : agg_row) : key3 :=
  (a_qid r, a_day r, answer_sort_order r).

Fixpoint insert_row (r : agg_row) (l : list agg_row) : list agg_row :=
  match l with
  | [] => [r]
  | y :: t =>
      if key3_leb (row_key3 r) (row_key3 y) then r :: y :: t
      else y :: insert_row r t
  end.

(** The first non-null value of a group (pandas ["first"]). *)
Fixpoint first_valid (l : list cell) : cell :=
  match l with
  | [] => None
  | Some x :: _ => Some x
  | None :: t => first_valid t
  end.

(** Sum of a float column, NaN skipped (pandas [sum]). *)
Definition nansum (l : list cell) : Q :=
  fold_right (fun c acc => match c with Some x => x + acc | None => acc end)
             0 l.

(** Division of a cell by a number; NaN stays NaN. *)
Definition cell_div (c : cell) (t : Q) : cell :=
  option_map (fun x => x / t) c.

(** The rows of one (question, day). *)
Definition group_of (agg : list agg_row) (q d : Z) : list agg_row :=
  filter (fun r => (a_qid r =? q)%Z && (a_day r =? d)%Z) agg.

(** [groupby([qid, day])[col].transform("size")] and [.transform("sum")]:
    for each row, the value of its group. *)
Definition transform_size (agg : list agg_row) : list nat :=
  map (fun r => List.length (group_of agg (a_qid r) (a_day r))) agg.

Definition group_total (col : prob_col) (agg : list agg_row) (r : agg_row)
  : Q :=
  nansum (map (get_col col) (group_of agg (a_qid r) (a_day r))).

Definition transform_sum (col : prob_col) (agg : list agg_row) : list Q :=
  map (group_total col agg) agg.

Fixpoint and_masks (a b : list bool) : list bool :=
  match a, b with
  | x :: a', y :: b' => (x && y) :: and_masks a' b'
  | _, _ => []
  end.

(** [agg.loc[mask, col] = agg.loc[mask, col] / totals[mask]]. *)
Fixpoint divide_where (col : prob_col) (agg : list agg_row)
         (mask : list bool) (totals : list Q) : list agg_row :=
  match agg, mask, totals with
  | r :: agg', m :: mask', t :: totals' =>
      (if m then set_col col (cell_div (get_col col r) t) r else r)
        :: divide_where col agg' mask' totals'
  | _, _, _ => agg
  end.

(** Lines 58-62, one column. *)
Definition renormalize_col (multi_bucket : list bool) (agg : list agg_row)
           (col : prob_col) : list agg_row :=
  let totals := transform_sum col agg in
  let mask :=
    and_masks multi_bucket (map (fun t => negb (Qle_bool t 0)) totals) in
  divide_where col agg mask totals.

(** Lines 55-62. *)
Definition renormalize (agg : list agg_row) : list agg_row :=
  let sizes := transform_size agg in
  let multi_bucket := map (fun n => (1 <? n)%nat) sizes in
  fold_left (renormalize_col multi_bucket) PROB_COLS agg.

(** Lines 64-68: the downcast of the numeric columns. *)
Definition downcast_row (r : agg_row) : agg_row :=
  {| a_qid := a_qid r;
     a_day := a_day r;
     answer_sort_order := answer_sort_order r;
     mean_probability := option_map astype_float32 (mean_probability r);
     median_probability := option_map astype_float32 (median_probability r);
     trimmed_mean_probability :=
       option_map astype_float32 (trimmed_mean_probability r);
     geometric_mean_probability :=
       option_map astype_float32 (geometric_mean_probability r);
     geometric_mean_odds := option_map astype_float32 (geometric_mean_odds r);
     n_forecasters := n_forecasters r;
     a_resolved_probability :=
       option_map astype_float32 (a_resolved_probability r) |}.

Section Estimators.
(** The five reducers applied to the probabilities of one group: pandas'
    ["mean"] and ["median"] and the three functions of means.py.  Each
    returns a float, possibly NaN. *)
Variables (pd_mean pd_median trimmed_mean_prob geometric_mean_prob
           geometric_mean_odds_of : list Q -> cell).

(** Lines 38-53: the pooled table before renormalisation, one row per
    (question, day, answer), sorted by key. *)
Definition pooled_aggregates (snapshots : list snapshot) : list agg_row :=
  let keys :=
    fold_right insert_key3 []
      (unique key3_eqb (map (fun s => (s_qid s, s_day s, s_aso s)) snapshots))
  in
  let grouped :=
    map (fun k =>
           let block :=
             filter (fun s => key3_eqb (s_qid s, s_day s, s_aso s) k)
                    snapshots in
           let probs := map s_prob block in
           {| a_qid := fst (fst k);
              a_day := snd (fst k);
              answer_sort_order := snd k;
              mean_probability := pd_mean probs;
              median_probability := pd_median probs;
              trimmed_mean_probability := trimmed_mean_prob probs;
              geometric_mean_probability := geometric_mean_prob probs;
              geometric_mean_odds := geometric_mean_odds_of probs;
              n_forecasters :=
                List.length (unique String.eqb (map s_guid block));
              a_resolved_probability :=
                first_valid (map s_resolved_probability block) |})
        keys in
  fold_right insert_row [] grouped.

Definition aggregate_across_forecasters (snapshots : list snapshot)
  : list agg_row :=
  match snapshots with
  | [] => []
  | _ => map downcast_row (renormalize (pooled_aggregates snapshots))
  end.
End Estimators.

(** A worked input: two forecasters, two buckets, one question-day. *)
Definition example_snapshots : list snapshot :=
  [ {| s_qid := 1; s_guid := "X"; s_day := 0; s_aso := 0; s_prob := 1 # 2;
       s_resolved_probability := Some 1; s_correctness_known_day := None |};
    {| s_qid := 1; s_guid := "X"; s_day := 0; s_aso := 1; s_prob := 1 # 4;
       s_resolved_probability := Some 0; s_correctness_known_day := None |};
    {| s_qid := 1; s_guid := "Y"; s_day := 0; s_aso := 0; s_prob := 1 # 4;
       s_resolved_probability := Some 1; s_correctness_known_day := None |};
    {| s_qid := 1; s_guid := "Y"; s_day := 0; s_aso := 1; s_prob := 1 # 4;
       s_resolved_probability := Some 0; s_correctness_known_day := None |} ].

(** The arithmetic mean of a non-empty group, as a reducer. *)
Definition mean_reducer (l : list Q) : cell :=
  Some (fold_right Qplus 0 l / inject_Z (Z.of_nat (List.length l))).

(** *** The renormalisation, row by row *)

(** Whether the group of [r] in the table [agg] has more than one bucket. *)
Definition multi_bucket_row (agg : list agg_row) (r : agg_row) : bool :=
  (1 <? List.length (group_of agg (a_qid r) (a_day r)))%nat.

(** The renormalised value of column [col] in row [r] of the table [agg]. *)
Definition renormalized_cell (agg : list agg_row) (col : prob_col)
           (r : agg_row) : cell :=
  if multi_bucket_row agg r && negb (Qle_bool (group_total col agg r) 0)
  then cell_div (get_col col r) (group_total col agg r)
  else get_col col r.

(** A row transformation that leaves the group key alone. *)
Definition keeps_keys (F : agg_row -> agg_row) : Prop :=
  forall r, a_qid (F r) = a_qid r /\ a_day (F r) = a_day r.

End Aggregation.

(** ** Binary64 arithmetic

    Where a float product is rounded up or down to an integer that selects
    a row, the rounding of the product decides the row, so it is computed
    as Python computes it: in IEEE 754 binary64, round to nearest, ties to
    even.  A float is represented by its value, a rational [x] with
    [binary64 x].  Overflow to infinity is not modelled (the exponent range
    is unbounded above); gradual underflow is. *)
Module Float64.
Local Open Scope Q_scope.

(** The largest [k] with [2^k <= x], for [x > 0]. *)
Definition ilog2 (x : Q) : Z :=
  let k := (Z.log2 (Qnum x) - Z.log2 (Zpos (Qden x)))%Z in
  if Qle_bool (2 ^ k) x then k else (k - 1)%Z.

(** The nearest integer, ties to even. *)
Definition rne (m : Q) : Z :=
  let fl := Qfloor m in
  match Qcompare (m - inject_Z fl) (1 # 2) with
  | Lt => fl
  | Gt => (fl + 1)%Z
  | Eq => if Z.even fl then fl else (fl + 1)%Z
  end.

(** The exponent of the last place at [x > 0]: 53 significant bits, and
    no exponent below -1074. *)
Definition fexp (x : Q) : Z := Z.max (ilog2 x - 52) (-1074).

Definition round_pos (x : Q) : Q :=
  inject_Z (rne (x / 2 ^ fexp x)) * 2 ^ fexp x.

(** The binary64 number nearest to [x]. *)
Definition round_binary64 (x : Q) : Q :=
  match Qcompare x 0 with
  | Eq => 0
  | Gt => round_pos x
  | Lt => - round_pos (- x)
  end.

(** [x] is the value of a binary64 float. *)
Definition binary64 (x : Q) : Prop := round_binary64 x == x.

(** The float denoted by a decimal literal such as [0.40]. *)
Definition py_float (q : Q) : Q := round_binary64 q.

(** [float(z)] of an integer, as in the mixed product [f * n]. *)
Definition float_of_int (z : Z) : Q := round_binary64 (inject_Z z).

(** [x * y] on floats. *)
Definition float_mul (x y : Q) : Q := round_binary64 (x * y).

(** The standard library's specification of IEEE 754 arithmetic, to compare
    with: the value of one of its floats, the binary64 float nearest to
    [m * 2^e], and a sample of products (the three products of the freeze
    index discussed below, products that underflow, ties, a negative
    factor). *)
Definition value_of (x : SpecFloat.spec_float) : Q :=
  match x with
  | SpecFloat.S754_finite s m e =>
      (if s then -1 else 1) * inject_Z (Zpos m) * 2 ^ e
  | _ => 0
  end.

Definition binary64_of (m e : Z) : SpecFloat.spec_float :=
  SpecFloat.binary_normalize 53 1024 m e false.

Definition sample_products
  : list (SpecFloat.spec_float * SpecFloat.spec_float) :=
  [ (binary64_of 7205759403792794 (-56), binary64_of 10 0);
    (binary64_of 4953959590107546 (-53), binary64_of 100 0);
    (binary64_of 7205759403792794 (-54), binary64_of 10 0);
    (binary64_of 1 (-600), binary64_of 1 (-500));
    (binary64_of 3 (-600), binary64_of 1 (-474));
    (binary64_of 3 (-600), binary64_of 1 (-475));
    (binary64_of 5 (-600), binary64_of 1 (-475));
    (binary64_of 7 (-600), binary64_of 1 (-475));
    (binary64_of 9007199254740991 (-600),
     binary64_of 9007199254740991 (-470));
    (binary64_of (-9007199254740991) (-52), binary64_of 9007199254740989 0);
    (binary64_of 6004799503160661 (-54), binary64_of 6004799503160661 (-53));
    (binary64_of 3 0, binary64_of 6004799503160661 (-54)) ].
End Float64.

(** ** pipeline.py: the freeze / rank / trim controller *)
Module Pipeline.
Import CarryForward.

(** [dropna] on the (question, correctness-known day) pairs. *)
Definition dropna_pairs (l : list (Z * option Z)) : list (Z * Z) :=
  flat_map (fun p => match snd p with
                     | Some d => [(fst p, d)]
                     | None => []
                     end) l.

Definition pair_eqb (a b : Z * Z) : bool :=
  (fst a =? fst b)%Z && (snd a =? snd b)%Z.

(** [sort_values("correctness_known_day")]. *)
Fixpoint insert_by_day (p : Z * Z) (l : list (Z * Z)) : list (Z * Z) :=
  match l with
  | [] => [p]
  | y :: t =>
      if (snd p <=? snd y)%Z then p :: y :: t else y :: insert_by_day p t
  end.

(** Lines 143-148 before the sort: the distinct resolved pairs. *)
Definition resolved_pairs (forecaster_day : list fd_row) : list (Z * Z) :=
  unique pair_eqb
         (dropna_pairs
            (map (fun r => (qid r, correctness_known_day r)) forecaster_day)).

(** Lines 143-148: [q_ck]. *)
Definition q_ck (forecaster_day : list fd_row) : list (Z * Z) :=
  fold_right insert_by_day [] (resolved_pairs forecaster_day).

(** Line 152: [max(0, math.ceil(f * N) - 1)].  [f * N] is a float product:
    the length is converted to a float and the two are multiplied in
    binary64; the ceiling of that float is then exact. *)
Definition freeze_index (resolved_fraction_at_freeze : Q) (n : nat) : Z :=
  Z.max 0
        (Qceiling (Float64.float_mul resolved_fraction_at_freeze
                                     (Float64.float_of_int (Z.of_nat n)))
         - 1).

(** Lines 143-153: phase A of [run_aggregate_with_trimming], on a table that
    carries the column [correctness_known_day].  [iloc] beyond the end raises
    [IndexError].  The fraction is the value of the float passed (a finite
    one). *)
Definition select_freeze_day (resolved_fraction_at_freeze : Q)
           (forecaster_day : list fd_row) : result Z :=
  let q_ck := q_ck forecaster_day in
  if (List.length q_ck =? 0)%nat then
    Raise (ValueError
             "No resolved questions available to determine a freeze day.")
  else
    let idx := freeze_index resolved_fraction_at_freeze (List.length q_ck) in
    match nth_error (map snd q_ck) (Z.to_nat idx) with
    | Some freeze_day => Ok freeze_day
    | None => Raise IndexError
    end.

(** Lines 230-236: phase C, the rows handed to the aggregator.  The excluded
    set is consulted for membership only. *)
Definition trim_snapshots (freeze_day : Z) (excluded_guids : list string)
           (snapshots_full : list snapshot) : list snapshot :=
  match excluded_guids with
  | [] => snapshots_full
  | _ =>
      let mask_drop := fun s =>
        (s_day s >? freeze_day)%Z
        && existsb (String.eqb (s_guid s)) excluded_guids in
      filter (fun s => negb (mask_drop s)) snapshots_full
  end.

(** A worked input: [n] questions, question [i] resolved on day [i]. *)
Definition resolved_questions (n : nat) : list fd_row :=
  map (fun i =>
         {| qid := Z.of_nat i; guid := "X"; day := 0; aso := 0; prob := 1;
            resolved_probability := 1;
            correctness_known_day := Some (Z.of_nat i) |})
      (seq 1 n).

End Pipeline.

(** ** means.py: the trimmed mean *)
Module TrimmedMean.

(** [np.sort]. *)
Fixpoint insert_q (x : Q) (l : list Q) : list Q :=
  match l with
  | [] => [x]
  | y :: t => if Qle_bool x y then x :: y :: t else y :: insert_q x t
  end.

Definition np_sort (l : list Q) : list Q := fold_right insert_q [] l.

(** A Python slice bound on a sequence of length [n]: a negative bound
    counts from the end, and every bound is clamped to [0, n]. *)
Definition slice_bound (n i : Z) : Z :=
  if (i <? 0)%Z then Z.max 0 (n + i) else Z.min i n.

(** [arr[start:stop]]. *)
Definition py_slice (arr : list Q) (start stop : Z) : list Q :=
  let n := Z.of_nat (List.length arr) in
  let lo := slice_bound n start in
  let hi := slice_bound n stop in
  firstn (Z.to_nat (hi - lo)) (skipn (Z.to_nat lo) arr).

(** [.mean()] of an array: NaN ([None]) on the empty array. *)
Definition mean_or_nan (l : list Q) : option Q :=
  match l with
  | [] => None
  | _ => Some (fold_right Qplus 0 l / inject_Z (Z.of_nat (List.length l)))
  end.

(** [trimmed_mean_prob(probs, trim_frac)]; [None] is NaN. *)
Definition trimmed_mean_prob (probs : list Q) (trim_frac : Q) : option Q :=
  let arr := probs in
  if (List.length arr =? 0)%nat then None
  else
    let arr := np_sort arr in
    let size := Z.of_nat (List.length arr) in
    let k := Qfloor (inject_Z size * trim_frac) in
    let trimmed :=
      if (k * 2 >=? size)%Z then arr else py_slice arr k (size - k) in
    mean_or_nan trimmed.

End TrimmedMean.

(** ** Reading the aggregate table *)
Module AggregateContract.
Import CarryForward Aggregation.

(** Two float cells that hold the same number, or are both NaN. *)
Definition same_cell (a b : cell) : Prop :=
  match a, b with
  | Some x, Some y => x == y
  | None, None => True
  | _, _ => False
  end.

(** The snapshots of one (question, day). *)
Definition question_day (q d : Z) (snapshots : list snapshot)
  : list snapshot :=
  filter (fun s => (s_qid s =? q)%Z && (s_day s =? d)%Z) snapshots.

End AggregateContract.

(** ** pipeline.py: the training slice *)
Module Training.
Import CarryForward Pipeline.

(** Line 154, the count behind [frac_resolved]: the number of resolved
    pairs whose correctness-known day is on or before a day. *)
Definition resolved_by (freeze_day : Z) (forecaster_day : list fd_row) : Z :=
  Z.of_nat
    (List.length
       (filter (fun p => (snd p <=? freeze_day)%Z) (q_ck forecaster_day))).

(** Line 158: the rows whose question resolved on or before the freeze day.
    A comparison with [NaT] is false. *)
Definition train_slice (freeze_day : Z) (forecaster_day : list fd_row)
  : list fd_row :=
  filter (fun r => match correctness_known_day r with
                   | Some d => (d <=? freeze_day)%Z
                   | None => false
                   end) forecaster_day.

(** Lines 143-160: phases A and B up to the call of the scorer: the freeze
    day and the training rows, or the exception raised on the way. *)
Definition training_rows (resolved_fraction_at_freeze : Q)
           (forecaster_day : list fd_row) : result (Z * list fd_row) :=
  match select_freeze_day resolved_fraction_at_freeze forecaster_day with
  | Raise e => Raise e
  | Ok freeze_day =>
      let train := train_slice freeze_day forecaster_day in
      if (List.length train =? 0)%nat then
        Raise (ValueError
                 "No questions resolved by freeze day; cannot rank forecasters.")
      else Ok (freeze_day, train)
  end.

End Training.

(** ** pipeline.py: participation rate, eligibility and the excluded set *)
Module Ranking.
Import Aggregation.

(** One row of [per_q_guid]: the per-(question, forecaster) scores returned
    by the individual scorer, with the [total_days] looked up on lines
    186-200 ([None]: the question is in neither calendar map). *)
Record pqg_row : Type := {
  r_qid : Z;                            (* "discover question id" *)
  r_guid : string;                      (* "membership guid" *)
  n_days : Z;                           (* "n_days", a group size *)
  avg_brier : cell;                     (* "avg_brier" *)
  total_days : option Z                 (* "total_days" *)
}.

Definition fillna (A : Type) (d : A) (x : option A) : A :=
  match x with
  | Some v => v
  | None => d
  end.

Definition notna (A : Type) (x : option A) : bool :=
  match x with
  | Some _ => true
  | None => false
  end.

(** [Series.clip]. *)
Definition clip_lower (lower x : Q) : Q := if Qle_bool lower x then x else lower.
Definition clip_upper (upper x : Q) : Q := if Qle_bool x upper then x else upper.
Definition clip (lower upper x : Q) : Q := clip_upper upper (clip_lower lower x).

(** Line 203: [total_days.fillna(1).clip(lower=1).astype("float64")]. *)
Definition guarded_total_days (r : pqg_row) : Q :=
  clip_lower 1 (inject_Z (fillna 1%Z (total_days r))).

(** Lines 204-205. *)
Definition participation_rate (r : pqg_row) : Q :=
  clip 0 1 (inject_Z (n_days r) / guarded_total_days r).

(** Lines 206-208: the rate 0 is replaced by a missing value before the
    division, so the quotient is missing there. *)
Definition coverage_adjusted_brier (r : pqg_row) : cell :=
  let rate :=
    if Qeq_bool (participation_rate r) 0 then None
    else Some (participation_rate r) in
  match avg_brier r, rate with
  | Some b, Some p => Some (b / p)
  | _, _ => None
  end.

(** Lines 211-215. *)
Definition eligible (min_days_eligibility : Z) (min_participation_rate : Q)
           (per_q_guid : list pqg_row) : list pqg_row :=
  filter (fun r =>
            (n_days r >=? min_days_eligibility)%Z
            && Qle_bool min_participation_rate (participation_rate r)
            && notna (coverage_adjusted_brier r))
         per_q_guid.

(** The sorted group keys of [groupby("membership guid")]. *)
Fixpoint insert_guid (g : string) (l : list string) : list string :=
  match l with
  | [] => [g]
  | y :: t => if String.leb g y then g :: y :: t else y :: insert_guid g t
  end.

(** The mean of a float column, NaN skipped; NaN when nothing is left. *)
Definition nanmean (l : list cell) : cell :=
  let vals := flat_map (fun c => match c with
                                 | Some x => [x]
                                 | None => []
                                 end) l in
  match vals with
  | [] => None
  | _ => Some (fold_right Qplus 0 vals / inject_Z (Z.of_nat (List.length vals)))
  end.

(** Lines 221-224: one score per eligible forecaster. *)
Definition eligible_mean (eligible : list pqg_row) : list (string * cell) :=
  map (fun g =>
         (g, nanmean (map coverage_adjusted_brier
                          (filter (fun r => String.eqb (r_guid r) g) eligible))))
      (fold_right insert_guid [] (unique String.eqb (map r_guid eligible))).

(** Line 225. *)
Definition n_trim (bottom_frac_to_trim : Q) (n : nat) : Z :=
  Z.max 1 (Qfloor (bottom_frac_to_trim * inject_Z (Z.of_nat n))).


Section Excluded.
(** [sort_values("score", ascending=False)].  pandas sorts with an unstable
    algorithm by default, so the order among equal scores is left to the
    sorting routine, which is a parameter here. *)
Variable sort_values_desc : list (string * cell) -> list (string * cell).

(** Lines 210-227: the excluded forecasters. *)
Definition excluded_guids (bottom_frac_to_trim : Q)
           (min_days_eligibility : Z) (min_participation_rate : Q)
           (per_q_guid : list pqg_row) : list string :=
  let eligible :=
    eligible min_days_eligibility min_participation_rate per_q_guid in
  match eligible with
  | [] => []
  | _ =>
      let eligible_mean := eligible_mean eligible in
      let n_trim := n_trim bottom_frac_to_trim (List.length eligible_mean) in
      let worst := firstn (Z.to_nat n_trim) (sort_values_desc eligible_mean) in
      map fst worst
  end.
End Excluded.




End Ranking.

(** ** data_cleaner.py *)
Module DataCleaner.

Section Cleaner.
(** The cells of the column "made after correctness known" (booleans,
    strings or missing values) and lines 44-50 on one cell: the text of the
    cell, stripped and lower-cased, mapped to [True] / [False], anything
    else to NaN. *)
Variable raw : Type.
Variable normalized_after_known : raw -> option bool.

(** One row of the raw prediction table; the columns the cleaner reads. *)
Record raw_row : Type := {
  discover_question_id : option Z;            (* None: NaN *)
  answer_resolved_probability : option Q;     (* None: NaN *)
  made_after_correctness_known : raw
}.

Definition isna (A : Type) (x : option A) : bool :=
  match x with
  | Some _ => false
  | None => true
  end.

(** [Series.dropna]. *)
Definition dropna (A : Type) (l : list (option A)) : list A :=
  flat_map (fun x => match x with
                     | Some v => [v]
                     | None => []
                     end) l.

(** [Series.isin] of one cell against a list without NaN. *)
Definition isin (q : option Z) (values : list Z) : bool :=
  match q with
  | Some z => existsb (Z.eqb z) values
  | None => false
  end.

(** Lines 30-35. *)
Definition bad_qids (df : list raw_row) : list Z :=
  unique Z.eqb
         (dropna (map discover_question_id
                      (filter (fun r => isna (answer_resolved_probability r))
                              df))).

(** Line 59: [_made_after_known == True]. *)
Definition drop_mask (r : raw_row) : bool :=
  match normalized_after_known (made_after_correctness_known r) with
  | Some true => true
  | _ => false
  end.

(** Lines 29-69: the cleaned rows, the removed question ids and the number
    of rows dropped in step 2. *)
Definition drop_unresolved_questions (df : list raw_row)
  : list raw_row * list Z * nat :=
  let bad_qids := bad_qids df in
  let df_step1 :=
    filter (fun r => negb (isin (discover_question_id r) bad_qids)) df in
  let n_after_known_removed := List.length (filter drop_mask df_step1) in
  let cleaned := filter (fun r => negb (drop_mask r)) df_step1 in
  (cleaned, bad_qids, n_after_known_removed).
End Cleaner.

End DataCleaner.

(** ** baserate_filter.py *)
Module BaserateFilter.
Import CarryForward.

(** One row of the rationale source; the columns the filter reads. *)
Record source_row : Type := {
  sr_guid : string;                     (* "membership guid" *)
  rationale : option string             (* "rationale"; None: NaN *)
}.

Section Filter.
(** [pattern.search] on one text: whether the regular expression occurs. *)
Variable pattern : string -> bool.

(** Line 28: [astype(str)] writes a missing rationale as the text [nan],
    which leaves nothing for [fillna] to fill. *)
Definition rationale_text (r : source_row) : string :=
  match rationale r with
  | Some t => t
  | None => "nan"%string
  end.

(** Line 29. *)
Definition hit (r : source_row) : bool := pattern (rationale_text r).

(** Line 30, [["_hit"].sum()] of one group: the hits of one forecaster. *)
Definition group_hits (g : string) (df : list source_row) : Z :=
  Z.of_nat
    (List.length
       (filter hit (filter (fun r => String.eqb (sr_guid r) g) df))).

(** Line 30: the number of hits per forecaster, in the order of the sorted
    group keys. *)
Definition counts (df : list source_row) : list (string * Z) :=
  map (fun g => (g, group_hits g df))
      (fold_right Ranking.insert_guid []
                  (unique String.eqb (map sr_guid df))).

(** Lines 28-31. *)
Definition keyword_guids (min_hits : Z) (df : list source_row) : list string :=
  map fst (filter (fun c => (snd c >=? min_hits)%Z) (counts df)).

(** Lines 48-66, without the diagnostics. *)
Definition filter_by_rationale (min_hits : Z)
           (rationale_source : list source_row) (df : list fd_row)
  : list fd_row :=
  let keep := keyword_guids min_hits rationale_source in
  filter (fun r => existsb (String.eqb (guid r)) keep) df.
End Filter.

(** A worked input: forecaster [X] cites a base rate once, [Y] never. *)
Definition example_source : list source_row :=
  [ {| sr_guid := "X"; rationale := Some "base rate"%string |};
    {| sr_guid := "X"; rationale := None |};
    {| sr_guid := "Y"; rationale := Some "gut feeling"%string |} ].

(** A stand-in for the search: the text is exactly [base rate]. *)
Definition example_pattern (t : string) : bool :=
  String.eqb t "base rate"%string.

End BaserateFilter.

(** ** main.py: the correctness-known day of a question *)
Module Main.
Import CarryForward.

(** Lines 88-93: the earliest correctness-known day per question, over the
    rows that have one; the series is keyed by question. *)
Definition q_earliest_ck (rows : list (Z * option Z)) : list (Z * Z) :=
  let known := Pipeline.dropna_pairs rows in
  map (fun q =>
         (q, fold_right Z.min
                        (hd 0%Z (map snd (filter (fun p => (fst p =? q)%Z)
                                                 known)))
                        (map snd (filter (fun p => (fst p =? q)%Z) known))))
      (sorted (unique Z.eqb (map fst known))).

(** Line 96: [Series.map] with the series as the lookup; a question without
    an entry gets NaT. *)
Definition attach_correctness_known_day (forecaster_day : list fd_row)
  : list fd_row :=
  let ck := q_earliest_ck
              (map (fun r => (qid r, correctness_known_day r))
                   forecaster_day) in
  map (fun r =>
         {| qid := qid r; guid := guid r; day := day r; aso := aso r;
            prob := prob r; resolved_probability := resolved_probability r;
            correctness_known_day := dict_get Z.eqb (qid r) ck |})
      forecaster_day.

End Main.

(** * Proofs *)

(** ** Lists and dictionaries *)

Section ListFacts.
Variables (A : Type) (eqb : A -> A -> bool).
Hypothesis eqb_eq : forall a b, eqb a b = true <-> a = b.

Lemma eqb_refl' a : eqb a a = true.
Proof. apply eqb_eq; reflexivity. Qed.

Lemma eqb_neq a b : eqb a b = false <-> a <> b.
Proof.
  split.
  - intros H E. apply eqb_eq in E. congruence.
  - intros H. destruct (eqb a b) eqn:E; [apply eqb_eq in E; tauto | reflexivity].
Qed.

Lemma unique_In (l : list A) x : In x (unique eqb l) <-> In x l.
Proof.
  induction l as [|y t IH]; simpl; [tauto|].
  rewrite filter_In, IH, negb_true_iff, eqb_neq.
  split.
  - intros [E|[H _]]; auto.
  - intros [E|H]; auto.
    destruct (eqb y x) eqn:E; [apply eqb_eq in E; auto|].
    right; split; [exact H | apply eqb_neq; exact E].
Qed.

Lemma NoDup_filter' (f : A -> bool) (l : list A) :
  NoDup l -> NoDup (filter f l).
Proof.
  induction 1 as [|x t Hx Ht IH]; simpl; [constructor|].
  destruct (f x); auto. constructor; auto.
  rewrite filter_In; tauto.
Qed.

Lemma unique_NoDup (l : list A) : NoDup (unique eqb l).
Proof.
  induction l as [|y t IH]; simpl; constructor.
  - rewrite filter_In, negb_true_iff, eqb_neq. tauto.
  - apply NoDup_filter'; exact IH.
Qed.

Lemma existsb_eqb (l : list A) x :
  existsb (fun y => eqb y x) l = true <-> In x l.
Proof.
  rewrite existsb_exists. split.
  - intros [y [Hy E]]. apply eqb_eq in E. subst; exact Hy.
  - intros H. exists x. split; [exact H | apply eqb_refl'].
Qed.
End ListFacts.

Lemma filter_filter' (A : Type) (f g : A -> bool) (l : list A) :
  filter f (filter g l) = filter (fun x => f x && g x) l.
Proof.
  induction l as [|x t IH]; simpl; [reflexivity|].
  destruct (g x); simpl; rewrite ?andb_true_r, ?andb_false_r;
    [destruct (f x)|]; rewrite IH; reflexivity.
Qed.

Lemma filter_nil_iff (A : Type) (f : A -> bool) (l : list A) :
  filter f l = [] <-> forall x, In x l -> f x = false.
Proof.
  induction l as [|x t IH]; simpl; [tauto|].
  destruct (f x) eqn:E; split.
  - discriminate.
  - intros H. specialize (H x (or_introl eq_refl)). congruence.
  - intros H y [<-|Hy]; [exact E | apply IH; assumption].
  - intros H. apply IH. intros y Hy. apply H; auto.
Qed.

Section DictFacts.
Variables (K V : Type) (eqb : K -> K -> bool).
Hypothesis eqb_eq : forall a b, eqb a b = true <-> a = b.

Lemma dict_get_set (k k' : K) (v : V) d :
  dict_get eqb k (dict_set eqb k' v d)
  = if eqb k' k then Some v else dict_get eqb k d.
Proof.
  induction d as [|[k0 v0] d IH]; simpl; [reflexivity|].
  destruct (eqb k0 k') eqn:E0; simpl.
  - apply eqb_eq in E0; subst k0. destruct (eqb k' k); reflexivity.
  - rewrite IH. destruct (eqb k0 k) eqn:E1; [|reflexivity].
    destruct (eqb k' k) eqn:E2; [|reflexivity].
    apply eqb_eq in E1, E2. subst.
    rewrite (eqb_refl' eqb eqb_eq) in E0. discriminate.
Qed.

Lemma dict_get_pop (k k' : K) (d : list (K * V)) :
  dict_get eqb k (dict_pop eqb k' d)
  = if eqb k' k then None else dict_get eqb k d.
Proof.
  unfold dict_pop.
  induction d as [|[k0 v0] d IH]; simpl; [destruct (eqb k' k); reflexivity|].
  destruct (eqb k0 k') eqn:E0; simpl.
  - rewrite IH. apply eqb_eq in E0; subst k0. destruct (eqb k' k); reflexivity.
  - rewrite IH. destruct (eqb k0 k) eqn:E1; [|reflexivity].
    destruct (eqb k' k) eqn:E2; [|reflexivity].
    apply eqb_eq in E1, E2. subst.
    rewrite (eqb_refl' eqb eqb_eq) in E0. discriminate.
Qed.

Lemma dict_set_keys (k k0 : K) (v : V) d :
  In k0 (map fst (dict_set eqb k v d)) <-> k0 = k \/ In k0 (map fst d).
Proof.
  induction d as [|[k1 v1] d IH]; simpl; [intuition auto|].
  destruct (eqb k1 k) eqn:E; simpl.
  - apply eqb_eq in E; subst. intuition auto.
  - rewrite IH. intuition auto.
Qed.

Lemma dict_set_NoDup (k : K) (v : V) d :
  NoDup (map fst d) -> NoDup (map fst (dict_set eqb k v d)).
Proof.
  induction d as [|[k1 v1] d IH]; simpl; intros H.
  - constructor; [simpl; tauto | constructor].
  - inversion H as [|? ? Hn Hd]; subst.
    destruct (eqb k1 k) eqn:E; simpl.
    + constructor; assumption.
    + constructor; [|auto].
      rewrite dict_set_keys. intros [->|Hin]; [|tauto].
      rewrite (eqb_refl' eqb eqb_eq) in E. discriminate.
Qed.

Lemma dict_pop_NoDup (k : K) (d : list (K * V)) :
  NoDup (map fst d) -> NoDup (map fst (dict_pop eqb k d)).
Proof.
  unfold dict_pop.
  induction d as [|[k1 v1] d IH]; simpl; intros H; [constructor|].
  inversion H as [|? ? Hn Hd]; subst.
  destruct (eqb k1 k); simpl; [auto|].
  constructor; [|auto].
  intros Hin. apply Hn. apply in_map_iff in Hin.
  destruct Hin as [e [He Hin]]. apply filter_In in Hin.
  apply in_map_iff. exists e. tauto.
Qed.

Lemma dict_get_None (k : K) (d : list (K * V)) :
  dict_get eqb k d = None <-> ~ In k (map fst d).
Proof.
  induction d as [|[k1 v1] d IH]; simpl; [tauto|].
  destruct (eqb k1 k) eqn:E.
  - apply eqb_eq in E. split; [discriminate | intros H; exfalso; auto].
  - apply (eqb_neq eqb eqb_eq) in E. rewrite IH. tauto.
Qed.

Lemma dict_get_In (k : K) (v : V) (d : list (K * V)) :
  NoDup (map fst d) -> (In (k, v) d <-> dict_get eqb k d = Some v).
Proof.
  induction d as [|[k1 v1] d IH]; simpl; intros H.
  - split; [tauto | discriminate].
  - inversion H as [|? ? Hn Hd]; subst.
    destruct (eqb k1 k) eqn:E.
    + apply eqb_eq in E; subst k1. split.
      * intros [E|Hin]; [congruence|].
        exfalso. apply Hn. apply in_map_iff. exists (k, v). auto.
      * intros E; left; congruence.
    + apply (eqb_neq eqb eqb_eq) in E. rewrite <- (IH Hd). split.
      * intros [E'|Hin]; [congruence | exact Hin].
      * auto.
Qed.
End DictFacts.

(** ** Sorting of day numbers *)

Lemma insert_sorted_In x y l : In y (insert_sorted x l) <-> y = x \/ In y l.
Proof.
  induction l as [|z t IH]; simpl; [intuition auto|].
  destruct (x <=? z)%Z; simpl; [|rewrite IH]; intuition auto.
Qed.

Lemma sorted_In x l : In x (sorted l) <-> In x l.
Proof.
  induction l as [|y t IH]; simpl; [tauto|].
  rewrite insert_sorted_In, IH. intuition auto.
Qed.

Lemma insert_sorted_lt x l :
  ~ In x l -> StronglySorted Z.lt l -> StronglySorted Z.lt (insert_sorted x l).
Proof.
  induction l as [|y t IH]; simpl; intros Hx Hs.
  - constructor; constructor.
  - inversion Hs as [|? ? Ht Hy]; subst.
    destruct (x <=? y)%Z eqn:E.
    + apply Z.leb_le in E.
      assert (x < y)%Z by (assert (y <> x) by tauto; lia).
      constructor; [exact Hs|].
      constructor; [assumption|].
      rewrite Forall_forall in *. intros z Hz. specialize (Hy z Hz). lia.
    + apply Z.leb_gt in E.
      constructor; [apply IH; tauto|].
      rewrite Forall_forall in *. intros z Hz.
      apply insert_sorted_In in Hz. destruct Hz as [->|Hz]; auto.
  Qed.

Lemma sorted_lt l : NoDup l -> StronglySorted Z.lt (sorted l).
Proof.
  induction 1 as [|x t Hx Ht IH]; simpl; [constructor|].
  apply insert_sorted_lt; [rewrite sorted_In; exact Hx | exact IH].
Qed.

Lemma insert_sorted_le x l :
  StronglySorted Z.le l -> StronglySorted Z.le (insert_sorted x l).
Proof.
  induction l as [|y t IH]; simpl; intros Hs.
  - constructor; constructor.
  - inversion Hs as [|? ? Ht Hy]; subst.
    destruct (x <=? y)%Z eqn:E.
    + apply Z.leb_le in E.
      constructor; [exact Hs|].
      constructor; [assumption|].
      rewrite Forall_forall in *. intros z Hz. specialize (Hy z Hz). lia.
    + apply Z.leb_gt in E.
      constructor; [apply IH; tauto|].
      rewrite Forall_forall in *. intros z Hz.
      apply insert_sorted_In in Hz. destruct Hz as [->|Hz]; [lia | auto].
Qed.

Lemma sorted_le l : StronglySorted Z.le (sorted l).
Proof.
  induction l as [|x t IH]; simpl; [constructor | apply insert_sorted_le, IH].
Qed.

Lemma insert_sorted_perm x l : Permutation (x :: l) (insert_sorted x l).
Proof.
  induction l as [|y t IH]; simpl; [reflexivity|].
  destruct (x <=? y)%Z; [reflexivity|].
  rewrite perm_swap. constructor. exact IH.
Qed.

Lemma sorted_perm l : Permutation l (sorted l).
Proof.
  induction l as [|x t IH]; simpl; [constructor|].
  rewrite <- insert_sorted_perm. constructor. exact IH.
Qed.

(** ** The carry-forward engine *)

Section CarryForwardFacts.
Import CarryForward.

Lemma key_eqb_eq (a b : key) : key_eqb a b = true <-> a = b.
Proof.
  destruct a as [g1 a1], b as [g2 a2]. unfold key_eqb; simpl.
  rewrite andb_true_iff, String.eqb_eq, Z.eqb_eq.
  split; [intros [-> ->]; reflexivity | intros E; inversion E; auto].
Qed.

Lemma fold_max_spec x t :
  In (fold_right Z.max x t) (x :: t)
  /\ forall y, In y (x :: t) -> (y <= fold_right Z.max x t)%Z.
Proof.
  induction t as [|z t [IHin IHle]]; simpl.
  - split; [auto | intros y [<-|[]]; lia].
  - split.
    + destruct (Z.max_spec z (fold_right Z.max x t)) as [[_ ->]|[_ ->]];
        [simpl in IHin; tauto | auto].
    + intros y [<-|[<-|Hy]].
      * specialize (IHle x (or_introl eq_refl)). lia.
      * lia.
      * specialize (IHle y (or_intror Hy)). lia.
Qed.

Lemma list_max_Some l m :
  list_max l = Some m <-> In m l /\ forall y, In y l -> (y <= m)%Z.
Proof.
  destruct l as [|x t]; simpl.
  - split; [discriminate | tauto].
  - destruct (fold_max_spec x t) as [Hin Hle]. split.
    + intros E; inversion E; subst. split; assumption.
    + intros [Hm Hall]. f_equal.
      specialize (Hall _ Hin). specialize (Hle _ Hm). lia.
Qed.

Lemma list_max_None l : list_max l = None <-> l = [].
Proof. destruct l; simpl; split; congruence. Qed.

Lemma last_update_day_Some fd k D U :
  last_update_day fd k D = Some U <->
  (exists r, In r fd /\ row_key r = k /\ day r = U)
  /\ (U <= D)%Z
  /\ (forall r, In r fd -> row_key r = k -> (day r <= D)%Z -> (day r <= U)%Z).
Proof.
  unfold last_update_day, submissions_upto. rewrite list_max_Some. split.
  - intros [Hin Hmax]. apply in_map_iff in Hin.
    destruct Hin as [r [Hr Hin]]. apply filter_In in Hin.
    destruct Hin as [Hin Hc]. apply andb_true_iff in Hc.
    destruct Hc as [Hk Hd]. apply key_eqb_eq in Hk. apply Z.leb_le in Hd.
    split; [exists r; auto|]. split; [lia|].
    intros r' Hr' Hk' Hd'. apply Hmax. apply in_map. apply filter_In.
    split; [assumption|]. apply andb_true_iff. split.
    + apply key_eqb_eq; assumption.
    + apply Z.leb_le; assumption.
  - intros [[r [Hin [Hk Hd]]] [HU Hmax]]. split.
    + apply in_map_iff. exists r. split; [assumption|].
      apply filter_In. split; [assumption|]. apply andb_true_iff. split.
      * apply key_eqb_eq; assumption.
      * apply Z.leb_le; lia.
    + intros y Hy. apply in_map_iff in Hy. destruct Hy as [r' [<- Hr']].
      apply filter_In in Hr'. destruct Hr' as [Hr' Hc].
      apply andb_true_iff in Hc. destruct Hc as [Hk' Hd'].
      apply key_eqb_eq in Hk'. apply Z.leb_le in Hd'. auto.
Qed.

Lemma last_update_day_None fd k D :
  last_update_day fd k D = None <->
  (forall r, In r fd -> row_key r = k -> (D < day r)%Z).
Proof.
  unfold last_update_day, submissions_upto. rewrite list_max_None. split.
  - intros E r Hin Hk. apply map_eq_nil in E.
    rewrite filter_nil_iff in E. specialize (E r Hin).
    apply andb_false_iff in E. destruct E as [E|E].
    + apply (eqb_neq key_eqb key_eqb_eq) in E. contradiction.
    + apply Z.leb_gt in E. exact E.
  - intros H. replace (filter _ fd) with (@nil fd_row); [reflexivity|].
    symmetry. apply filter_nil_iff. intros r Hin.
    destruct (key_eqb (row_key r) k) eqn:Ek; [|reflexivity].
    apply key_eqb_eq in Ek. specialize (H r Hin Ek). simpl.
    apply Z.leb_gt. exact H.
Qed.

Lemma last_update_day_ext fd k D D' :
  (forall r, In r fd -> row_key r = k ->
             ((day r <= D)%Z <-> (day r <= D')%Z)) ->
  last_update_day fd k D = last_update_day fd k D'.
Proof.
  intros H. unfold last_update_day, submissions_upto. f_equal. f_equal.
  apply filter_ext_in. intros r Hin.
  destruct (key_eqb (row_key r) k) eqn:Ek; [|reflexivity]. simpl.
  apply key_eqb_eq in Ek. specialize (H r Hin Ek).
  destruct (day r <=? D)%Z eqn:E1, (day r <=? D')%Z eqn:E2; try reflexivity.
  - apply Z.leb_le in E1. apply Z.leb_gt in E2. apply H in E1. lia.
  - apply Z.leb_le in E2. apply Z.leb_gt in E1. apply H in E2. lia.
Qed.

(** The state after [apply_updates]: today's keys are overwritten, the
    other entries are untouched. *)
Lemma updates_fold today d k ks : forall st,
  let F := fun (st : state) (k0 : key) =>
    {| latest_probs :=
         dict_set key_eqb k0
           (last (map prob (filter (fun r => key_eqb (row_key r) k0) today)) 0)
           (latest_probs st);
       latest_day := dict_set key_eqb k0 d (latest_day st) |} in
  dict_get key_eqb k (latest_probs (fold_left F ks st))
  = (if existsb (fun k' => key_eqb k' k) ks
     then Some (last (map prob
                        (filter (fun r => key_eqb (row_key r) k) today)) 0)
     else dict_get key_eqb k (latest_probs st))
  /\ dict_get key_eqb k (latest_day (fold_left F ks st))
     = (if existsb (fun k' => key_eqb k' k) ks then Some d
        else dict_get key_eqb k (latest_day st))
  /\ (NoDup (map fst (latest_probs st)) ->
      NoDup (map fst (latest_probs (fold_left F ks st))))
  /\ (NoDup (map fst (latest_day st)) ->
      NoDup (map fst (latest_day (fold_left F ks st)))).
Proof.
  induction ks as [|k0 ks IH]; intros st F; simpl.
  - auto.
  - destruct (IH (F st k0)) as [H1 [H2 [H3 H4]]]. fold F in H1, H2, H3, H4.
    rewrite H1, H2. unfold F at 2 4; simpl. rewrite !dict_get_set
      by exact key_eqb_eq.
    repeat split.
    + destruct (key_eqb k0 k) eqn:E; simpl.
      * apply key_eqb_eq in E; subst k0.
        destruct (existsb _ ks); reflexivity.
      * reflexivity.
    + destruct (key_eqb k0 k) eqn:E; simpl;
        [destruct (existsb _ ks)|]; reflexivity.
    + intros Hn. apply H3. unfold F; simpl.
      apply dict_set_NoDup; [exact key_eqb_eq | exact Hn].
    + intros Hn. apply H4. unfold F; simpl.
      apply dict_set_NoDup; [exact key_eqb_eq | exact Hn].
Qed.

Lemma existsb_unique_keys today k :
  existsb (fun k' => key_eqb k' k) (unique key_eqb (map row_key today))
  = existsb (fun r => key_eqb (row_key r) k) today.
Proof.
  apply eq_iff_eq_true.
  rewrite (existsb_eqb key_eqb key_eqb_eq), (unique_In key_eqb key_eqb_eq).
  rewrite existsb_exists, in_map_iff. split.
  - intros [r [E Hin]]. exists r. split; [exact Hin | apply key_eqb_eq, E].
  - intros [r [Hin E]]. exists r. split; [apply key_eqb_eq, E | exact Hin].
Qed.

Lemma apply_updates_spec d today st k :
  dict_get key_eqb k (latest_probs (apply_updates d today st))
  = (if existsb (fun r => key_eqb (row_key r) k) today
     then Some (last (map prob
                        (filter (fun r => key_eqb (row_key r) k) today)) 0)
     else dict_get key_eqb k (latest_probs st))
  /\ dict_get key_eqb k (latest_day (apply_updates d today st))
     = (if existsb (fun r => key_eqb (row_key r) k) today then Some d
        else dict_get key_eqb k (latest_day st))
  /\ (NoDup (map fst (latest_probs st)) ->
      NoDup (map fst (latest_probs (apply_updates d today st))))
  /\ (NoDup (map fst (latest_day st)) ->
      NoDup (map fst (latest_day (apply_updates d today st)))).
Proof.
  unfold apply_updates.
  destruct (updates_fold today d k (unique key_eqb (map row_key today)) st)
    as [H1 [H2 [H3 H4]]].
  rewrite existsb_unique_keys in H1, H2. auto.
Qed.

(** The state after a run of [pop]s. *)
Lemma pops_fold k ks : forall st,
  let F := fun (st : state) (k0 : key) =>
    {| latest_probs := dict_pop key_eqb k0 (latest_probs st);
       latest_day := dict_pop key_eqb k0 (latest_day st) |} in
  dict_get key_eqb k (latest_probs (fold_left F ks st))
  = (if existsb (fun k' => key_eqb k' k) ks then None
     else dict_get key_eqb k (latest_probs st))
  /\ dict_get key_eqb k (latest_day (fold_left F ks st))
     = (if existsb (fun k' => key_eqb k' k) ks then None
        else dict_get key_eqb k (latest_day st))
  /\ (NoDup (map fst (latest_probs st)) ->
      NoDup (map fst (latest_probs (fold_left F ks st))))
  /\ (NoDup (map fst (latest_day st)) ->
      NoDup (map fst (latest_day (fold_left F ks st)))).
Proof.
  induction ks as [|k0 ks IH]; intros st F; simpl.
  - auto.
  - destruct (IH (F st k0)) as [H1 [H2 [H3 H4]]]. fold F in H1, H2, H3, H4.
    rewrite H1, H2. unfold F at 2 4; simpl. rewrite !dict_get_pop
      by exact key_eqb_eq.
    repeat split.
    + destruct (key_eqb k0 k); simpl; [destruct (existsb _ ks)|]; reflexivity.
    + destruct (key_eqb k0 k); simpl; [destruct (existsb _ ks)|]; reflexivity.
    + intros Hn. apply H3. unfold F; simpl.
      apply dict_pop_NoDup; exact Hn.
    + intros Hn. apply H4. unfold F; simpl.
      apply dict_pop_NoDup; exact Hn.
Qed.

Lemma to_drop_spec (g : Z -> bool) k (dd : list (key * Z)) :
  NoDup (map fst dd) ->
  existsb (fun k' => key_eqb k' k)
          (map fst (filter (fun e => g (snd e)) dd))
  = match dict_get key_eqb k dd with
    | Some U => g U
    | None => false
    end.
Proof.
  induction dd as [|[k1 v1] t IH]; simpl; intros Hn; [reflexivity|].
  inversion Hn as [|? ? Hk Ht]; subst. specialize (IH Ht).
  destruct (key_eqb k1 k) eqn:E.
  - apply key_eqb_eq in E; subst k1.
    apply (dict_get_None key_eqb key_eqb_eq) in Hk. rewrite Hk in IH.
    destruct (g v1); simpl; [|exact IH].
    replace (key_eqb k k) with true; [reflexivity|].
    symmetry; apply key_eqb_eq; reflexivity.
  - destruct (g v1); simpl; [rewrite E|]; exact IH.
Qed.

Lemma drop_stale_spec S d st k :
  NoDup (map fst (latest_day st)) ->
  dict_get key_eqb k (latest_day (drop_stale S d st))
  = match dict_get key_eqb k (latest_day st) with
    | Some U => if stale S d U then None else Some U
    | None => None
    end
  /\ dict_get key_eqb k (latest_probs (drop_stale S d st))
     = match dict_get key_eqb k (latest_day st) with
       | Some U => if stale S d U then None
                   else dict_get key_eqb k (latest_probs st)
       | None => dict_get key_eqb k (latest_probs st)
       end.
Proof.
  intros Hn. unfold drop_stale, stale. destruct S as [c|].
  - match goal with |- context [fold_left _ ?ks st] =>
      destruct (pops_fold k ks st) as [H1 [H2 _]] end.
    rewrite H1, H2.
    rewrite (@to_drop_spec (fun U => (d - U >? c)%Z) k _ Hn).
    destruct (dict_get key_eqb k (latest_day st)) as [U|]; [|auto].
    destruct (d - U >? c)%Z; auto.
  - destruct (dict_get key_eqb k (latest_day st)); auto.
Qed.

Lemma drop_stale_NoDup S d st :
  (NoDup (map fst (latest_probs st)) ->
   NoDup (map fst (latest_probs (drop_stale S d st))))
  /\ (NoDup (map fst (latest_day st)) ->
      NoDup (map fst (latest_day (drop_stale S d st)))).
Proof.
  unfold drop_stale. destruct S as [c|]; [|auto].
  match goal with |- context [fold_left _ ?ks st] =>
    destruct (pops_fold (EmptyString, 0%Z) ks st) as [_ [_ [H3 H4]]] end.
  auto.
Qed.

Section OneQuestion.
Variables (S : option Z) (pa pq : bool)
          (pal : list ((Z * Z) * Q)) (pql : list (Z * option Z))
          (q : Z) (sub_q : list fd_row).

Lemma emit_rows_for k D d st :
  NoDup (map fst (latest_probs st)) ->
  map s_prob
      (filter (fun s => key_eqb (s_guid s, s_aso s) k && (s_day s =? D)%Z)
              (emit pa pq pal pql q d st))
  = if (d =? D)%Z
    then match dict_get key_eqb k (latest_probs st) with
         | Some p => [p]
         | None => []
         end
    else [].
Proof.
  unfold emit. destruct st as [lp ld]; simpl.
  induction lp as [|[[g a] p1] t IH]; simpl; intros Hn.
  - destruct (d =? D)%Z; reflexivity.
  - inversion Hn as [|? ? Hk Ht]; subst. specialize (IH Ht).
    destruct (key_eqb (g, a) k) eqn:E; simpl.
    + apply key_eqb_eq in E; subst k.
      apply (dict_get_None key_eqb key_eqb_eq) in Hk. rewrite Hk in IH.
      destruct (d =? D)%Z; simpl; rewrite IH; reflexivity.
    + exact IH.
Qed.

Lemma day_loop_days days : forall st s,
  In s (day_loop S pa pq pal pql q sub_q days st) -> In (s_day s) days.
Proof.
  induction days as [|d days IH]; simpl; intros st s Hin; [exact Hin|].
  apply in_app_or in Hin. destruct Hin as [Hin|Hin].
  - left. unfold emit in Hin. apply in_map_iff in Hin.
    destruct Hin as [e [<- _]]. reflexivity.
  - right. eapply IH; exact Hin.
Qed.

Lemma day_loop_qid days : forall st s,
  In s (day_loop S pa pq pal pql q sub_q days st) -> s_qid s = q.
Proof.
  induction days as [|d days IH]; simpl; intros st s Hin; [contradiction|].
  apply in_app_or in Hin. destruct Hin as [Hin|Hin].
  - unfold emit in Hin. apply in_map_iff in Hin.
    destruct Hin as [e [<- _]]. reflexivity.
  - eapply IH; exact Hin.
Qed.

Lemma stale_mono dp d U :
  (dp < d)%Z -> stale S dp U = true -> stale S d U = true.
Proof.
  unfold stale. destruct S as [c|]; [|auto].
  rewrite !Z.gtb_lt. lia.
Qed.

Lemma day_step d days prev st :
  (forall r, In r sub_q ->
             In (day r) (d :: days)
             \/ exists dp, prev = Some dp /\ (day r <= dp)%Z) ->
  Forall (Z.lt d) days ->
  (forall dp, prev = Some dp -> (dp < d)%Z) ->
  engine_inv S sub_q prev st ->
  engine_inv S sub_q (Some d)
    (drop_stale S d
       (apply_updates d (filter (fun r => (day r =? d)%Z) sub_q) st)).
Proof.
  intros Hcov Hlt Hprev [Hn1 [Hn2 [Hday Hcoh]]].
  set (today := filter (fun r => (day r =? d)%Z) sub_q).
  set (st1 := apply_updates d today st).
  assert (Hn1' : NoDup (map fst (latest_probs st1)))
    by (apply (apply_updates_spec d today st (EmptyString, 0%Z)); exact Hn1).
  assert (Hn2' : NoDup (map fst (latest_day st1)))
    by (apply (apply_updates_spec d today st (EmptyString, 0%Z)); exact Hn2).
  assert (Hday1 : forall k, dict_get key_eqb k (latest_day st1)
                            = match last_update_day sub_q k d with
                              | Some U =>
                                  if (U =? d)%Z then Some d
                                  else dict_get key_eqb k (latest_day st)
                              | None => None
                              end
                            /\ dict_get key_eqb k (latest_probs st1)
                               = option_map (last_prob_on sub_q k)
                                   (dict_get key_eqb k (latest_day st1))).
  { intros k.
    destruct (apply_updates_spec d today st k) as [H1 [H2 _]].
    fold st1 in H1, H2. rewrite H1, H2.
    destruct (existsb (fun r => key_eqb (row_key r) k) today) eqn:Et.
    - apply existsb_exists in Et. destruct Et as [r [Hr Hk]].
      apply filter_In in Hr. destruct Hr as [Hr Hd].
      apply Z.eqb_eq in Hd. apply key_eqb_eq in Hk.
      assert (Hl : last_update_day sub_q k d = Some d).
      { apply last_update_day_Some. split; [exists r; auto|].
        split; [lia | auto]. }
      rewrite Hl, Z.eqb_refl. split; [reflexivity|]. simpl.
      unfold last_prob_on, today. rewrite filter_filter'. reflexivity.
    - assert (Hno : forall r, In r sub_q -> row_key r = k -> day r <> d).
      { intros r Hr Hk Hd.
        assert (E : existsb (fun r => key_eqb (row_key r) k) today = true).
        { apply existsb_exists. exists r. split.
          - apply filter_In. split; [exact Hr | apply Z.eqb_eq, Hd].
          - apply key_eqb_eq, Hk. }
        congruence. }
      split; [|apply Hcoh].
      destruct (last_update_day sub_q k d) as [U|] eqn:El.
      + apply last_update_day_Some in El.
        destruct El as [[r [Hr [Hk Hd]]] _].
        destruct (U =? d)%Z eqn:E; [|reflexivity].
        apply Z.eqb_eq in E. exfalso. apply (Hno r Hr Hk). lia.
      + rewrite Hday. destruct prev as [dp|]; [|reflexivity].
        unfold live_day.
        replace (last_update_day sub_q k dp) with (@None Z); [reflexivity|].
        symmetry. apply last_update_day_None. intros r Hr Hk.
        rewrite last_update_day_None in El. specialize (El r Hr Hk).
        specialize (Hprev dp eq_refl). lia. }
  split; [apply drop_stale_NoDup; exact Hn1'|].
  split; [apply drop_stale_NoDup; exact Hn2'|].
  assert (Hgoal : forall k,
             dict_get key_eqb k (latest_day (drop_stale S d st1))
             = live_day S sub_q k d).
  { intros k. destruct (drop_stale_spec S d st1 k Hn2') as [H1 _].
    rewrite H1. destruct (Hday1 k) as [-> _]. unfold live_day.
    destruct (last_update_day sub_q k d) as [U|] eqn:El; [|reflexivity].
    destruct (U =? d)%Z eqn:E.
    - apply Z.eqb_eq in E; subst U. reflexivity.
    - apply Z.eqb_neq in E. rewrite Hday.
      apply last_update_day_Some in El.
      destruct El as [[r [Hr [Hk Hd]]] [HU Hmax]].
      destruct (Hcov r Hr) as [Hin|[dp [-> Hdp]]].
      + exfalso. destruct Hin as [Hin|Hin]; [lia|].
        rewrite Forall_forall in Hlt. specialize (Hlt _ Hin). lia.
      + specialize (Hprev dp eq_refl). unfold live_day.
        assert (El' : last_update_day sub_q k dp = Some U).
        { apply last_update_day_Some. split; [exists r; auto|].
          split; [lia|]. intros r' Hr' Hk' Hd'. apply Hmax; auto. lia. }
        rewrite El'. destruct (stale S dp U) eqn:Es.
        * apply stale_mono with (d := d) in Es; [|exact Hprev].
          rewrite Es. reflexivity.
        * reflexivity. }
  split; [exact Hgoal|].
  intros k. rewrite Hgoal.
  destruct (drop_stale_spec S d st1 k Hn2') as [H1 H2].
  rewrite H2. rewrite Hgoal in H1.
  destruct (Hday1 k) as [_ Hc]. rewrite Hc.
  destruct (dict_get key_eqb k (latest_day st1)) as [U|]; simpl.
  - destruct (stale S d U); rewrite H1; reflexivity.
  - rewrite H1. reflexivity.
Qed.

Lemma day_loop_spec days : forall prev st,
  StronglySorted Z.lt days ->
  (forall r, In r sub_q ->
             In (day r) days
             \/ exists dp, prev = Some dp /\ (day r <= dp)%Z) ->
  (forall dp d, prev = Some dp -> In d days -> (dp < d)%Z) ->
  engine_inv S sub_q prev st ->
  forall D k, In D days ->
    map s_prob
        (filter (fun s => key_eqb (s_guid s, s_aso s) k
                          && (s_day s =? D)%Z)
                (day_loop S pa pq pal pql q sub_q days st))
    = match live_day S sub_q k D with
      | Some U => [last_prob_on sub_q k U]
      | None => []
      end.
Proof.
  induction days as [|d days IH]; intros prev st Hs Hcov Hprev Hinv D k HD;
    [contradiction|].
  inversion Hs as [|? ? Hs' Hlt]; subst.
  assert (Hinv' : engine_inv S sub_q (Some d)
            (drop_stale S d
               (apply_updates d
                  (filter (fun r => (day r =? d)%Z) sub_q) st))).
  { apply day_step with (days := days) (prev := prev); auto.
    intros dp E. apply (Hprev dp d E). left; reflexivity. }
  simpl. rewrite filter_app, map_app.
  destruct Hinv' as [Hn1 [Hn2 [Hday Hcoh]]].
  rewrite emit_rows_for by exact Hn1.
  destruct HD as [<-|HD].
  - rewrite Z.eqb_refl.
    match goal with |- _ ++ map _ ?l = _ =>
      replace l with (@nil snapshot) end.
    + rewrite app_nil_r, Hcoh, Hday.
      destruct (live_day S sub_q k d); reflexivity.
    + symmetry. apply filter_nil_iff. intros s Hin.
      apply day_loop_days in Hin.
      rewrite Forall_forall in Hlt. specialize (Hlt _ Hin).
      apply andb_false_iff. right. apply Z.eqb_neq. lia.
  - assert (d <> D).
    { rewrite Forall_forall in Hlt. specialize (Hlt _ HD). lia. }
    replace (d =? D)%Z with false by (symmetry; apply Z.eqb_neq; assumption).
    simpl. apply IH with (prev := Some d); auto.
    + intros r Hr. destruct (Hcov r Hr) as [[E|Hin]|[dp [E Hle]]].
      * right. exists d. split; [reflexivity | lia].
      * left. exact Hin.
      * right. exists d. split; [reflexivity|].
        specialize (Hprev dp d E (or_introl eq_refl)). lia.
    + intros dp d' E Hin. inversion E; subst dp.
      rewrite Forall_forall in Hlt. apply Hlt. exact Hin.
    + repeat split; assumption.
Qed.

(** Every emitted record carries the key of a genuine submission. *)
Lemma day_loop_keys days prev st :
  StronglySorted Z.lt days ->
  (forall r, In r sub_q ->
             In (day r) days
             \/ exists dp, prev = Some dp /\ (day r <= dp)%Z) ->
  (forall dp d, prev = Some dp -> In d days -> (dp < d)%Z) ->
  engine_inv S sub_q prev st ->
  forall s, In s (day_loop S pa pq pal pql q sub_q days st) ->
            exists r, In r sub_q /\ row_key r = (s_guid s, s_aso s).
Proof.
  intros Hs Hcov Hprev Hinv s Hin.
  pose proof (@day_loop_spec days prev st Hs Hcov Hprev Hinv (s_day s)
                (s_guid s, s_aso s) (day_loop_days _ _ _ Hin)) as H.
  assert (Hf : In s (filter (fun s0 => key_eqb (s_guid s0, s_aso s0)
                                               (s_guid s, s_aso s)
                                       && (s_day s0 =? s_day s)%Z)
                            (day_loop S pa pq pal pql q sub_q days st))).
  { apply filter_In. split; [exact Hin|]. rewrite Z.eqb_refl, andb_true_r.
    apply key_eqb_eq. reflexivity. }
  unfold live_day in H.
  destruct (last_update_day sub_q (s_guid s, s_aso s) (s_day s)) as [U|] eqn:El.
  - apply last_update_day_Some in El. destruct El as [[r [Hr [Hk _]]] _].
    exists r. auto.
  - apply map_eq_nil in H. rewrite H in Hf. contradiction.
Qed.
End OneQuestion.

Lemma astype_int16_fits z : fits_int16 z -> astype_int16 z = z.
Proof.
  unfold fits_int16, astype_int16. intros H.
  rewrite Z.mod_small by lia. lia.
Qed.

Lemma downcast_chunk_filter (P : snapshot -> bool) b l :
  (forall s s', s_qid s = s_qid s' -> s_guid s = s_guid s' ->
                s_aso s = s_aso s' -> s_day s = s_day s' -> P s = P s') ->
  (b = true -> Forall (fun s => fits_int16 (s_aso s)) l) ->
  map s_prob (filter P (downcast_chunk b l)) = map s_prob (filter P l).
Proof.
  intros HP Hfit. destruct b; [|reflexivity]. specialize (Hfit eq_refl).
  unfold downcast_chunk.
  induction Hfit as [|s l Hs Hl IH]; simpl; [reflexivity|].
  match goal with |- context [P ?c] =>
    rewrite (HP c s)
      by (try reflexivity; simpl; apply astype_int16_fits; exact Hs) end.
  destruct (P s); simpl; rewrite IH; reflexivity.
Qed.

Lemma downcast_chunk_qid b l s :
  In s (downcast_chunk b l) -> exists s', In s' l /\ s_qid s = s_qid s'.
Proof.
  destruct b; simpl.
  - intros Hin. apply in_map_iff in Hin. destruct Hin as [s' [<- Hin]].
    exists s'. split; [exact Hin | reflexivity].
  - intros Hin. exists s. auto.
Qed.

Lemma question_chunk_qid S pa pq pal pql dc fd q s :
  In s (question_chunk S pa pq pal pql dc fd q) -> s_qid s = q.
Proof.
  unfold question_chunk. intros Hin. apply downcast_chunk_qid in Hin.
  destruct Hin as [s' [Hin ->]]. eapply day_loop_qid; exact Hin.
Qed.

Lemma engine_inv_empty S sub_q : engine_inv S sub_q None empty_state.
Proof.
  unfold engine_inv, empty_state; simpl.
  repeat split; try constructor.
Qed.

(** One question: on each of its observed days, the chunk holds for every
    key the value of its last update, unless that update is stale. *)
Lemma question_chunk_spec S pa pq pal pql dc fd q k D :
  buckets_fit dc fd ->
  In D (map day (question_rows fd q)) ->
  map s_prob
      (filter (fun s => key_eqb (s_guid s, s_aso s) k && (s_day s =? D)%Z)
              (question_chunk S pa pq pal pql dc fd q))
  = match live_day S (question_rows fd q) k D with
    | Some U => [last_prob_on (question_rows fd q) k U]
    | None => []
    end.
Proof.
  intros Hfit HD. unfold question_chunk. fold (question_rows fd q).
  assert (Hs : StronglySorted Z.lt
                 (sorted (unique Z.eqb (map day (question_rows fd q)))))
    by (apply sorted_lt; apply unique_NoDup; exact Z.eqb_eq).
  assert (Hcov : forall r, In r (question_rows fd q) ->
            In (day r) (sorted (unique Z.eqb (map day (question_rows fd q))))
            \/ exists dp, @None Z = Some dp /\ (day r <= dp)%Z).
  { intros r Hr. left. apply sorted_In. apply (unique_In Z.eqb Z.eqb_eq).
    apply in_map. exact Hr. }
  assert (Hprev : forall dp d : Z, @None Z = Some dp ->
            In d (sorted (unique Z.eqb (map day (question_rows fd q)))) ->
            (dp < d)%Z)
    by (intros dp d E; discriminate E).
  rewrite downcast_chunk_filter.
  - apply day_loop_spec with (prev := @None Z); auto.
    + apply engine_inv_empty.
    + apply sorted_In. apply (unique_In Z.eqb Z.eqb_eq). exact HD.
  - intros s s' _ Hg Ha Hd. rewrite Hg, Ha, Hd. reflexivity.
  - intros E. apply Forall_forall. intros s Hin.
    destruct (@day_loop_keys S pa pq pal pql q (question_rows fd q) _ _ _
                Hs Hcov Hprev (engine_inv_empty S _) s Hin)
      as [r [Hr Hk]].
    specialize (Hfit E). rewrite Forall_forall in Hfit.
    unfold question_rows in Hr. apply filter_In in Hr.
    unfold row_key in Hk. injection Hk as Hg Ha. cbv beta.
    rewrite <- Ha. apply (Hfit r). tauto.
Qed.

Lemma filter_flat_map_nil (A B : Type) (P : B -> bool) (f : A -> list B) l :
  (forall y, In y l -> filter P (f y) = []) -> filter P (flat_map f l) = [].
Proof.
  induction l as [|y t IH]; simpl; intros H; [reflexivity|].
  rewrite filter_app, (H y (or_introl eq_refl)), IH; [reflexivity|].
  intros z Hz. apply H. right; exact Hz.
Qed.

Lemma filter_flat_map_single (A B : Type) (P : B -> bool) (f : A -> list B)
      l x :
  NoDup l -> In x l ->
  (forall y, In y l -> y <> x -> filter P (f y) = []) ->
  filter P (flat_map f l) = filter P (f x).
Proof.
  induction 1 as [|y t Hy Ht IH]; simpl; intros Hx Hnil; [contradiction|].
  rewrite filter_app. destruct Hx as [->|Hx].
  - rewrite filter_flat_map_nil; [apply app_nil_r|].
    intros z Hz. apply Hnil; [right; exact Hz|].
    intros ->. contradiction.
  - rewrite (Hnil y (or_introl eq_refl)) by (intros ->; contradiction).
    simpl. apply IH; [exact Hx|].
    intros z Hz. apply Hnil. right; exact Hz.
Qed.

(** The whole table: the rows of ([q], [k], [D]) come from the chunk of [q]. *)
Lemma carry_forward_spec fd S pa pq dc q X B D :
  buckets_fit dc fd ->
  In D (map day (question_rows fd q)) ->
  map s_prob (rows_for_question q X B D
                (carry_forward_snapshots fd S pa pq dc))
  = match live_day S (question_rows fd q) (X, B) D with
    | Some U => [last_prob_on (question_rows fd q) (X, B) U]
    | None => []
    end.
Proof.
  intros Hfit HD. unfold rows_for_question, carry_forward_snapshots.
  rewrite filter_flat_map_single with (x := q).
  - rewrite <- (@question_chunk_spec S pa pq
                  (if pa then build_per_answer_lookup fd else [])
                  (if pq then build_per_question_lookup fd else [])
                  dc fd q (X, B) D Hfit HD).
    f_equal. apply filter_ext_in. intros s Hs.
    apply question_chunk_qid in Hs. rewrite Hs, Z.eqb_refl. reflexivity.
  - apply unique_NoDup. exact Z.eqb_eq.
  - apply (unique_In Z.eqb Z.eqb_eq).
    apply in_map_iff in HD. destruct HD as [r [_ Hr]].
    apply filter_In in Hr. destruct Hr as [Hr Hq]. apply Z.eqb_eq in Hq.
    apply in_map_iff. exists r. auto.
  - intros q' _ Hne. apply filter_nil_iff. intros s Hs.
    apply question_chunk_qid in Hs. rewrite Hs.
    replace (q' =? q)%Z with false; [reflexivity|].
    symmetry. apply Z.eqb_neq. exact Hne.
Qed.

Lemma carry_forward_qids fd S pa pq dc s :
  In s (carry_forward_snapshots fd S pa pq dc) ->
  exists r, In r fd /\ qid r = s_qid s.
Proof.
  unfold carry_forward_snapshots. intros Hin. apply in_flat_map in Hin.
  destruct Hin as [q' [Hq Hs]]. apply question_chunk_qid in Hs.
  rewrite (unique_In Z.eqb Z.eqb_eq) in Hq. apply in_map_iff in Hq.
  destruct Hq as [r [E Hr]]. exists r. split; [exact Hr | congruence].
Qed.

Lemma question_rows_single fd q :
  Forall (fun r => qid r = q) fd -> question_rows fd q = fd.
Proof.
  unfold question_rows. induction 1 as [|r t Hr Ht IH]; simpl; [reflexivity|].
  rewrite Hr, Z.eqb_refl, IH. reflexivity.
Qed.

Lemma map_singleton (A B : Type) (f : A -> B) l y :
  map f l = [y] -> exists x, l = [x] /\ f x = y.
Proof.
  destruct l as [|x [|x' t]]; simpl; intros E; try discriminate.
  inversion E. exists x. auto.
Qed.

(** What the table holds for one key on one observed day, by cases on the
    last update. *)
Lemma carry_forward_cases fd S pa pq dc q X B D :
  buckets_fit dc fd ->
  In D (map day (question_rows fd q)) ->
  let R := rows_for_question q X B D (carry_forward_snapshots fd S pa pq dc) in
  match last_update_day (question_rows fd q) (X, B) D with
  | Some U =>
      if stale S D U then R = []
      else exists s, R = [s]
                     /\ s_prob s = last_prob_on (question_rows fd q) (X, B) U
  | None => R = []
  end.
Proof.
  intros Hfit HD R.
  pose proof (@carry_forward_spec fd S pa pq dc q X B D Hfit HD) as H.
  fold R in H. unfold live_day in H.
  destruct (last_update_day (question_rows fd q) (X, B) D) as [U|].
  - destruct (stale S D U).
    + apply map_eq_nil in H. exact H.
    + apply map_singleton in H. exact H.
  - apply map_eq_nil in H. exact H.
Qed.

Lemma carry_forward_latest_row fd q pa pq dc X B d0 D :
  buckets_fit dc fd ->
  Forall (fun r => qid r = q) fd ->
  has_submission fd X B d0 ->
  observed_day fd D ->
  (d0 <= D)%Z ->
  latest_row fd X B D (carry_forward_snapshots fd None pa pq dc).
Proof.
  intros Hfit Hq [r [Hr [Hg [Ha Hd]]]] HD Hle. unfold latest_row.
  pose proof (question_rows_single Hq) as Eq.
  unfold observed_day in HD. rewrite <- Eq in HD.
  pose proof (@carry_forward_cases fd None pa pq dc q X B D Hfit HD) as H.
  simpl in H. rewrite Eq in H.
  assert (ER : rows_for X B D (carry_forward_snapshots fd None pa pq dc)
               = rows_for_question q X B D
                   (carry_forward_snapshots fd None pa pq dc)).
  { unfold rows_for, rows_for_question. apply filter_ext_in. intros s Hs.
    apply carry_forward_qids in Hs. destruct Hs as [r' [Hr' E]].
    rewrite Forall_forall in Hq. rewrite <- E, (Hq r' Hr'), Z.eqb_refl.
    reflexivity. }
  rewrite ER. unfold latest_submission.
  destruct (last_update_day fd (X, B) D) as [U|] eqn:El.
  - destruct H as [s [Hs Hp]]. exists s, (last_prob_on fd (X, B) U). auto.
  - exfalso. rewrite last_update_day_None in El.
    assert (D < day r)%Z by (apply El; [exact Hr | unfold row_key; congruence]).
    lia.
Qed.

(** C1.  Single-question input, no staleness limit: once forecaster [X] has
    a genuine submission for bucket [B] on an observed day [d0], the engine
    emits on every observed day [D >= d0] exactly one snapshot record for
    ([X], [B], [D]), and its probability is the most recent submission of
    [X] for [B] on or before [D], the last one in row order within a day.
    The same holds of the returned table, whose downcast stores the bucket
    ordinal in 16 bits, for ordinals in that range. *)
Theorem carry_forward_no_staleness_latest fd q pa pq X B d0 D :
  Forall (fun r => qid r = q) fd ->
  has_submission fd X B d0 ->
  observed_day fd D ->
  (d0 <= D)%Z ->
  latest_row fd X B D (emitted_records fd None pa pq)
  /\ (forall dc, buckets_fit dc fd ->
                 latest_row fd X B D
                            (carry_forward_snapshots fd None pa pq dc)).
Proof.
  intros Hq Hsub HD Hle. split.
  - unfold emitted_records.
    apply carry_forward_latest_row with (q := q) (d0 := d0); auto.
    intros E; discriminate E.
  - intros dc Hfit.
    apply carry_forward_latest_row with (q := q) (d0 := d0); auto.
Qed.

Lemma carry_forward_no_staleness_latest_witness :
  exists s,
    rows_for "X" 0 8 (emitted_records example_table None true false) = [s]
    /\ s_prob s = 1 # 2.
Proof.
  destruct (@carry_forward_no_staleness_latest
              example_table 1%Z true false "X"%string 0%Z 0%Z 8%Z)
    as [[s [p [H1 [H2 H3]]]] _].
  - repeat constructor.
  - eexists. split; [left; reflexivity | repeat split].
  - right; right; left; reflexivity.
  - lia.
  - exists s. split; [exact H1|]. rewrite H3.
    vm_compute in H2. congruence.
Defined.

(** Why the returned table needs the range: an ordinal beyond 16 bits is
    stored wrapped, so its row is no longer found under the ordinal that was
    submitted. *)
Example downcast_wraps_bucket_ordinal :
  let fd := [ {| qid := 1; guid := "X"; day := 0; aso := 40000;
                 prob := 1 # 2; resolved_probability := 1;
                 correctness_known_day := None |} ] in
  map s_aso (emitted_records fd None true false) = [40000%Z]
  /\ map s_aso (carry_forward_snapshots fd None true false true)
     = [(-25536)%Z].
Proof. split; reflexivity. Qed.

Lemma staleness_rule_holds fd S pa pq dc q X B D :
  buckets_fit dc fd ->
  In D (map day (question_rows fd q)) ->
  staleness_rule S (question_rows fd q) q X B D
                 (carry_forward_snapshots fd (Some S) pa pq dc).
Proof.
  intros Hfit HD. unfold staleness_rule.
  set (rows := question_rows fd q).
  set (out := carry_forward_snapshots fd (Some S) pa pq dc).
  assert (Hlive : forall D' U, In D' (map day rows) ->
            last_update_day rows (X, B) D' = Some U -> (D' - U <= S)%Z ->
            exists s, rows_for_question q X B D' out = [s]
                      /\ s_prob s = last_prob_on rows (X, B) U).
  { intros D' U HD' El Hle.
    pose proof (@carry_forward_cases fd (Some S) pa pq dc q X B D' Hfit HD')
      as H.
    simpl in H. fold rows in H. fold out in H. rewrite El in H.
    replace (D' - U >? S)%Z with false in H; [exact H|].
    symmetry. rewrite Z.gtb_ltb. apply Z.ltb_ge. lia. }
  assert (Hdead : forall D' U, In D' (map day rows) ->
            last_update_day rows (X, B) D' = Some U -> (D' - U > S)%Z ->
            rows_for_question q X B D' out = []).
  { intros D' U HD' El Hgt.
    pose proof (@carry_forward_cases fd (Some S) pa pq dc q X B D' Hfit HD')
      as H.
    simpl in H. fold rows in H. fold out in H. rewrite El in H.
    replace (D' - U >? S)%Z with true in H; [exact H|].
    symmetry. apply Z.gtb_lt. lia. }
  split; [|split; [|split]].
  - split.
    + intros [s Hs].
      pose proof (@carry_forward_cases fd (Some S) pa pq dc q X B D Hfit HD)
        as H.
      simpl in H. fold rows in H. fold out in H.
      destruct (last_update_day rows (X, B) D) as [U|].
      * exists U. split; [reflexivity|].
        destruct (D - U >? S)%Z eqn:E.
        -- rewrite H in Hs. contradiction.
        -- rewrite Z.gtb_ltb in E. apply Z.ltb_ge in E. lia.
      * rewrite H in Hs. contradiction.
    + intros [U [El Hle]]. destruct (Hlive D U HD El Hle) as [s [Hs _]].
      exists s. rewrite Hs. left; reflexivity.
  - intros U El Hle. apply Hlive; assumption.
  - intros U El Hgt. split; [apply (Hdead D U); assumption|].
    intros D' HD' Hle El'. apply (Hdead D' U); [assumption|assumption|lia].
  - intros -> U El. split.
    + intros E. destruct (Hlive D U HD El) as [s [Hs _]]; [lia|].
      exists s. exact Hs.
    + intros Hge. apply (Hdead D U); [assumption|assumption|lia].
Qed.

(** C3.  With a staleness limit of [S] days, on an observed day [D] of a
    question the engine emits a record for a (forecaster, bucket) entry iff
    the entry has a last update day [U] with [D - U <= S] (and then exactly
    one, carrying the value submitted on [U]); once [D - U > S] no record
    appears on [D] nor on any later observed day for which [U] is still the
    last update; with [S = 7] there is a record on day [U + 7] and none from
    [U + 8] on.  The same holds of the returned table, whose downcast stores
    the bucket ordinal in 16 bits, for ordinals in that range. *)
Theorem staleness_eviction_boundary fd S pa pq q X B D :
  In D (map day (question_rows fd q)) ->
  staleness_rule S (question_rows fd q) q X B D
                 (emitted_records fd (Some S) pa pq)
  /\ (forall dc, buckets_fit dc fd ->
                 staleness_rule S (question_rows fd q) q X B D
                   (carry_forward_snapshots fd (Some S) pa pq dc)).
Proof.
  intros HD. split.
  - unfold emitted_records. apply staleness_rule_holds; [|exact HD].
    intros E; discriminate E.
  - intros dc Hfit. apply staleness_rule_holds; assumption.
Qed.

Lemma staleness_eviction_boundary_witness :
  (exists s, rows_for_question 1 "X" 0 7
               (emitted_records example_table (Some 7%Z) true false) = [s])
  /\ rows_for_question 1 "X" 0 8
       (emitted_records example_table (Some 7%Z) true false) = [].
Proof.
  split.
  - assert (H7 : In 7%Z (map day (question_rows example_table 1)))
      by (right; left; reflexivity).
    pose proof (@staleness_eviction_boundary
                  example_table 7%Z true false 1%Z "X"%string 0%Z 7%Z H7)
      as [[_ [_ [_ H]]] _].
    destruct (H eq_refl 0%Z eq_refl) as [Hrow _].
    exact (Hrow eq_refl).
  - assert (H8 : In 8%Z (map day (question_rows example_table 1)))
      by (right; right; left; reflexivity).
    pose proof (@staleness_eviction_boundary
                  example_table 7%Z true false 1%Z "X"%string 0%Z 8%Z H8)
      as [[_ [_ [_ H]]] _].
    destruct (H eq_refl 0%Z eq_refl) as [_ Hnone].
    apply Hnone. lia.
Defined.
End CarryForwardFacts.

(** ** The ordered Brier score *)

Section OrderedBrierFacts.
Import OrderedBrier.

Lemma np_sum_map_ext (A : Type) (f g : A -> Q) l :
  (forall x, In x l -> f x == g x) ->
  np_sum (map f l) == np_sum (map g l).
Proof.
  induction l as [|x t IH]; simpl; intros H; [reflexivity|].
  rewrite (H x (or_introl eq_refl)), IH; [reflexivity|].
  intros y Hy. apply H. right; exact Hy.
Qed.

Lemma np_sum_scale (c : Q) l :
  np_sum (map (fun x => x / c) l) == np_sum l / c.
Proof.
  induction l as [|x t IH]; simpl.
  - unfold Qdiv. ring.
  - rewrite IH. unfold Qdiv. ring.
Qed.

Lemma cumsum_from_length acc l :
  List.length (cumsum_from acc l) = List.length l.
Proof.
  revert acc. induction l as [|x t IH]; simpl; intros acc; [reflexivity|].
  rewrite IH. reflexivity.
Qed.

Lemma np_cumsum_length l : List.length (np_cumsum l) = List.length l.
Proof.
  destruct l as [|x t]; simpl; [reflexivity|].
  rewrite cumsum_from_length. reflexivity.
Qed.

Lemma cumsum_from_nth l : forall acc j,
  (j < List.length l)%nat ->
  nth j (cumsum_from acc l) 0 == acc + np_sum (firstn (S j) l).
Proof.
  induction l as [|x t IH]; simpl; intros acc j Hj; [lia|].
  destruct j as [|j].
  - destruct t; simpl; ring.
  - rewrite IH by lia. simpl. ring.
Qed.

Lemma np_cumsum_nth l j :
  (j < List.length l)%nat ->
  nth j (np_cumsum l) 0 == spec_cumulative l j.
Proof.
  unfold spec_cumulative. destruct l as [|x t]; simpl; intros Hj; [lia|].
  destruct j as [|j].
  - destruct t; simpl; ring.
  - rewrite cumsum_from_nth by lia. simpl. reflexivity.
Qed.

Lemma zip_with_firstn_seq (f : Q -> Q -> Q) n : forall a b,
  (n <= List.length a)%nat -> (n <= List.length b)%nat ->
  zip_with f (firstn n a) (firstn n b)
  = map (fun j => f (nth j a 0) (nth j b 0)) (seq 0 n).
Proof.
  induction n as [|n IH]; intros a b Ha Hb; [reflexivity|].
  destruct a as [|x a]; [simpl in Ha; lia|].
  destruct b as [|y b]; [simpl in Hb; lia|].
  simpl in Ha, Hb. cbn [firstn zip_with seq map nth].
  rewrite IH by lia. rewrite <- seq_shift, map_map. reflexivity.
Qed.

Lemma positive_sum_test (s : Q) :
  negb (Qle_bool s 0) = true <-> 0 < s.
Proof.
  rewrite negb_true_iff. split.
  - intros E. apply Qnot_le_lt. intros H. apply Qle_bool_iff in H. congruence.
  - intros H. destruct (Qle_bool s 0) eqn:E; [|reflexivity].
    apply Qle_bool_iff in E. lra.
Qed.

Lemma rescale_agrees probs :
  (if negb (Qle_bool (np_sum probs) 0)
   then map (fun x => x / np_sum probs) probs else probs)
  = spec_rescaled probs.
Proof.
  unfold spec_rescaled.
  destruct (Qlt_le_dec 0 (np_sum probs)) as [H|H].
  - apply positive_sum_test in H. rewrite H. reflexivity.
  - destruct (negb (Qle_bool (np_sum probs) 0)) eqn:E; [|reflexivity].
    apply positive_sum_test in E. lra.
Qed.

Lemma spec_rescaled_length probs :
  List.length (spec_rescaled probs) = List.length probs.
Proof.
  unfold spec_rescaled. destruct (Qlt_le_dec 0 (np_sum probs));
    [apply length_map | reflexivity].
Qed.

(** The scoring tail computes the specified mean over the splits. *)
Lemma score_splits_spec probs outcome :
  List.length outcome = List.length probs ->
  score_splits probs outcome == spec_ordered_brier probs outcome.
Proof.
  intros Hlen. unfold score_splits, spec_ordered_brier.
  rewrite rescale_agrees.
  set (K := List.length probs).
  assert (HP : List.length (spec_rescaled probs) = K)
    by apply spec_rescaled_length.
  rewrite !removelast_firstn_len, !np_cumsum_length, HP, Hlen. fold K.
  rewrite zip_with_firstn_seq
    by (rewrite np_cumsum_length; lia).
  unfold np_mean. rewrite !length_map, length_seq, map_map.
  replace (Nat.pred K) with (K - 1)%nat by lia.
  apply Qdiv_comp; [|reflexivity].
  apply np_sum_map_ext. intros j Hj. apply in_seq in Hj.
  rewrite !np_cumsum_nth by lia. reflexivity.
Qed.

Lemma np_isin_01 v : np_isin v [0; 1] = true <-> v == 0 \/ v == 1.
Proof.
  unfold np_isin; simpl. rewrite !orb_true_iff, !Qeq_bool_iff.
  intuition discriminate.
Qed.

Lemma insert_unique_In x y l :
  In y (insert_unique x l) -> y = x \/ In y l.
Proof.
  induction l as [|z t IH]; simpl; [intuition auto|].
  destruct (x ?= z); simpl; intuition auto.
Qed.

Lemma insert_unique_keeps x y l : In y l -> In y (insert_unique x l).
Proof.
  induction l as [|z t IH]; simpl; [tauto|].
  destruct (x ?= z); simpl; intuition auto.
Qed.

Lemma insert_unique_has x l : exists x', In x' (insert_unique x l) /\ x' == x.
Proof.
  induction l as [|z t [x' [Hin He]]]; simpl.
  - exists x. split; [auto | reflexivity].
  - destruct (x ?= z) eqn:E.
    + apply Qeq_alt in E. exists z. split; [left; reflexivity|].
      symmetry; exact E.
    + exists x. split; [left; reflexivity | reflexivity].
    + exists x'. split; [right; exact Hin | exact He].
Qed.

Lemma np_unique_In y l : In y (np_unique l) -> In y l.
Proof.
  induction l as [|x t IH]; simpl; [tauto|].
  intros H. apply insert_unique_In in H. intuition auto.
Qed.

Lemma np_unique_has y l : In y l -> exists y', In y' (np_unique l) /\ y' == y.
Proof.
  induction l as [|x t IH]; simpl; [tauto|].
  intros [->|H].
  - apply insert_unique_has.
  - destruct (IH H) as [y' [Hin He]]. exists y'.
    split; [apply insert_unique_keeps; exact Hin | exact He].
Qed.

Lemma forallb_false (A : Type) (f : A -> bool) l :
  forallb f l = false -> exists x, In x l /\ f x = false.
Proof.
  induction l as [|x t IH]; simpl; [discriminate|].
  destruct (f x) eqn:E; simpl.
  - intros H. destruct (IH H) as [y [Hy Hf]]. exists y. auto.
  - intros _. exists x. auto.
Qed.

Lemma all_01_test outcome :
  forallb (fun v => np_isin v [0; 1]) (np_unique outcome) = true
  <-> (forall v, In v outcome -> v == 0 \/ v == 1).
Proof.
  rewrite forallb_forall. split.
  - intros H v Hv. destruct (np_unique_has v outcome Hv) as [v' [Hin He]].
    specialize (H v' Hin). apply np_isin_01 in H. rewrite <- He. exact H.
  - intros H x Hx. apply np_isin_01. apply H. apply np_unique_In. exact Hx.
Qed.

(** The check passes exactly on the outcomes made of 0s and 1s with a
    single 1; when it fails, the exception is a [ValueError]. *)
Lemma check_one_hot_None outcome :
  check_one_hot outcome = None
  <-> (forall v, In v outcome -> v == 0 \/ v == 1)
      /\ count_ones outcome = 1%nat.
Proof.
  unfold check_one_hot. rewrite <- all_01_test.
  destruct (forallb _ (np_unique outcome)); simpl.
  - destruct (count_ones outcome =? 1)%nat eqn:E; simpl.
    + apply Nat.eqb_eq in E. intuition auto.
    + apply Nat.eqb_neq in E. intuition discriminate.
  - intuition discriminate.
Qed.

Lemma check_one_hot_Some outcome e :
  check_one_hot outcome = Some e -> exists msg, e = ValueError msg.
Proof.
  unfold check_one_hot.
  destruct (negb (forallb _ (np_unique outcome)));
    [intros E; inversion E; eauto|].
  destruct (negb (count_ones outcome =? 1)%nat);
    [intros E; inversion E; eauto | discriminate].
Qed.

Lemma check_one_hot_fails outcome :
  check_one_hot outcome <> None
  <-> (exists v, In v outcome /\ ~ v == 0 /\ ~ v == 1)
      \/ count_ones outcome <> 1%nat.
Proof.
  rewrite check_one_hot_None, <- all_01_test. split.
  - intros H.
    destruct (forallb (fun v => np_isin v [0; 1]) (np_unique outcome)) eqn:E.
    + right. intros Hc. apply H. auto.
    + left. apply forallb_false in E. destruct E as [v [Hv Hf]].
      exists v. split; [apply np_unique_In; exact Hv|].
      split; intros Hq;
        (assert (np_isin v [0; 1] = true) by (apply np_isin_01; auto));
        congruence.
  - intros [[v [Hv [H0 H1]]]|Hc] [Hall Hcount]; [|contradiction].
    rewrite all_01_test in Hall. destruct (Hall v Hv); contradiction.
Qed.

Lemma count_ones_zeros l :
  Forall (fun x => x == 0) l -> filter (fun y => Qeq_bool y 1) l = [].
Proof.
  induction 1 as [|x t Hx Ht IH]; simpl; [reflexivity|].
  destruct (Qeq_bool x 1) eqn:E; [|exact IH].
  apply Qeq_bool_iff in E. rewrite Hx in E. discriminate E.
Qed.

Lemma one_hot_passes outcome :
  one_hot outcome -> check_one_hot outcome = None.
Proof.
  intros [a [y [b [-> [Hy [Ha Hb]]]]]]. apply check_one_hot_None. split.
  - intros v Hv. apply in_app_or in Hv. rewrite Forall_forall in Ha, Hb.
    destruct Hv as [Hv|[<-|Hv]]; auto.
  - unfold count_ones. rewrite filter_app; simpl.
    rewrite (count_ones_zeros Ha), (count_ones_zeros Hb).
    apply Qeq_bool_iff in Hy. rewrite Hy. reflexivity.
Qed.

Lemma expand_outcome_agrees probs outcome :
  List.length probs = List.length outcome ->
  snd (expand_single_bucket probs outcome) = expanded_outcome outcome.
Proof.
  unfold expand_single_bucket, expanded_outcome. intros Hlen.
  destruct outcome as [|y [|y' t]]; simpl in Hlen; rewrite Hlen; reflexivity.
Qed.

(** C2.  For a forecast of length [K >= 2] and a one-hot outcome of the
    same length the function returns the mean over the split points
    [j = 0 .. K-2] of [2 (P_j - Y_j)^2], where [P_j] cumulates [probs]
    rescaled to sum to 1 when the raw sum is positive (and left as it is
    otherwise) and [Y_j] cumulates the outcome; the forecast
    [0, 0.5, 0.25, 0.25] against [0, 1, 0, 0] scores 5/24. *)
Theorem ordered_brier_mean_over_splits probs outcome :
  (2 <= List.length probs)%nat ->
  List.length outcome = List.length probs ->
  Forall (fun p => 0 <= p) probs ->
  one_hot outcome ->
  (exists score,
      ordered_brier_from_distribution (Array1 probs) (Array1 outcome)
      = Ok score
      /\ score == spec_ordered_brier probs outcome)
  /\ (0 < np_sum probs -> np_sum (spec_rescaled probs) == 1)
  /\ (exists score,
        ordered_brier_from_distribution
          (Array1 [0; 1 # 2; 1 # 4; 1 # 4]) (Array1 [0; 1; 0; 0]) = Ok score
        /\ score == 5 # 24).
Proof.
  intros HK Hlen _ Hhot. split; [|split].
  - exists (score_splits probs outcome). split.
    + unfold ordered_brier_from_distribution; simpl.
      rewrite Hlen, Nat.eqb_refl; simpl.
      unfold expand_single_bucket.
      replace (List.length probs =? 1)%nat with false
        by (symmetry; apply Nat.eqb_neq; lia).
      rewrite (one_hot_passes Hhot). reflexivity.
    + apply score_splits_spec. exact Hlen.
  - intros Hpos. unfold spec_rescaled.
    destruct (Qlt_le_dec 0 (np_sum probs)) as [H|H]; [|lra].
    rewrite np_sum_scale. field. lra.
  - eexists. split; [vm_compute; reflexivity | vm_compute; reflexivity].
Qed.

Lemma ordered_brier_mean_over_splits_witness :
  exists score,
    ordered_brier_from_distribution
      (Array1 [0; 1 # 2; 1 # 4; 1 # 4]) (Array1 [0; 1; 0; 0]) = Ok score
    /\ score == 5 # 24.
Proof.
  destruct (@ordered_brier_mean_over_splits
              [0; 1 # 2; 1 # 4; 1 # 4] [0; 1; 0; 0]) as [[score [E Hs]] _].
  - simpl; lia.
  - reflexivity.
  - repeat constructor; discriminate.
  - exists [0], 1, [0; 0].
    repeat split; try reflexivity; repeat constructor; reflexivity.
  - exists score. split; [exact E|]. rewrite Hs. vm_compute. reflexivity.
Defined.

(** C7.  The function raises [ValueError] exactly on the rejected inputs
    (an array that is not 1-dimensional, two lengths that differ, or, after
    the single-bucket expansion, an outcome entry other than 0 and 1 or a
    number of 1s other than one); on every other input it returns a score. *)
Theorem ordered_brier_raises_iff_rejected probs outcome :
  ((exists msg,
       ordered_brier_from_distribution probs outcome
       = Raise (ValueError msg))
   <-> rejected probs outcome)
  /\ (~ rejected probs outcome ->
      exists score, ordered_brier_from_distribution probs outcome = Ok score).
Proof.
  unfold rejected, ordered_brier_from_distribution.
  destruct probs as [x|p|n l]; simpl;
    try (split; [split; [intros _; left; lia | intros _; eauto]
                | intros H; exfalso; apply H; left; lia]).
  destruct outcome as [x|o|n l]; simpl;
    try (split; [split; [intros _; right; left; lia | intros _; eauto]
                | intros H; exfalso; apply H; right; left; lia]).
  destruct (List.length p =? List.length o)%nat eqn:El; simpl.
  - apply Nat.eqb_eq in El.
    pose proof (expand_outcome_agrees p o El) as Ee.
    destruct (expand_single_bucket p o) as [p' o']. simpl in Ee. subst o'.
    pose proof (check_one_hot_fails (expanded_outcome o)) as Hf.
    destruct (check_one_hot (expanded_outcome o)) as [e|] eqn:Ec.
    + destruct (check_one_hot_Some _ Ec) as [msg ->].
      assert (Hr : (exists v, In v (expanded_outcome o) /\ ~ v == 0 /\ ~ v == 1)
                   \/ count_ones (expanded_outcome o) <> 1%nat)
        by (apply Hf; discriminate).
      split; [split; [intros _; tauto | intros _; eauto]|].
      intros H; exfalso; apply H; tauto.
    + split; [split|].
      * intros [msg E]; discriminate E.
      * intros [H|[H|[H|H]]]; try (exfalso; lia).
        apply Hf in H. exfalso; apply H; reflexivity.
      * intros _. eauto.
  - apply Nat.eqb_neq in El.
    split; [split; [intros _; tauto | intros _; eauto]|].
    intros H; exfalso; apply H; tauto.
Qed.

Lemma ordered_brier_raises_iff_rejected_witness :
  exists score,
    ordered_brier_from_distribution (Array1 [6 # 10]) (Array1 [1]) = Ok score.
Proof.
  refine (proj2 (ordered_brier_raises_iff_rejected
                   (Array1 [6 # 10]) (Array1 [1])) _).
  unfold rejected; simpl.
  intros [H|[H|[H|[[v [Hv [H0 H1]]]|H]]]]; try (apply H; reflexivity).
  destruct Hv as [<-|[<-|[]]].
  - apply H1. reflexivity.
  - apply H0. reflexivity.
Defined.

(** C8.  A single bucket [p] with outcome [y] in {0, 1} scores as the
    binary forecast [p, 1 - p] against [y, 1 - y], and both calls return a
    score (for every [p], in particular for [p] in [0, 1]). *)
Theorem single_bucket_expansion (p y : Q) :
  0 <= p <= 1 ->
  y == 0 \/ y == 1 ->
  ordered_brier_from_distribution (Array1 [p]) (Array1 [y])
  = ordered_brier_from_distribution (Array1 [p; 1 - p]) (Array1 [y; 1 - y])
  /\ exists score,
      ordered_brier_from_distribution (Array1 [p]) (Array1 [y]) = Ok score.
Proof.
  intros _ Hy. split; [reflexivity|].
  unfold ordered_brier_from_distribution; simpl.
  unfold expand_single_bucket; simpl.
  assert (Hc : check_one_hot [y; 1 - y] = None).
  { apply check_one_hot_None. split.
    - intros v [<-|[<-|[]]]; [exact Hy|].
      destruct Hy as [Hy|Hy]; [right | left]; lra.
    - unfold count_ones; simpl.
      destruct (Qeq_bool y 1) eqn:E1, (Qeq_bool (1 - y) 1) eqn:E2;
        try reflexivity; exfalso.
      + apply Qeq_bool_iff in E1, E2. lra.
      + apply Qeq_bool_neq in E1, E2. destruct Hy as [Hy|Hy]; [|tauto].
        apply E2. lra. }
  rewrite Hc. eauto.
Qed.

Lemma single_bucket_expansion_witness :
  ordered_brier_from_distribution (Array1 [6 # 10]) (Array1 [1])
  = ordered_brier_from_distribution (Array1 [6 # 10; 1 - (6 # 10)])
                                    (Array1 [1; 1 - 1]).
Proof.
  refine (proj1 (@single_bucket_expansion (6 # 10) 1 _ _)).
  - split; discriminate.
  - right; reflexivity.
Defined.
End OrderedBrierFacts.


(** ** The geometric means *)

Section MeansFacts.
Import Means.
Local Open Scope R_scope.

Lemma EPS_pos : 0 < EPS.
Proof. unfold EPS. lra. Qed.

Lemma np_clip_bounds x : EPS <= np_clip EPS (1 - EPS) x <= 1 - EPS.
Proof.
  unfold np_clip, EPS. unfold Rmin, Rmax.
  repeat destruct (Rle_dec _ _); lra.
Qed.

Lemma ln_le_compat x y : 0 < x -> x <= y -> ln x <= ln y.
Proof.
  intros Hx [Hlt| ->]; [left; apply ln_increasing; assumption | right; reflexivity].
Qed.

Lemma exp_le_compat x y : x <= y -> exp x <= exp y.
Proof.
  intros [Hlt| ->]; [left; apply exp_increasing; assumption | right; reflexivity].
Qed.

Lemma arr_sum_bounds a b l :
  (forall x, In x l -> a <= x <= b) ->
  INR (List.length l) * a <= arr_sum l <= INR (List.length l) * b.
Proof.
  induction l as [|x t IH]; intros H.
  - simpl. lra.
  - change (List.length (x :: t)) with (S (List.length t)).
    rewrite S_INR. simpl arr_sum.
    pose proof (H x (or_introl eq_refl)).
    assert (Ht : forall y, In y t -> a <= y <= b)
      by (intros y Hy; apply H; right; exact Hy).
    specialize (IH Ht). lra.
Qed.

Lemma arr_mean_bounds a b l :
  l <> [] ->
  (forall x, In x l -> a <= x <= b) ->
  a <= arr_mean l <= b.
Proof.
  intros Hne H. pose proof (@arr_sum_bounds a b l H) as [Hlo Hhi].
  assert (Hn : 0 < INR (List.length l)).
  { apply lt_0_INR. destruct l; [congruence | simpl; lia]. }
  unfold arr_mean. split.
  - apply Rmult_le_reg_r with (INR (List.length l)); [exact Hn|].
    unfold Rdiv. rewrite Rmult_assoc, Rinv_l by lra. lra.
  - apply Rmult_le_reg_r with (INR (List.length l)); [exact Hn|].
    unfold Rdiv. rewrite Rmult_assoc, Rinv_l by lra. lra.
Qed.

Lemma any_below_spec c l :
  any_below c l = true <-> Exists (fun x => x < c) l.
Proof.
  unfold any_below. rewrite existsb_exists, Exists_exists.
  split; intros [x [Hin Hx]]; exists x; (split; [exact Hin|]);
    destruct (Rlt_dec x c); auto; discriminate.
Qed.

Lemma any_above_spec c l :
  any_above c l = true <-> Exists (fun x => c < x) l.
Proof.
  unfold any_above. rewrite existsb_exists, Exists_exists.
  split; intros [x [Hin Hx]]; exists x; (split; [exact Hin|]);
    destruct (Rlt_dec c x); auto; discriminate.
Qed.

Lemma any_below_false l :
  Forall (fun x => 0 <= x <= 1) l -> any_below 0 l = false.
Proof.
  intros H. destruct (any_below 0 l) eqn:E; [|reflexivity].
  apply any_below_spec in E. rewrite Exists_exists in E.
  rewrite Forall_forall in H. destruct E as [x [Hin Hx]].
  specialize (H x Hin). lra.
Qed.

Lemma any_above_false l :
  Forall (fun x => 0 <= x <= 1) l -> any_above 1 l = false.
Proof.
  intros H. destruct (any_above 1 l) eqn:E; [|reflexivity].
  apply any_above_spec in E. rewrite Exists_exists in E.
  rewrite Forall_forall in H. destruct E as [x [Hin Hx]].
  specialize (H x Hin). lra.
Qed.

Lemma nonempty_size (l : list R) :
  l <> [] -> (List.length l =? 0)%nat = false.
Proof. destruct l; [congruence | reflexivity]. Qed.

(** The log-space mean of clipped values stays within the clipping
    bounds. *)
Lemma geometric_mean_prob_clipped l :
  l <> [] ->
  Forall (fun x => 0 <= x <= 1) l ->
  finite_within EPS (1 - EPS) (geometric_mean_prob l).
Proof.
  intros Hne Hall. unfold geometric_mean_prob, finite_within.
  rewrite (nonempty_size Hne), (any_below_false Hall).
  eexists. split; [reflexivity|].
  pose proof EPS_pos as He.
  assert (H1 : 0 < 1 - EPS) by (unfold EPS; lra).
  assert (Hm : ln EPS
               <= arr_mean (map ln (map (np_clip EPS (1 - EPS)) l))
               <= ln (1 - EPS)).
  { apply arr_mean_bounds.
    - destruct l; [congruence | discriminate].
    - intros y Hy. apply in_map_iff in Hy. destruct Hy as [c [<- Hc]].
      apply in_map_iff in Hc. destruct Hc as [x [<- _]].
      pose proof (np_clip_bounds x) as [Hlo Hhi].
      split; apply ln_le_compat; lra. }
  destruct Hm as [Hlo Hhi].
  apply exp_le_compat in Hlo, Hhi.
  rewrite exp_ln in Hlo, Hhi by assumption. lra.
Qed.





(** C10.  On a non-empty list of values in [0, 1] the geometric mean of
    probabilities lies in [EPS, 1 - EPS] with EPS = 1e-5; with an exact 0
    among the inputs the result is still strictly positive, never 0. *)
Theorem geometric_mean_prob_within_eps (l : list R) :
  l <> [] ->
  Forall (fun x => 0 <= x <= 1) l ->
  EPS = 1 / 100000
  /\ finite_within EPS (1 - EPS) (geometric_mean_prob l)
  /\ (In 0 l ->
      exists x, geometric_mean_prob l = Finite x /\ 0 < x
                /\ geometric_mean_prob l <> Finite 0).
Proof.
  intros Hne Hall. split; [reflexivity|].
  pose proof (geometric_mean_prob_clipped Hne Hall) as H.
  split; [exact H|].
  intros _. destruct H as [x [E [Hlo Hhi]]]. pose proof EPS_pos.
  exists x. split; [exact E|]. split; [lra|].
  rewrite E. intros Hz. inversion Hz. lra.
Qed.

Lemma geometric_mean_prob_within_eps_witness :
  finite_within EPS (1 - EPS) (geometric_mean_prob [0; 1 / 2; 1]).
Proof.
  refine (proj1 (proj2 (@geometric_mean_prob_within_eps [0; 1 / 2; 1] _ _))).
  - discriminate.
  - repeat constructor; lra.
Defined.
End MeansFacts.


(** ** Binary64 rounding *)

Section Float64Facts.
Import Float64.
Local Open Scope Q_scope.

Lemma pow2_pos k : 0 < 2 ^ k.
Proof. apply Qpower_0_lt. reflexivity. Qed.

Lemma pow2_add a b : 2 ^ (a + b) == 2 ^ a * 2 ^ b.
Proof. apply Qpower_plus. discriminate. Qed.

Lemma pow2_le a b : (a <= b)%Z -> 2 ^ a <= 2 ^ b.
Proof. intros H. apply Qpower_le_compat_l; [exact H | discriminate]. Qed.

Lemma pow2_lt_inv a b : 2 ^ a < 2 ^ b -> (a < b)%Z.
Proof. intros H. apply (Qpower_lt_compat_l_inv 2); [exact H | reflexivity]. Qed.

Lemma pow2_Z k : (0 <= k)%Z -> inject_Z (2 ^ k) == 2 ^ k.
Proof. intros H. rewrite Zpower_Qpower by exact H. reflexivity. Qed.

Lemma pow2_succ a : 2 ^ (a + 1) == 2 * 2 ^ a.
Proof. rewrite pow2_add. change (2 ^ 1) with 2. ring. Qed.

Lemma pow2_pred a : 2 * 2 ^ (a - 1) == 2 ^ a.
Proof.
  rewrite <- pow2_succ. replace (a - 1 + 1)%Z with a by lia. reflexivity.
Qed.

Lemma ilog2_spec x : 0 < x -> 2 ^ ilog2 x <= x /\ x < 2 ^ (ilog2 x + 1).
Proof.
  intros Hx. destruct x as [a b]. unfold ilog2. cbn [Qnum Qden].
  assert (Ha : (0 < a)%Z) by (unfold Qlt in Hx; simpl in Hx; lia).
  set (la := Z.log2 a). set (lb := Z.log2 (Z.pos b)).
  destruct (Z.log2_spec a Ha) as [Ha1 Ha2]. fold la in Ha1, Ha2.
  destruct (Z.log2_spec (Z.pos b) (Pos2Z.is_pos b)) as [Hb1 Hb2].
  fold lb in Hb1, Hb2.
  assert (Hla : (0 <= la)%Z) by apply Z.log2_nonneg.
  assert (Hlb : (0 <= lb)%Z) by apply Z.log2_nonneg.
  set (x := a # b) in *.
  assert (Hx' : x * inject_Z (Z.pos b) == inject_Z a).
  { unfold x, Qeq. simpl. rewrite Pos.mul_1_r, Z.mul_1_r. reflexivity. }
  assert (HA1 : 2 ^ la <= inject_Z a)
    by (rewrite <- pow2_Z by lia; rewrite <- Zle_Qle; exact Ha1).
  assert (HA2 : inject_Z a < 2 * 2 ^ la).
  { rewrite <- pow2_succ, <- pow2_Z by lia. rewrite <- Zlt_Qlt.
    replace (la + 1)%Z with (Z.succ la) by lia. exact Ha2. }
  assert (HB1 : 2 ^ lb <= inject_Z (Z.pos b))
    by (rewrite <- pow2_Z by lia; rewrite <- Zle_Qle; exact Hb1).
  assert (HB2 : inject_Z (Z.pos b) < 2 * 2 ^ lb).
  { rewrite <- pow2_succ, <- pow2_Z by lia. rewrite <- Zlt_Qlt.
    replace (lb + 1)%Z with (Z.succ lb) by lia. exact Hb2. }
  assert (Hk : 2 ^ (la - lb) * 2 ^ lb == 2 ^ la).
  { rewrite <- pow2_add. replace (la - lb + lb)%Z with la by lia.
    reflexivity. }
  pose proof (pow2_pos la) as Pla. pose proof (pow2_pos lb) as Plb.
  pose proof (pow2_pos (la - lb)) as Pk.
  set (A := inject_Z a) in *. set (B := inject_Z (Z.pos b)) in *.
  set (PA := 2 ^ la) in *. set (PB := 2 ^ lb) in *.
  set (K := 2 ^ (la - lb)) in *.
  assert (Hup : x < 2 * K).
  { apply Qnot_le_lt. intros Hc.
    assert (2 * K * PB <= x * B) by nra. nra. }
  assert (Hlow : K < 2 * x).
  { apply Qnot_le_lt. intros Hc.
    assert (x * B <= x * (2 * PB)) by nra. nra. }
  destruct (Qle_bool K x) eqn:E.
  - apply Qle_bool_iff in E. split; [exact E|].
    rewrite pow2_succ. exact Hup.
  - assert (Hlt : x < K).
    { apply Qnot_le_lt. intros Hc. apply Qle_bool_iff in Hc. congruence. }
    replace (la - lb - 1 + 1)%Z with (la - lb)%Z by lia. split; [|exact Hlt].
    pose proof (pow2_pred (la - lb)) as Hp. fold K in Hp.
    pose proof (pow2_pos (la - lb - 1)). nra.
Qed.

Lemma ilog2_unique x k : 2 ^ k <= x -> x < 2 ^ (k + 1) -> ilog2 x = k.
Proof.
  intros H1 H2.
  assert (Hx : 0 < x) by (pose proof (pow2_pos k); lra).
  destruct (ilog2_spec Hx) as [H3 H4].
  assert (k < ilog2 x + 1)%Z by (apply pow2_lt_inv; lra).
  assert (ilog2 x < k + 1)%Z by (apply pow2_lt_inv; lra).
  lia.
Qed.

Lemma ilog2_comp x y : 0 < x -> x == y -> ilog2 x = ilog2 y.
Proof.
  intros Hx E. symmetry. destruct (ilog2_spec Hx) as [H1 H2].
  apply ilog2_unique; rewrite <- E; assumption.
Qed.

Lemma ilog2_mono x y : 0 < x -> x <= y -> (ilog2 x <= ilog2 y)%Z.
Proof.
  intros Hx Hxy. assert (Hy : 0 < y) by lra.
  destruct (ilog2_spec Hx) as [H1 _]. destruct (ilog2_spec Hy) as [_ H2].
  assert (ilog2 x < ilog2 y + 1)%Z by (apply pow2_lt_inv; lra). lia.
Qed.

Lemma ilog2_lower x k : 2 ^ k <= x -> (k <= ilog2 x)%Z.
Proof.
  intros H. assert (Hx : 0 < x) by (pose proof (pow2_pos k); lra).
  destruct (ilog2_spec Hx) as [_ H2].
  assert (k < ilog2 x + 1)%Z by (apply pow2_lt_inv; lra). lia.
Qed.

Lemma ilog2_upper x k : 0 < x -> x < 2 ^ k -> (ilog2 x < k)%Z.
Proof.
  intros Hx H. destruct (ilog2_spec Hx) as [H1 _].
  apply pow2_lt_inv; lra.
Qed.

(** Rounding to the nearest integer. *)
Lemma Qcompare_cases (a b : Q) :
  (Qcompare a b = Eq /\ a == b) \/ (Qcompare a b = Lt /\ a < b)
  \/ (Qcompare a b = Gt /\ b < a).
Proof.
  destruct (Qcompare a b) eqn:E.
  - left. split; [reflexivity | apply (proj2 (Qeq_alt a b)); exact E].
  - right. left. split; [reflexivity | apply (proj2 (Qlt_alt a b)); exact E].
  - right. right. split; [reflexivity | apply (proj2 (Qgt_alt a b)); exact E].
Qed.

Lemma rne_comp m m' : m == m' -> rne m = rne m'.
Proof.
  intros E. unfold rne. rewrite (Qfloor_comp _ _ E).
  assert (E' : m - inject_Z (Qfloor m') == m' - inject_Z (Qfloor m'))
    by (rewrite E; reflexivity).
  rewrite (Qcompare_comp _ _ E' (1 # 2) (1 # 2) (Qeq_refl _)). reflexivity.
Qed.

Lemma rne_floor m : (Qfloor m <= rne m <= Qfloor m + 1)%Z.
Proof.
  unfold rne. destruct (Qcompare _ _); [destruct (Z.even _)| |]; lia.
Qed.

Lemma floor_frac m : 0 <= m - inject_Z (Qfloor m) < 1.
Proof.
  pose proof (Qfloor_le m). pose proof (Qlt_floor m).
  rewrite inject_Z_plus in H0. change (inject_Z 1) with 1 in H0. lra.
Qed.

Lemma rne_near m : m - (1 # 2) <= inject_Z (rne m) <= m + (1 # 2).
Proof.
  unfold rne. pose proof (floor_frac m) as Hf.
  destruct (Qcompare_cases (m - inject_Z (Qfloor m)) (1 # 2))
    as [[E H]|[[E H]|[E H]]]; rewrite E.
  - destruct (Z.even _);
      rewrite ?inject_Z_plus; change (inject_Z 1) with 1; lra.
  - lra.
  - rewrite inject_Z_plus. change (inject_Z 1) with 1. lra.
Qed.

Lemma rne_Z z : rne (inject_Z z) = z.
Proof.
  unfold rne. rewrite Qfloor_Z.
  destruct (Qcompare_cases (inject_Z z - inject_Z z) (1 # 2))
    as [[E H]|[[E H]|[E H]]]; rewrite E; [lra | reflexivity | lra].
Qed.

Lemma rne_mono m m' : m <= m' -> (rne m <= rne m')%Z.
Proof.
  intros H. pose proof (Qfloor_resp_le _ _ H) as Hfl.
  destruct (Z.eq_dec (Qfloor m) (Qfloor m')) as [E|Hne].
  - unfold rne. rewrite <- E.
    destruct (Qcompare_cases (m - inject_Z (Qfloor m)) (1 # 2))
      as [[E1 H1]|[[E1 H1]|[E1 H1]]];
      destruct (Qcompare_cases (m' - inject_Z (Qfloor m)) (1 # 2))
        as [[E2 H2]|[[E2 H2]|[E2 H2]]];
      rewrite E1, E2; try (destruct (Z.even (Qfloor m))); try lia; lra.
  - pose proof (rne_floor m). pose proof (rne_floor m'). lia.
Qed.

Lemma rne_ge_Z m z : inject_Z z <= m -> (z <= rne m)%Z.
Proof. intros H. rewrite <- (rne_Z z). apply rne_mono. exact H. Qed.

Lemma rne_le_Z m z : m <= inject_Z z -> (rne m <= z)%Z.
Proof. intros H. rewrite <- (rne_Z z). apply rne_mono. exact H. Qed.

(** The exponent of the last place. *)
Lemma fexp_comp x y : 0 < x -> x == y -> fexp x = fexp y.
Proof. intros Hx E. unfold fexp. rewrite (ilog2_comp Hx E). reflexivity. Qed.

Lemma fexp_mono x y : 0 < x -> x <= y -> (fexp x <= fexp y)%Z.
Proof. intros Hx H. unfold fexp. pose proof (ilog2_mono Hx H). lia. Qed.

Lemma scaled_upper x : 0 < x -> x / 2 ^ fexp x < 2 ^ 53.
Proof.
  intros Hx. pose proof (pow2_pos (fexp x)) as Hp.
  apply Qlt_shift_div_r; [exact Hp|].
  destruct (ilog2_spec Hx) as [_ H2].
  rewrite <- pow2_add.
  eapply Qlt_le_trans; [exact H2|]. apply pow2_le. unfold fexp. lia.
Qed.

Lemma scaled_lower x :
  0 < x -> (-1074 < fexp x)%Z -> 2 ^ 52 <= x / 2 ^ fexp x.
Proof.
  intros Hx He. pose proof (pow2_pos (fexp x)) as Hp.
  apply Qle_shift_div_l; [exact Hp|].
  destruct (ilog2_spec Hx) as [H1 _].
  rewrite <- pow2_add.
  eapply Qle_trans; [|exact H1]. apply pow2_le. unfold fexp in *. lia.
Qed.

Lemma round_pos_comp x y : 0 < x -> x == y -> round_pos x == round_pos y.
Proof.
  intros Hx E. unfold round_pos. rewrite (fexp_comp Hx E).
  assert (E' : x / 2 ^ fexp y == y / 2 ^ fexp y) by (rewrite E; reflexivity).
  rewrite (rne_comp E'). reflexivity.
Qed.

Lemma round_pos_nonneg x : 0 < x -> 0 <= round_pos x.
Proof.
  intros Hx. unfold round_pos. pose proof (pow2_pos (fexp x)) as Hp.
  assert (0 <= rne (x / 2 ^ fexp x))%Z.
  { apply (@rne_ge_Z _ 0%Z). change (inject_Z 0) with 0.
    apply Qle_shift_div_l; [exact Hp | lra]. }
  assert (0 <= inject_Z (rne (x / 2 ^ fexp x)))
    by (change 0 with (inject_Z 0); rewrite <- Zle_Qle; assumption).
  nra.
Qed.

Lemma round_pos_mono x y : 0 < x -> x <= y -> round_pos x <= round_pos y.
Proof.
  intros Hx Hxy. assert (Hy : 0 < y) by lra.
  pose proof (fexp_mono Hx Hxy) as He.
  pose proof (pow2_pos (fexp x)) as Hpx. pose proof (pow2_pos (fexp y)) as Hpy.
  unfold round_pos.
  destruct (Z.eq_dec (fexp x) (fexp y)) as [E|Hne].
  - rewrite E.
    assert (Hm : (rne (x / 2 ^ fexp y) <= rne (y / 2 ^ fexp y))%Z).
    { apply rne_mono. apply Qle_shift_div_l; [exact Hpy|].
      assert (x / 2 ^ fexp y * 2 ^ fexp y == x) by (field; lra). lra. }
    rewrite Zle_Qle in Hm. nra.
  - assert (Hlt : (fexp x < fexp y)%Z) by lia.
    assert (Hy52 : (2 ^ 52 <= rne (y / 2 ^ fexp y))%Z).
    { apply rne_ge_Z. rewrite pow2_Z by lia. apply scaled_lower; [exact Hy|].
      unfold fexp in *. lia. }
    assert (Hx53 : (rne (x / 2 ^ fexp x) <= 2 ^ 53)%Z).
    { apply rne_le_Z. rewrite pow2_Z by lia. apply Qlt_le_weak.
      apply scaled_upper. exact Hx. }
    rewrite Zle_Qle in Hy52, Hx53. rewrite pow2_Z in Hy52, Hx53 by lia.
    assert (Hstep : 2 ^ 53 * 2 ^ fexp x <= 2 ^ 52 * 2 ^ fexp y).
    { rewrite <- !pow2_add. apply pow2_le. lia. }
    pose proof (pow2_pos 52). pose proof (pow2_pos 53).
    eapply Qle_trans; [|eapply Qle_trans; [exact Hstep|]].
    + apply Qmult_le_compat_r; [exact Hx53 | lra].
    + apply Qmult_le_compat_r; [exact Hy52 | lra].
Qed.

Lemma round_pos_int z :
  (0 < z < 2 ^ 53)%Z -> round_pos (inject_Z z) == inject_Z z.
Proof.
  intros [Hz1 Hz2].
  assert (Hx : 0 < inject_Z z)
    by (change 0 with (inject_Z 0); rewrite <- Zlt_Qlt; exact Hz1).
  assert (Hil : (0 <= ilog2 (inject_Z z) < 53)%Z).
  { split.
    - apply ilog2_lower. change (2 ^ 0) with (inject_Z 1).
      rewrite <- Zle_Qle. lia.
    - apply ilog2_upper; [exact Hx|]. rewrite <- pow2_Z by lia.
      rewrite <- Zlt_Qlt. exact Hz2. }
  unfold round_pos.
  set (e := fexp (inject_Z z)).
  assert (He : (-52 <= e <= 0)%Z) by (unfold e, fexp; lia).
  pose proof (pow2_pos e) as Hp.
  assert (Hm : inject_Z z / 2 ^ e == inject_Z (z * 2 ^ (- e))).
  { rewrite inject_Z_mult, pow2_Z by lia. rewrite Qpower_opp. field. lra. }
  rewrite (rne_comp Hm), rne_Z, inject_Z_mult, pow2_Z by lia.
  rewrite Qpower_opp. field. lra.
Qed.

(** Above 1 the relative error of rounding is at most [2^-53]. *)
Lemma round_pos_rel x : 1 <= x -> x - x * 2 ^ (-53) <= round_pos x.
Proof.
  intros Hx1. assert (Hx : 0 < x) by lra.
  assert (Hil : (0 <= ilog2 x)%Z) by (apply ilog2_lower; exact Hx1).
  assert (He : fexp x = (ilog2 x - 52)%Z) by (unfold fexp; lia).
  pose proof (pow2_pos (fexp x)) as Hp.
  destruct (ilog2_spec Hx) as [H1 _].
  destruct (rne_near (x / 2 ^ fexp x)) as [Hn _].
  unfold round_pos.
  assert (Hhalf : (1 # 2) * 2 ^ fexp x <= x * 2 ^ (-53)).
  { assert (E : (1 # 2) * 2 ^ fexp x == 2 ^ ilog2 x * 2 ^ (-53)).
    { rewrite He, <- pow2_add. replace (ilog2 x + -53)%Z with (ilog2 x - 52 - 1)%Z
        by lia.
      pose proof (pow2_pred (ilog2 x - 52)). lra. }
    rewrite E. pose proof (pow2_pos (-53)). nra. }
  assert (Hs : x / 2 ^ fexp x * 2 ^ fexp x == x) by (field; lra).
  nra.
Qed.

(** A fixed point of the rounding above 1 is a multiple of [2^-52]. *)
Lemma round_pos_grid x :
  1 <= x -> round_pos x == x -> exists j : Z, x * 2 ^ 52 == inject_Z j.
Proof.
  intros Hx1 E. assert (Hx : 0 < x) by lra.
  assert (Hil : (0 <= ilog2 x)%Z) by (apply ilog2_lower; exact Hx1).
  assert (He : (0 <= fexp x + 52)%Z) by (unfold fexp; lia).
  exists (rne (x / 2 ^ fexp x) * 2 ^ (fexp x + 52))%Z.
  rewrite <- E at 1. unfold round_pos.
  rewrite inject_Z_mult, pow2_Z, pow2_add by lia. ring.
Qed.

(** Rounding to binary64. *)
Lemma round_binary64_pos x : 0 < x -> round_binary64 x = round_pos x.
Proof.
  intros H. unfold round_binary64.
  rewrite (proj1 (Qgt_alt x 0) H). reflexivity.
Qed.

Lemma round_binary64_neg x : x < 0 -> round_binary64 x = - round_pos (- x).
Proof.
  intros H. unfold round_binary64.
  rewrite (proj1 (Qlt_alt x 0) H). reflexivity.
Qed.

Lemma round_binary64_zero x : x == 0 -> round_binary64 x = 0.
Proof.
  intros H. unfold round_binary64.
  rewrite (proj1 (Qeq_alt x 0) H). reflexivity.
Qed.

Lemma round_binary64_cases x :
  (x < 0 /\ round_binary64 x = - round_pos (- x))
  \/ (x == 0 /\ round_binary64 x = 0)
  \/ (0 < x /\ round_binary64 x = round_pos x).
Proof.
  destruct (Q_dec x 0) as [[H|H]|H].
  - left. split; [exact H | apply round_binary64_neg; exact H].
  - right. right. split; [exact H | apply round_binary64_pos; exact H].
  - right. left. split; [exact H | apply round_binary64_zero; exact H].
Qed.

Lemma round_binary64_comp x y : x == y -> round_binary64 x == round_binary64 y.
Proof.
  intros E.
  destruct (round_binary64_cases x) as [[Hx Ex]|[[Hx Ex]|[Hx Ex]]];
    destruct (round_binary64_cases y) as [[Hy Ey]|[[Hy Ey]|[Hy Ey]]];
    rewrite Ex, Ey; try (exfalso; lra).
  - apply Qopp_comp. apply round_pos_comp; [lra | rewrite E; reflexivity].
  - reflexivity.
  - apply round_pos_comp; assumption.
Qed.

Lemma round_binary64_sign x :
  (0 <= x -> 0 <= round_binary64 x) /\ (x <= 0 -> round_binary64 x <= 0).
Proof.
  destruct (round_binary64_cases x) as [[Hx Ex]|[[Hx Ex]|[Hx Ex]]];
    rewrite Ex; split; intros H; try lra.
  - assert (0 < - x) by lra. pose proof (round_pos_nonneg H0). lra.
  - apply round_pos_nonneg. exact Hx.
Qed.

Lemma round_binary64_mono x y :
  x <= y -> round_binary64 x <= round_binary64 y.
Proof.
  intros H.
  destruct (Qlt_le_dec 0 x) as [Hx|Hx].
  - rewrite !round_binary64_pos by lra. apply round_pos_mono; assumption.
  - destruct (Qlt_le_dec y 0) as [Hy|Hy].
    + rewrite !round_binary64_neg by lra.
      assert (round_pos (- y) <= round_pos (- x))
        by (apply round_pos_mono; lra). lra.
    + apply Qle_trans with 0; apply round_binary64_sign; assumption.
Qed.

Lemma round_binary64_int z :
  (0 <= z < 2 ^ 53)%Z -> round_binary64 (inject_Z z) == inject_Z z.
Proof.
  intros [H1 H2]. destruct (Z.eq_dec z 0) as [->|Hne]; [reflexivity|].
  assert (0 < inject_Z z)
    by (change 0 with (inject_Z 0); rewrite <- Zlt_Qlt; lia).
  rewrite round_binary64_pos by assumption. apply round_pos_int. lia.
Qed.

(** The product with an integer below [2^53] stays on the right side of it. *)
Lemma float_mul_int_le f n :
  (0 <= n < 2 ^ 53)%Z -> f <= 1 ->
  float_mul f (float_of_int n) <= inject_Z n.
Proof.
  intros Hn Hf. unfold float_mul, float_of_int.
  pose proof (round_binary64_int Hn) as En.
  rewrite <- En at 2. apply round_binary64_mono.
  assert (0 <= inject_Z n)
    by (change 0 with (inject_Z 0); rewrite <- Zle_Qle; lia).
  rewrite En. nra.
Qed.

Lemma float_mul_int_gt f n :
  (1 <= n < 2 ^ 53)%Z -> binary64 f -> 1 < f ->
  inject_Z n < float_mul f (float_of_int n).
Proof.
  intros Hn Hb Hf. unfold float_mul, float_of_int.
  assert (En : round_binary64 (inject_Z n) == inject_Z n)
    by (apply round_binary64_int; lia).
  assert (Hn1 : 1 <= inject_Z n)
    by (change 1 with (inject_Z 1); rewrite <- Zle_Qle; lia).
  unfold binary64 in Hb. rewrite round_binary64_pos in Hb by lra.
  destruct (@round_pos_grid f) as [j Hj]; [lra | exact Hb |].
  assert (P52 : 2 ^ 52 == inject_Z (2 ^ 52)) by reflexivity.
  assert (Hj1 : (2 ^ 52 + 1 <= j)%Z).
  { assert (Hlt : inject_Z (2 ^ 52) < inject_Z j).
    { rewrite <- Hj, <- P52. pose proof (pow2_pos 52). nra. }
    rewrite <- Zlt_Qlt in Hlt. lia. }
  assert (Hf' : 1 + 2 ^ (-52) <= f).
  { rewrite Zle_Qle, inject_Z_plus, <- P52, <- Hj in Hj1.
    change (inject_Z 1) with 1 in Hj1.
    assert (E : 2 ^ (-52) * 2 ^ 52 == 1) by reflexivity.
    pose proof (pow2_pos 52). pose proof (pow2_pos (-52)). nra. }
  set (x := f * round_binary64 (inject_Z n)).
  assert (Hx : inject_Z n * (1 + 2 ^ (-52)) <= x)
    by (unfold x; rewrite En; nra).
  assert (Hx1 : 1 <= x) by (pose proof (pow2_pos (-52)); nra).
  rewrite round_binary64_pos by lra.
  pose proof (round_pos_rel Hx1) as Hr.
  assert (E53 : 2 * 2 ^ (-53) == 2 ^ (-52)) by reflexivity.
  pose proof (pow2_pos (-53)) as P53.
  assert (H53 : 2 ^ (-53) < 1) by reflexivity.
  eapply Qlt_le_trans; [|exact Hr].
  assert (Hxx : inject_Z n * (1 + 2 ^ (-52)) * (1 - 2 ^ (-53))
                <= x * (1 - 2 ^ (-53))) by nra.
  assert (Hgain : inject_Z n
                  < inject_Z n * (1 + 2 ^ (-52)) * (1 - 2 ^ (-53))).
  { assert (0 < (1 + 2 ^ (-52)) * (1 - 2 ^ (-53)) - 1) by reflexivity. nra. }
  lra.
Qed.

(** On the sample, the product agrees with the standard library's
    specification of the binary64 product. *)
Example float_mul_agrees_with_SFmul :
  forallb (fun ab =>
             Qeq_bool (value_of (SpecFloat.SFmul 53 1024 (fst ab) (snd ab)))
                      (float_mul (value_of (fst ab)) (value_of (snd ab))))
          sample_products = true.
Proof. vm_compute. reflexivity. Qed.

(** The floats written [0.1], [0.55] and [0.4], and their products. *)
Example float_literals :
  py_float (1 # 10) == 3602879701896397 # 36028797018963968
  /\ py_float (55 # 100) == 2476979795053773 # 4503599627370496
  /\ py_float (4 # 10) == 3602879701896397 # 9007199254740992
  /\ float_mul (py_float (1 # 10)) (float_of_int 10) == 1
  /\ float_mul (py_float (55 # 100)) (float_of_int 100)
     == 7740561859543041 # 140737488355328
  /\ float_mul (py_float (4 # 10)) (float_of_int 10) == 4.
Proof. vm_compute. repeat split; reflexivity. Qed.

End Float64Facts.

(** ** The controller *)

Section PipelineFacts.
Import CarryForward Pipeline.
Local Open Scope Z_scope.

Lemma insert_by_day_days p l :
  map snd (insert_by_day p l) = insert_sorted (snd p) (map snd l).
Proof.
  induction l as [|y t IH]; simpl; [reflexivity|].
  destruct (snd p <=? snd y); simpl; [reflexivity|].
  rewrite IH. reflexivity.
Qed.

Lemma q_ck_days fd : map snd (q_ck fd) = sorted (map snd (resolved_pairs fd)).
Proof.
  unfold q_ck, sorted. induction (resolved_pairs fd) as [|p t IH]; simpl;
    [reflexivity|].
  rewrite insert_by_day_days, IH. reflexivity.
Qed.

(** Two ascending lists with the same elements are the same list. *)
Lemma sorted_perm_eq (l1 : list Z) : forall l2,
  StronglySorted Z.le l1 -> StronglySorted Z.le l2 ->
  Permutation l1 l2 -> l1 = l2.
Proof.
  induction l1 as [|x t IH]; intros l2 H1 H2 HP.
  - apply Permutation_nil in HP. subst; reflexivity.
  - destruct l2 as [|y t2];
      [apply Permutation_sym, Permutation_nil in HP; discriminate|].
    inversion H1 as [|? ? Ht Hx]; subst.
    inversion H2 as [|? ? Ht2 Hy]; subst.
    rewrite Forall_forall in Hx, Hy.
    assert (x = y).
    { assert (Hxin : In x (y :: t2))
        by (apply (Permutation_in _ HP); left; reflexivity).
      assert (Hyin : In y (x :: t))
        by (apply (Permutation_in _ (Permutation_sym HP)); left; reflexivity).
      destruct Hxin as [E|Hxin]; [auto|].
      destruct Hyin as [E|Hyin]; [auto|].
      specialize (Hx y Hyin). specialize (Hy x Hxin). lia. }
    subst y. f_equal. apply IH; auto.
    apply Permutation_cons_inv with (a := x). exact HP.
Qed.

Lemma sorted_of_perm l ds :
  Permutation l ds -> StronglySorted Z.le ds -> sorted l = ds.
Proof.
  intros HP Hs. apply sorted_perm_eq; [apply sorted_le | exact Hs|].
  apply Permutation_trans with l; [apply Permutation_sym, sorted_perm | exact HP].
Qed.

Lemma freeze_index_range (f : Q) (n : nat) :
  (1 <= n)%nat -> Z.of_nat n < 2 ^ 53 -> (f <= 1)%Q ->
  0 <= freeze_index f n < Z.of_nat n.
Proof.
  intros Hn Hb Hf. unfold freeze_index.
  assert (Hp : (Float64.float_mul f (Float64.float_of_int (Z.of_nat n))
                <= inject_Z (Z.of_nat n))%Q)
    by (apply float_mul_int_le; [lia | exact Hf]).
  apply Qceiling_resp_le in Hp. rewrite Qceiling_Z in Hp. lia.
Qed.

(** How far the float product can move the position: for a fraction up to
    1 the ceiling of the float product is the exact ceiling, or one less
    when the product is rounded down onto the integer below. *)
Lemma float_product_bracket (f : Q) (N : Z) :
  0 <= N < 2 ^ 53 -> (f <= 1)%Q ->
  Z.max 0 (Qceiling (Float64.float_mul f (Float64.float_of_int N)) - 1)
  = Z.max 0 (Qceiling (f * inject_Z N) - 1)
  \/ ((Float64.float_mul f (Float64.float_of_int N)
       == inject_Z (Qceiling (f * inject_Z N) - 1))%Q
      /\ Z.max 0 (Qceiling (Float64.float_mul f (Float64.float_of_int N)) - 1)
         = Z.max 0 (Qceiling (f * inject_Z N) - 2)).
Proof.
  intros HN Hf.
  set (x := (f * inject_Z N)%Q). set (k := Qceiling x).
  set (p := Float64.float_mul f (Float64.float_of_int N)).
  assert (En : (Float64.round_binary64 (inject_Z N) == inject_Z N)%Q)
    by (apply round_binary64_int; exact HN).
  assert (Ep : (p == Float64.round_binary64 x)%Q).
  { unfold p, Float64.float_mul, Float64.float_of_int, x.
    apply round_binary64_comp. rewrite En. reflexivity. }
  assert (HNq : (0 <= inject_Z N)%Q)
    by (change 0%Q with (inject_Z 0); rewrite <- Zle_Qle; lia).
  destruct (Qlt_le_dec 0 x) as [Hx|Hx].
  - assert (Hk1 : (inject_Z (k - 1) < x)%Q) by apply Qceiling_lt.
    assert (Hk2 : (x <= inject_Z k)%Q) by apply Qle_ceiling.
    assert (HkN : k <= N).
    { unfold k. rewrite <- (Qceiling_Z N). apply Qceiling_resp_le.
      unfold x. nra. }
    assert (Hk0 : 1 <= k).
    { assert (H : (inject_Z 0 < inject_Z k)%Q)
        by (change (inject_Z 0) with 0%Q; lra).
      rewrite <- Zlt_Qlt in H. lia. }
    assert (Elo : (Float64.round_binary64 (inject_Z (k - 1))
                   == inject_Z (k - 1))%Q)
      by (apply round_binary64_int; lia).
    assert (Ehi : (Float64.round_binary64 (inject_Z k) == inject_Z k)%Q)
      by (apply round_binary64_int; lia).
    assert (Hlo : (inject_Z (k - 1) <= p)%Q).
    { rewrite Ep, <- Elo. apply round_binary64_mono. lra. }
    assert (Hhi : (p <= inject_Z k)%Q).
    { rewrite Ep, <- Ehi. apply round_binary64_mono. exact Hk2. }
    assert (Hc : Qceiling p <= k).
    { rewrite <- (Qceiling_Z k). apply Qceiling_resp_le. exact Hhi. }
    destruct (Qlt_le_dec (inject_Z (k - 1)) p) as [Hgt|Hle].
    + left. assert (k - 1 < Qceiling p).
      { rewrite Zlt_Qlt. eapply Qlt_le_trans; [exact Hgt|].
        apply Qle_ceiling. }
      lia.
    + right. assert (E : (p == inject_Z (k - 1))%Q) by lra.
      split; [exact E|].
      rewrite (Qceiling_comp _ _ E), Qceiling_Z. lia.
  - left.
    assert (Hp : (p <= 0)%Q).
    { rewrite Ep. apply round_binary64_sign. exact Hx. }
    assert (Hcp : Qceiling p <= Qceiling (inject_Z 0))
      by (apply Qceiling_resp_le; exact Hp).
    assert (Hck : k <= Qceiling (inject_Z 0))
      by (apply Qceiling_resp_le; exact Hx).
    rewrite Qceiling_Z in Hcp, Hck. lia.
Qed.

(** C5, as amended.  With the correctness-known days of the [N >= 1]
    distinct resolved (question, day) pairs listed in ascending order as
    [ds], the freeze day is the entry of [ds] at 0-indexed position
    [max(0, ceil(p) - 1)], where [p] is the float product of [f] and [N]
    (an [IndexError] when the position is past the end).  For a fraction
    [f <= 1] and [N < 2^53] the position is in range, and it is
    [max(0, ceil(f N) - 1)] for the exact product, or the position just
    before that one when the float product is rounded down onto an
    integer; the two agree whenever the float product is exact.  With ten
    days [d1 .. d10] and the float [0.4] the freeze day is [d4]. *)
Theorem freeze_day_is_at_ceil_position (f : Q) fd ds :
  Permutation (map snd (resolved_pairs fd)) ds ->
  StronglySorted Z.le ds ->
  (1 <= List.length ds)%nat ->
  let N := Z.of_nat (List.length ds) in
  let p := Float64.float_mul f (Float64.float_of_int N) in
  select_freeze_day f fd
  = match nth_error ds (Z.to_nat (Z.max 0 (Qceiling p - 1))) with
    | Some d => Ok d
    | None => Raise IndexError
    end
  /\ ((f <= 1)%Q -> N < 2 ^ 53 ->
      (exists d, nth_error ds (Z.to_nat (Z.max 0 (Qceiling p - 1))) = Some d
                 /\ select_freeze_day f fd = Ok d)
      /\ (Z.max 0 (Qceiling p - 1) = Z.max 0 (Qceiling (f * inject_Z N) - 1)
          \/ ((p == inject_Z (Qceiling (f * inject_Z N) - 1))%Q
              /\ Z.max 0 (Qceiling p - 1)
                 = Z.max 0 (Qceiling (f * inject_Z N) - 2))))
  /\ ((p == f * inject_Z N)%Q ->
      Z.max 0 (Qceiling p - 1) = Z.max 0 (Qceiling (f * inject_Z N) - 1))
  /\ (forall d1 d2 d3 d4 d5 d6 d7 d8 d9 d10,
        ds = [d1; d2; d3; d4; d5; d6; d7; d8; d9; d10] ->
        select_freeze_day (Float64.py_float (4 # 10)) fd = Ok d4).
Proof.
  intros HP Hs HN N p.
  assert (Hdays : map snd (q_ck fd) = ds)
    by (rewrite q_ck_days; apply sorted_of_perm; assumption).
  assert (Hlen : List.length (q_ck fd) = List.length ds)
    by (rewrite <- Hdays, length_map; reflexivity).
  assert (Hsel : forall g, select_freeze_day g fd
                 = match nth_error ds
                           (Z.to_nat (freeze_index g (List.length ds))) with
                   | Some d => Ok d
                   | None => Raise IndexError
                   end).
  { intros g. unfold select_freeze_day. rewrite Hlen, Hdays.
    replace (List.length ds =? 0)%nat with false
      by (symmetry; apply Nat.eqb_neq; lia).
    reflexivity. }
  split; [apply Hsel|]. split; [|split].
  - intros Hf Hb. split.
    + pose proof (@freeze_index_range f _ HN Hb Hf) as Hr.
      change (freeze_index f (List.length ds))
        with (Z.max 0 (Qceiling p - 1)) in Hr.
      destruct (nth_error ds (Z.to_nat (Z.max 0 (Qceiling p - 1))))
        as [d|] eqn:E.
      * exists d. split; [reflexivity|]. rewrite Hsel.
        change (freeze_index f (List.length ds))
          with (Z.max 0 (Qceiling p - 1)).
        rewrite E. reflexivity.
      * apply nth_error_None in E. lia.
    + apply float_product_bracket; [unfold N; lia | exact Hf].
  - intros E. rewrite (Qceiling_comp _ _ E). reflexivity.
  - intros d1 d2 d3 d4 d5 d6 d7 d8 d9 d10 E. rewrite Hsel, E.
    simpl List.length.
    assert (E3 : freeze_index (Float64.py_float (4 # 10)) 10 = 3)
      by (vm_compute; reflexivity).
    rewrite E3. reflexivity.
Qed.

Lemma freeze_day_is_at_ceil_position_witness :
  select_freeze_day (Float64.py_float (4 # 10)) (resolved_questions 10)
  = Ok 4.
Proof.
  destruct (@freeze_day_is_at_ceil_position
              (Float64.py_float (4 # 10)) (resolved_questions 10)
              [1; 2; 3; 4; 5; 6; 7; 8; 9; 10])
    as [_ [_ [_ H]]].
  - vm_compute. apply Permutation_refl.
  - repeat constructor; lia.
  - simpl; lia.
  - apply (H 1 2 3 4 5 6 7 8 9 10). reflexivity.
Defined.

(** C5, as stated, fails on the code.  With 100 questions resolved on days
    1 .. 100 and the fraction written [0.55], the code selects day 56,
    where position [max(0, ceil(0.55 * 100) - 1) = 54] holds day 55: the
    float nearest to 0.55 times 100 is a float above 55.  Nor is the
    position the one computed from the exact value of the float passed:
    with ten questions and the float [0.4] the code selects day 4, where
    the exact product of that float and 10 lies above 4 and points to
    day 5. *)
Lemma freeze_day_off_exact_ceil_position :
  select_freeze_day (Float64.py_float (55 # 100)) (resolved_questions 100)
  = Ok 56
  /\ nth_error (map snd (q_ck (resolved_questions 100)))
               (Z.to_nat (Z.max 0 (Qceiling ((55 # 100) * inject_Z 100) - 1)))
     = Some 55
  /\ select_freeze_day (Float64.py_float (4 # 10)) (resolved_questions 10)
     = Ok 4
  /\ nth_error (map snd (q_ck (resolved_questions 10)))
               (Z.to_nat
                  (Z.max 0 (Qceiling (Float64.py_float (4 # 10) * inject_Z 10)
                            - 1)))
     = Some 5.
Proof. vm_compute. repeat split; reflexivity. Qed.

Lemma filter_filter_implied (A : Type) (P Q' : A -> bool) (l : list A) :
  (forall x, P x = true -> Q' x = true) ->
  filter P (filter Q' l) = filter P l.
Proof.
  intros H. induction l as [|x t IH]; simpl; [reflexivity|].
  destruct (Q' x) eqn:E; simpl.
  - rewrite IH. reflexivity.
  - destruct (P x) eqn:E'; [|exact IH].
    apply H in E'. congruence.
Qed.

(** C6.  With a non-empty excluded set, a full-period snapshot row is
    removed iff it is dated after the freeze day and belongs to an excluded
    forecaster; the rows dated on or before the freeze day and the rows of
    every forecaster outside the set reach the aggregator as they were, in
    the same order. *)
Theorem trim_drops_only_post_freeze_excluded freeze excl snaps :
  excl <> [] ->
  let kept := trim_snapshots freeze excl snaps in
  (forall s, In s snaps ->
             (~ In s kept <-> (freeze < s_day s /\ In (s_guid s) excl)))
  /\ (forall s, In s kept -> In s snaps)
  /\ filter (fun s => s_day s <=? freeze) kept
     = filter (fun s => s_day s <=? freeze) snaps
  /\ (forall g, ~ In g excl ->
                filter (fun s => String.eqb (s_guid s) g) kept
                = filter (fun s => String.eqb (s_guid s) g) snaps).
Proof.
  intros Hne kept.
  assert (Hk : kept
               = filter (fun s => negb ((s_day s >? freeze)
                                        && existsb (String.eqb (s_guid s)) excl))
                        snaps)
    by (unfold kept, trim_snapshots; destruct excl; [congruence | reflexivity]).
  assert (Hmask : forall s,
             (s_day s >? freeze) && existsb (String.eqb (s_guid s)) excl = true
             <-> freeze < s_day s /\ In (s_guid s) excl).
  { intros s. rewrite andb_true_iff, Z.gtb_lt, existsb_exists. split.
    - intros [H1 [g [Hg E]]]. apply String.eqb_eq in E. subst g. auto.
    - intros [H1 H2]. split; [exact H1|]. exists (s_guid s).
      split; [exact H2 | apply String.eqb_refl]. }
  split; [|split; [|split]].
  - intros s Hs. rewrite Hk, filter_In, negb_true_iff, <- Hmask.
    destruct ((s_day s >? freeze) && existsb (String.eqb (s_guid s)) excl);
      intuition congruence.
  - intros s Hs. rewrite Hk in Hs. apply filter_In in Hs. tauto.
  - rewrite Hk. apply filter_filter_implied. intros s Hs.
    apply Z.leb_le in Hs. apply negb_true_iff.
    destruct ((s_day s >? freeze) && _) eqn:E; [|reflexivity].
    apply Hmask in E. lia.
  - intros g Hg. rewrite Hk. apply filter_filter_implied. intros s Hs.
    apply String.eqb_eq in Hs. apply negb_true_iff.
    destruct ((s_day s >? freeze) && _) eqn:E; [|reflexivity].
    apply Hmask in E. subst g. tauto.
Qed.

Lemma trim_drops_only_post_freeze_excluded_witness :
  trim_snapshots 7 ["X"%string]
    (carry_forward_snapshots example_table None true false true)
  = filter (fun s => negb ((s_day s =? 8) && String.eqb (s_guid s) "X"))
      (carry_forward_snapshots example_table None true false true)
  /\ filter (fun s => s_day s <=? 7)
       (trim_snapshots 7 ["X"%string]
          (carry_forward_snapshots example_table None true false true))
     = filter (fun s => s_day s <=? 7)
         (carry_forward_snapshots example_table None true false true).
Proof.
  split; [vm_compute; reflexivity|].
  refine (proj1 (proj2 (proj2
            (@trim_drops_only_post_freeze_excluded 7 ["X"%string]
               (carry_forward_snapshots example_table None true false true)
               _)))).
  discriminate.
Defined.
End PipelineFacts.


(** ** The renormalising aggregator *)

Section AggregationFacts.
Import CarryForward Aggregation.

Lemma get_set_same c v r : get_col c (set_col c v r) = v.
Proof. destruct c; reflexivity. Qed.

Lemma get_set_other c c' v r :
  c <> c' -> get_col c' (set_col c v r) = get_col c' r.
Proof. destruct c, c'; intros H; try reflexivity; congruence. Qed.

Lemma set_col_keys c v : keeps_keys (set_col c v).
Proof. intros r. destruct c; split; reflexivity. Qed.

Lemma group_of_map F agg q d :
  keeps_keys F -> group_of (map F agg) q d = map F (group_of agg q d).
Proof.
  intros HF. unfold group_of. induction agg as [|r t IH]; simpl; [reflexivity|].
  destruct (HF r) as [-> ->].
  destruct ((a_qid r =? q)%Z && (a_day r =? d)%Z); simpl; rewrite IH;
    reflexivity.
Qed.

Lemma group_total_map F col agg r :
  keeps_keys F ->
  (forall x, get_col col (F x) = get_col col x) ->
  group_total col (map F agg) (F r) = group_total col agg r.
Proof.
  intros HF Hc. unfold group_total. destruct (HF r) as [-> ->].
  rewrite group_of_map by exact HF. rewrite map_map.
  f_equal. apply map_ext. exact Hc.
Qed.

Lemma multi_bucket_row_keys F agg r :
  keeps_keys F -> multi_bucket_row agg (F r) = multi_bucket_row agg r.
Proof.
  intros HF. unfold multi_bucket_row. destruct (HF r) as [-> ->]. reflexivity.
Qed.

(** The masked division, written row by row. *)
Lemma divide_where_rows col (mbf : agg_row -> bool) (tf : agg_row -> Q) l :
  divide_where col l
    (and_masks (map mbf l) (map (fun t => negb (Qle_bool t 0)) (map tf l)))
    (map tf l)
  = map (fun r => if mbf r && negb (Qle_bool (tf r) 0)
                  then set_col col (cell_div (get_col col r) (tf r)) r
                  else r) l.
Proof.
  induction l as [|r t IH]; simpl; [reflexivity|].
  rewrite IH. reflexivity.
Qed.

Lemma renormalize_col_rows a0 F col :
  keeps_keys F ->
  renormalize_col (map (fun n => (1 <? n)%nat) (transform_size a0))
                  (map F a0) col
  = map (fun r => if multi_bucket_row a0 r
                     && negb (Qle_bool (group_total col (map F a0) r) 0)
                  then set_col col
                         (cell_div (get_col col r)
                                   (group_total col (map F a0) r)) r
                  else r)
        (map F a0).
Proof.
  intros HF. unfold renormalize_col, transform_sum, transform_size.
  rewrite map_map.
  replace (map (fun r => (1 <? List.length (group_of a0 (a_qid r) (a_day r)))%nat)
               a0)
    with (map (multi_bucket_row a0) (map F a0)).
  - apply divide_where_rows.
  - rewrite map_map. apply map_ext. intros r.
    apply multi_bucket_row_keys. exact HF.
Qed.

(** Renormalising a list of distinct columns acts on each row on its own:
    a listed column takes its renormalised value, the other columns and the
    keys stay. *)
Lemma renormalize_fold a0 cols :
  NoDup cols ->
  forall F,
    keeps_keys F ->
    (forall c, In c cols -> forall r, get_col c (F r) = get_col c r) ->
    exists F',
      fold_left
        (renormalize_col (map (fun n => (1 <? n)%nat) (transform_size a0)))
        cols (map F a0)
      = map F' a0
      /\ keeps_keys F'
      /\ (forall c, In c cols ->
                    forall r, get_col c (F' r) = renormalized_cell a0 c r)
      /\ (forall c, ~ In c cols ->
                    forall r, get_col c (F' r) = get_col c (F r)).
Proof.
  induction 1 as [|c cols Hc Hnd IH]; intros F HF Hcols.
  - exists F. simpl. repeat split; try apply HF; tauto.
  - simpl. rewrite renormalize_col_rows by exact HF. rewrite map_map.
    set (F1 := fun r =>
           if multi_bucket_row a0 (F r)
              && negb (Qle_bool (group_total c (map F a0) (F r)) 0)
           then set_col c (cell_div (get_col c (F r))
                                    (group_total c (map F a0) (F r))) (F r)
           else F r).
    assert (HF1 : keeps_keys F1).
    { intros r. unfold F1.
      destruct (multi_bucket_row a0 (F r) && _); [|apply HF].
      destruct (set_col_keys c (cell_div (get_col c (F r))
                  (group_total c (map F a0) (F r))) (F r)) as [-> ->].
      apply HF. }
    assert (Hother : forall c', c <> c' ->
                       forall r, get_col c' (F1 r) = get_col c' (F r)).
    { intros c' Hne r. unfold F1.
      destruct (multi_bucket_row a0 (F r) && _); [|reflexivity].
      apply get_set_other. exact Hne. }
    assert (Hsame : forall r, get_col c (F1 r) = renormalized_cell a0 c r).
    { intros r. unfold F1, renormalized_cell.
      rewrite (multi_bucket_row_keys a0 r HF).
      rewrite (group_total_map c a0 r HF)
        by (apply Hcols; left; reflexivity).
      rewrite (Hcols c (or_introl eq_refl)).
      destruct (multi_bucket_row a0 r && _);
        [apply get_set_same | apply Hcols; left; reflexivity]. }
    destruct (IH F1 HF1) as [F' [E [HF' [Hin Hout]]]].
    { intros c' Hc' r. rewrite Hother by (intros ->; contradiction).
      apply Hcols. right; exact Hc'. }
    exists F'. split; [exact E|]. split; [exact HF'|]. split.
    + intros c' [<-|Hc'] r; [|apply Hin; exact Hc'].
      rewrite Hout by exact Hc. apply Hsame.
    + intros c' Hc' r. rewrite Hout by tauto.
      apply Hother. tauto.
Qed.

Lemma PROB_COLS_all c : In c PROB_COLS.
Proof. destruct c; simpl; tauto. Qed.

Lemma PROB_COLS_NoDup : NoDup PROB_COLS.
Proof.
  unfold PROB_COLS.
  repeat (constructor; [simpl; intuition discriminate|]). constructor.
Qed.

Lemma renormalize_rows a0 :
  exists F, renormalize a0 = map F a0
            /\ keeps_keys F
            /\ forall c r, get_col c (F r) = renormalized_cell a0 c r.
Proof.
  unfold renormalize.
  destruct (@renormalize_fold a0 PROB_COLS PROB_COLS_NoDup (fun r => r))
    as [F [E [HF [Hin _]]]].
  - intros r; split; reflexivity.
  - reflexivity.
  - rewrite map_id in E. exists F. split; [exact E|]. split; [exact HF|].
    intros c r. apply Hin. apply PROB_COLS_all.
Qed.

Lemma downcast_row_col c r : get_col c (downcast_row r) = get_col c r.
Proof.
  destruct c; simpl;
    match goal with |- option_map _ ?x = _ => destruct x end; reflexivity.
Qed.

Lemma downcast_row_keys : keeps_keys downcast_row.
Proof. intros r; split; reflexivity. Qed.

Lemma nansum_div l t :
  nansum (map (fun c => cell_div c t) l) == nansum l / t.
Proof.
  induction l as [|[x|] l IH]; simpl.
  - unfold Qdiv. ring.
  - rewrite IH. unfold Qdiv. ring.
  - exact IH.
Qed.

Lemma aggregate_unfolded (m md tm gp go : list Q -> cell) snaps :
  aggregate_across_forecasters m md tm gp go snaps
  = map downcast_row (renormalize (pooled_aggregates m md tm gp go snaps)).
Proof. destruct snaps; reflexivity. Qed.

(** The column of a group after aggregation, from the pooled group. *)
Lemma aggregate_group_col (m md tm gp go : list Q -> cell) snaps q d col :
  let raw := group_of (pooled_aggregates m md tm gp go snaps) q d in
  let total := nansum (map (get_col col) raw) in
  map (get_col col)
      (group_of (aggregate_across_forecasters m md tm gp go snaps) q d)
  = map (fun r => if (1 <? List.length raw)%nat && negb (Qle_bool total 0)
                  then cell_div (get_col col r) total
                  else get_col col r) raw.
Proof.
  intros raw total. rewrite aggregate_unfolded.
  set (agg0 := pooled_aggregates m md tm gp go snaps) in *.
  destruct (renormalize_rows agg0) as [F [E [HF Hcell]]]. rewrite E.
  rewrite (group_of_map _ _ _ downcast_row_keys), (group_of_map _ _ _ HF).
  fold raw. rewrite !map_map. apply map_ext_in. intros r Hr.
  rewrite downcast_row_col, Hcell.
  unfold raw, group_of in Hr. apply filter_In in Hr. destruct Hr as [_ Hk].
  apply andb_true_iff in Hk. destruct Hk as [Hq Hd].
  apply Z.eqb_eq in Hq, Hd.
  unfold renormalized_cell, multi_bucket_row, group_total.
  rewrite Hq, Hd. reflexivity.
Qed.

(** C4.  In the aggregator's output, for a (question, day) group with at
    least two buckets and a method column whose pooled sum over the group is
    strictly positive, the emitted values of that column sum to 1 (hence
    within 1e-6 of 1); in a group with exactly one bucket, and for a column
    whose pooled sum is not strictly positive, the emitted values are the
    pooled values.  The five reducers are arbitrary. *)
Theorem aggregate_renormalizes_each_method
        (m md tm gp go : list Q -> cell) snaps q d col :
  let raw := group_of (pooled_aggregates m md tm gp go snaps) q d in
  let out :=
    group_of (aggregate_across_forecasters m md tm gp go snaps) q d in
  let total := nansum (map (get_col col) raw) in
  ((2 <= List.length raw)%nat -> 0 < total ->
   nansum (map (get_col col) out) == 1
   /\ Qabs (nansum (map (get_col col) out) - 1) <= 1 # 1000000)
  /\ ((List.length raw = 1)%nat \/ ~ 0 < total ->
      map (get_col col) out = map (get_col col) raw).
Proof.
  intros raw out total.
  pose proof (aggregate_group_col m md tm gp go snaps q d col) as H.
  simpl in H. fold raw in H. fold out in H. fold total in H.
  split.
  - intros Hlen Hpos.
    assert (Hsum : nansum (map (get_col col) out) == 1).
    { rewrite H.
      replace (1 <? List.length raw)%nat with true
        by (symmetry; apply Nat.ltb_lt; lia).
      replace (negb (Qle_bool total 0)) with true
        by (symmetry; apply positive_sum_test; exact Hpos).
      simpl. rewrite <- (map_map (get_col col) (fun c => cell_div c total)).
      rewrite nansum_div. fold total. field. lra. }
    split; [exact Hsum|]. rewrite Hsum. vm_compute. discriminate.
  - intros Hcase. rewrite H. apply map_ext. intros r.
    destruct Hcase as [Hone|Hnpos].
    + rewrite Hone. reflexivity.
    + destruct (negb (Qle_bool total 0)) eqn:E.
      * apply positive_sum_test in E. contradiction.
      * rewrite andb_false_r. reflexivity.
Qed.

Lemma aggregate_renormalizes_each_method_witness :
  nansum (map (get_col mean_col)
              (group_of (aggregate_across_forecasters
                           mean_reducer mean_reducer mean_reducer
                           mean_reducer mean_reducer example_snapshots)
                        1 0)) == 1.
Proof.
  refine (proj1 (proj1 (@aggregate_renormalizes_each_method
                          mean_reducer mean_reducer mean_reducer
                          mean_reducer mean_reducer example_snapshots
                          1%Z 0%Z mean_col) _ _)).
  - vm_compute. constructor.
  - vm_compute. reflexivity.
Defined.
End AggregationFacts.


(** * Further properties of the code *)

(** ** The snapshot table *)

Section SnapshotTableFacts.
Import CarryForward.
Local Open Scope Z_scope.

Lemma flat_map_ext_in (A B : Type) (f g : A -> list B) l :
  (forall x, In x l -> f x = g x) -> flat_map f l = flat_map g l.
Proof.
  induction l as [|x t IH]; simpl; intros H; [reflexivity|].
  rewrite (H x (or_introl eq_refl)), IH; [reflexivity|].
  intros y Hy. apply H. right; exact Hy.
Qed.

Lemma downcast_chunk_fits l :
  Forall (fun s => fits_int16 (s_aso s)) l -> downcast_chunk true l = l.
Proof.
  unfold downcast_chunk. induction 1 as [|s l Hs Hl IH]; simpl; [reflexivity|].
  rewrite IH. f_equal. rewrite (astype_int16_fits Hs).
  destruct s as [q g d a p [r|] c]; reflexivity.
Qed.

Lemma question_records_fit S pa pq pal pql fd q :
  Forall (fun r => fits_int16 (aso r)) fd ->
  Forall (fun s => fits_int16 (s_aso s))
         (day_loop S pa pq pal pql q (question_rows fd q)
                   (sorted (unique Z.eqb (map day (question_rows fd q))))
                   empty_state).
Proof.
  intros Hfit. apply Forall_forall. intros s Hin.
  assert (Hs : StronglySorted Z.lt
                 (sorted (unique Z.eqb (map day (question_rows fd q)))))
    by (apply sorted_lt; apply unique_NoDup; exact Z.eqb_eq).
  assert (Hcov : forall r, In r (question_rows fd q) ->
            In (day r) (sorted (unique Z.eqb (map day (question_rows fd q))))
            \/ exists dp, @None Z = Some dp /\ (day r <= dp)).
  { intros r Hr. left. apply sorted_In. apply (unique_In Z.eqb Z.eqb_eq).
    apply in_map. exact Hr. }
  assert (Hprev : forall dp d : Z, @None Z = Some dp ->
            In d (sorted (unique Z.eqb (map day (question_rows fd q)))) ->
            dp < d)
    by (intros dp d E; discriminate E).
  destruct (@day_loop_keys S pa pq pal pql q (question_rows fd q) _ _ _
              Hs Hcov Hprev (engine_inv_empty S _) s Hin) as [r [Hr Hk]].
  rewrite Forall_forall in Hfit.
  unfold question_rows in Hr. apply filter_In in Hr.
  unfold row_key in Hk. injection Hk as Hg Ha.
  rewrite <- Ha. apply (Hfit r). tauto.
Qed.

(** With every bucket ordinal in the 16-bit range the downcast table holds
    the records as they were emitted. *)
Lemma table_downcast_fits fd S pa pq dc :
  buckets_fit dc fd ->
  carry_forward_snapshots fd S pa pq dc = emitted_records fd S pa pq.
Proof.
  intros Hfit. destruct dc; [|reflexivity]. specialize (Hfit eq_refl).
  unfold emitted_records, carry_forward_snapshots.
  apply flat_map_ext_in. intros q _. unfold question_chunk.
  fold (question_rows fd q). rewrite downcast_chunk_fits; [reflexivity|].
  apply question_records_fit. exact Hfit.
Qed.

Lemma emitted_fit fd : buckets_fit false fd.
Proof. intros E; discriminate E. Qed.

Lemma table_row_observed fd S pa pq dc s :
  In s (carry_forward_snapshots fd S pa pq dc) ->
  In (s_day s) (map day (question_rows fd (s_qid s))).
Proof.
  unfold carry_forward_snapshots. intros Hin. apply in_flat_map in Hin.
  destruct Hin as [q' [_ Hs]].
  pose proof (question_chunk_qid _ _ _ _ _ _ _ _ _ Hs) as Eq. subst q'.
  unfold question_chunk in Hs.
  assert (Hd : exists s0,
             In s0 (day_loop S pa pq
                      (if pa then build_per_answer_lookup fd else [])
                      (if pq then build_per_question_lookup fd else [])
                      (s_qid s) (filter (fun r => qid r =? s_qid s) fd)
                      (sorted (unique Z.eqb
                                 (map day (filter (fun r => qid r =? s_qid s)
                                                  fd))))
                      empty_state)
             /\ s_day s = s_day s0).
  { destruct dc; simpl in Hs.
    - apply in_map_iff in Hs. destruct Hs as [s0 [<- Hs0]].
      exists s0. split; [exact Hs0 | reflexivity].
    - exists s. auto. }
  destruct Hd as [s0 [Hs0 Ed]]. apply day_loop_days in Hs0.
  rewrite sorted_In in Hs0. rewrite (unique_In Z.eqb Z.eqb_eq) in Hs0.
  rewrite Ed. exact Hs0.
Qed.

Lemma rows_unobserved_nil fd S pa pq dc q X B D :
  ~ In D (map day (question_rows fd q)) ->
  rows_for_question q X B D (carry_forward_snapshots fd S pa pq dc) = [].
Proof.
  intros HD. apply filter_nil_iff. intros s Hs.
  destruct ((s_qid s =? q)
            && (key_eqb (s_guid s, s_aso s) (X, B) && (s_day s =? D)))
    eqn:E; [|reflexivity].
  apply andb_true_iff in E. destruct E as [Eq E].
  apply andb_true_iff in E. destruct E as [_ Ed].
  apply Z.eqb_eq in Eq, Ed. subst q D.
  exfalso. apply HD. eapply table_row_observed; exact Hs.
Qed.

(** Every row of the table is accounted for by a submission: its key has a
    last update on or before the row's day which is not stale, and the row
    carries the value of that update. *)
Lemma table_row_sound fd S pa pq dc s :
  buckets_fit dc fd ->
  In s (carry_forward_snapshots fd S pa pq dc) ->
  exists U,
    last_update_day (question_rows fd (s_qid s)) (s_guid s, s_aso s) (s_day s)
    = Some U
    /\ stale S (s_day s) U = false
    /\ s_prob s
       = last_prob_on (question_rows fd (s_qid s)) (s_guid s, s_aso s) U.
Proof.
  intros Hfit Hin.
  pose proof (table_row_observed _ _ _ _ _ _ Hin) as HD.
  pose proof (@carry_forward_cases fd S pa pq dc (s_qid s) (s_guid s)
                (s_aso s) (s_day s) Hfit HD) as H.
  simpl in H.
  assert (Hf : In s (rows_for_question (s_qid s) (s_guid s) (s_aso s)
                       (s_day s) (carry_forward_snapshots fd S pa pq dc))).
  { unfold rows_for_question. apply filter_In. split; [exact Hin|].
    rewrite !Z.eqb_refl. simpl. rewrite andb_true_r.
    apply key_eqb_eq. reflexivity. }
  destruct (last_update_day (question_rows fd (s_qid s))
                            (s_guid s, s_aso s) (s_day s)) as [U|].
  - exists U. split; [reflexivity|].
    destruct (stale S (s_day s) U).
    + rewrite H in Hf. contradiction.
    + destruct H as [s' [E Hp]]. rewrite E in Hf.
      destruct Hf as [<-|[]]. auto.
  - rewrite H in Hf. contradiction.
Qed.

(** X1.  The table has at most one row per (question, forecaster, bucket,
    day), on every day, observed or not. *)
Theorem snapshot_key_unique fd S pa pq dc q X B D :
  buckets_fit dc fd ->
  (List.length (rows_for_question q X B D
                  (carry_forward_snapshots fd S pa pq dc)) <= 1)%nat.
Proof.
  intros Hfit.
  destruct (in_dec Z.eq_dec D (map day (question_rows fd q))) as [HD|HD].
  - pose proof (@carry_forward_cases fd S pa pq dc q X B D Hfit HD) as H.
    simpl in H.
    destruct (last_update_day (question_rows fd q) (X, B) D) as [U|].
    + destruct (stale S D U).
      * rewrite H. simpl; lia.
      * destruct H as [s [-> _]]. simpl; lia.
    + rewrite H. simpl; lia.
  - rewrite rows_unobserved_nil by exact HD. simpl; lia.
Qed.

Lemma snapshot_key_unique_witness :
  (List.length (rows_for_question 1 "Y" 0 8
                  (carry_forward_snapshots example_table None true false true))
   <= 1)%nat.
Proof.
  apply snapshot_key_unique.
  intros _. repeat constructor; unfold fits_int16; simpl; lia.
Defined.

(** X2.  No row is invented: each row's day is an observed day of its
    question, and its forecaster has a genuine submission for its bucket
    on a day [U] on or before the row's day, within the staleness limit,
    whose value (the last of that day in row order) the row carries. *)
Theorem snapshot_rows_come_from_submissions fd S pa pq dc s :
  buckets_fit dc fd ->
  In s (carry_forward_snapshots fd S pa pq dc) ->
  In (s_day s) (map day (question_rows fd (s_qid s)))
  /\ exists U,
      U <= s_day s
      /\ (forall limit, S = Some limit -> s_day s - U <= limit)
      /\ (exists r, In r fd /\ qid r = s_qid s /\ guid r = s_guid s
                    /\ aso r = s_aso s /\ day r = U)
      /\ s_prob s
         = last_prob_on (question_rows fd (s_qid s)) (s_guid s, s_aso s) U.
Proof.
  intros Hfit Hin. split; [eapply table_row_observed; exact Hin|].
  destruct (table_row_sound S pa pq s Hfit Hin) as [U [El [Hs Hp]]].
  exists U. apply last_update_day_Some in El.
  destruct El as [[r [Hr [Hk Hd]]] [HU _]].
  split; [exact HU|]. split; [|split; [|exact Hp]].
  - intros limit ->. unfold stale in Hs.
    rewrite Z.gtb_ltb in Hs. apply Z.ltb_ge in Hs. lia.
  - unfold question_rows in Hr. apply filter_In in Hr.
    destruct Hr as [Hr Hq]. apply Z.eqb_eq in Hq.
    unfold row_key in Hk. injection Hk as Hg Ha.
    exists r. auto.
Qed.

Lemma snapshot_rows_come_from_submissions_witness :
  exists U,
    U <= 8
    /\ (forall limit, Some 7 = Some limit -> 8 - U <= limit)
    /\ (exists r, In r example_table /\ qid r = 1 /\ guid r = "Y"%string
                  /\ aso r = 0 /\ day r = U)
    /\ (3 # 10)%Q
       = last_prob_on (question_rows example_table 1) ("Y"%string, 0) U.
Proof.
  refine (proj2 (@snapshot_rows_come_from_submissions
                   example_table (Some 7) true false true
                   {| s_qid := 1; s_guid := "Y"; s_day := 8; s_aso := 0;
                      s_prob := 3 # 10; s_resolved_probability := Some 1%Q;
                      s_correctness_known_day := None |} _ _)).
  - intros _. repeat constructor; unfold fits_int16; simpl; lia.
  - vm_compute. auto.
Defined.

Lemma sorted_block_app (d : Z) (l1 l2 : list Z) :
  (forall x, In x l1 -> x = d) ->
  StronglySorted Z.le l2 ->
  (forall y, In y l2 -> d <= y) ->
  StronglySorted Z.le (l1 ++ l2).
Proof.
  intros H1 H2 H3. induction l1 as [|x t IH]; simpl; [exact H2|].
  constructor.
  - apply IH. intros y Hy. apply H1. right; exact Hy.
  - apply Forall_forall. intros y Hy. apply in_app_or in Hy.
    rewrite (H1 x (or_introl eq_refl)). destruct Hy as [Hy|Hy].
    + rewrite (H1 y (or_intror Hy)). lia.
    + apply H3. exact Hy.
Qed.

Lemma day_loop_chronological S pa pq pal pql q sub_q days : forall st,
  StronglySorted Z.lt days ->
  StronglySorted Z.le
    (map s_day (day_loop S pa pq pal pql q sub_q days st)).
Proof.
  induction days as [|d days IH]; intros st Hs; simpl; [constructor|].
  inversion Hs as [|? ? Hs' Hlt]; subst. rewrite map_app.
  apply sorted_block_app with (d := d).
  - intros x Hx. unfold emit in Hx. rewrite map_map in Hx.
    apply in_map_iff in Hx. destruct Hx as [e [<- _]]. reflexivity.
  - apply IH. exact Hs'.
  - intros y Hy. apply in_map_iff in Hy. destruct Hy as [s [<- Hin]].
    apply day_loop_days in Hin. rewrite Forall_forall in Hlt.
    specialize (Hlt _ Hin). lia.
Qed.

Lemma downcast_chunk_days b l :
  map s_day (downcast_chunk b l) = map s_day l.
Proof.
  destruct b; [|reflexivity]. unfold downcast_chunk. rewrite map_map.
  reflexivity.
Qed.

(** X3.  Within a question the rows of the table run in chronological
    order: the days of its rows, in row order, never decrease. *)
Theorem snapshot_days_chronological fd S pa pq dc q :
  StronglySorted Z.le
    (map s_day (filter (fun s => s_qid s =? q)
                       (carry_forward_snapshots fd S pa pq dc))).
Proof.
  unfold carry_forward_snapshots.
  destruct (in_dec Z.eq_dec q (unique Z.eqb (map qid fd))) as [Hq|Hq].
  - rewrite filter_flat_map_single with (x := q).
    + match goal with |- context [filter ?P ?l] =>
        replace (filter P l) with l end.
      * unfold question_chunk. rewrite downcast_chunk_days.
        apply day_loop_chronological. apply sorted_lt.
        apply unique_NoDup. exact Z.eqb_eq.
      * symmetry. apply forallb_filter_id. apply forallb_forall.
        intros s Hs. apply question_chunk_qid in Hs. apply Z.eqb_eq. exact Hs.
    + apply unique_NoDup. exact Z.eqb_eq.
    + exact Hq.
    + intros q' _ Hne. apply filter_nil_iff. intros s Hs.
      apply question_chunk_qid in Hs. apply Z.eqb_neq. congruence.
  - rewrite filter_flat_map_nil; [constructor|].
    intros q' Hq'. apply filter_nil_iff. intros s Hs.
    apply question_chunk_qid in Hs. apply Z.eqb_neq. congruence.
Qed.

(** The returned table is the downcast of the emitted records. *)
Lemma table_is_downcast fd S pa pq dc :
  carry_forward_snapshots fd S pa pq dc
  = downcast_chunk dc (emitted_records fd S pa pq).
Proof.
  destruct dc; [|reflexivity].
  unfold emitted_records, carry_forward_snapshots.
  induction (unique Z.eqb (map qid fd)) as [|q l IH]; simpl; [reflexivity|].
  rewrite IH. unfold question_chunk, downcast_chunk. rewrite map_app.
  reflexivity.
Qed.

Lemma table_nil_of_emitted fd S pa pq dc :
  emitted_records fd S pa pq = [] ->
  carry_forward_snapshots fd S pa pq dc = [].
Proof.
  intros H. rewrite table_is_downcast, H. destruct dc; reflexivity.
Qed.

(** X4.  A negative staleness limit empties the table: an entry evicted on
    the very day it is written is never emitted. *)
Theorem negative_staleness_limit_empties_table fd limit pa pq dc :
  limit < 0 ->
  carry_forward_snapshots fd (Some limit) pa pq dc = [].
Proof.
  intros Hneg. apply table_nil_of_emitted.
  destruct (emitted_records fd (Some limit) pa pq) as [|s l] eqn:E;
    [reflexivity|]. exfalso.
  assert (Hin : In s (carry_forward_snapshots fd (Some limit) pa pq false))
    by (unfold emitted_records in E; rewrite E; left; reflexivity).
  destruct (table_row_sound (Some limit) pa pq s (@emitted_fit fd) Hin)
    as [U [El [Hs _]]].
  apply last_update_day_Some in El. destruct El as [_ [HU _]].
  unfold stale in Hs. rewrite Z.gtb_ltb in Hs. apply Z.ltb_ge in Hs. lia.
Qed.

Lemma negative_staleness_limit_empties_table_witness :
  carry_forward_snapshots example_table (Some (-1)) true false true = [].
Proof. apply negative_staleness_limit_empties_table. lia. Defined.

(** X5.  With a staleness limit of 0 days the table holds a row for
    (question, forecaster, bucket, day) exactly when the forecaster
    submitted for that bucket on that very day: nothing is carried
    forward. *)
Theorem zero_staleness_limit_keeps_same_day_only fd pa pq dc q X B D :
  buckets_fit dc fd ->
  (exists s, In s (rows_for_question q X B D
                     (carry_forward_snapshots fd (Some 0) pa pq dc)))
  <-> (exists r, In r fd /\ qid r = q /\ guid r = X /\ aso r = B
                 /\ day r = D).
Proof.
  intros Hfit. split.
  - intros [s Hs]. unfold rows_for_question in Hs. apply filter_In in Hs.
    destruct Hs as [Hin Hc]. apply andb_true_iff in Hc.
    destruct Hc as [Eq Hc]. apply andb_true_iff in Hc.
    destruct Hc as [Ek Ed]. apply Z.eqb_eq in Eq, Ed.
    apply key_eqb_eq in Ek. injection Ek as Eg Ea.
    destruct (table_row_sound (Some 0) pa pq s Hfit Hin) as [U [El [Hs _]]].
    apply last_update_day_Some in El.
    destruct El as [[r [Hr [Hk Hd]]] [HU _]].
    unfold stale in Hs. rewrite Z.gtb_ltb in Hs. apply Z.ltb_ge in Hs.
    unfold question_rows in Hr. apply filter_In in Hr.
    destruct Hr as [Hr Hq]. apply Z.eqb_eq in Hq.
    unfold row_key in Hk. injection Hk as Hg Ha.
    exists r. repeat split; try congruence. lia.
  - intros [r [Hr [Hq [Hg [Ha Hd]]]]].
    assert (Hrq : In r (question_rows fd q))
      by (apply filter_In; split; [exact Hr | apply Z.eqb_eq; exact Hq]).
    assert (HD : In D (map day (question_rows fd q)))
      by (rewrite <- Hd; apply in_map; exact Hrq).
    pose proof (@carry_forward_cases fd (Some 0) pa pq dc q X B D Hfit HD)
      as H. simpl in H.
    assert (El : last_update_day (question_rows fd q) (X, B) D = Some D).
    { apply last_update_day_Some. split.
      - exists r. unfold row_key. repeat split; congruence.
      - split; [lia | auto]. }
    rewrite El in H. replace (D - D >? 0) with false in H
      by (symmetry; rewrite Z.gtb_ltb; apply Z.ltb_ge; lia).
    destruct H as [s [E _]]. exists s. rewrite E. left; reflexivity.
Qed.

Lemma zero_staleness_limit_keeps_same_day_only_witness :
  (exists s, In s (rows_for_question 1 "X" 0 0
                     (carry_forward_snapshots example_table (Some 0)
                                              true false true)))
  /\ ~ (exists s, In s (rows_for_question 1 "X" 0 7
                          (carry_forward_snapshots example_table (Some 0)
                                                   true false true))).
Proof.
  assert (Hfit : buckets_fit true example_table)
    by (intros _; repeat constructor; unfold fits_int16; simpl; lia).
  split.
  - apply (proj2 (@zero_staleness_limit_keeps_same_day_only
                    example_table true false true 1 "X"%string 0 0 Hfit)).
    eexists. split; [left; reflexivity | repeat split].
  - intros H.
    apply (proj1 (@zero_staleness_limit_keeps_same_day_only
                    example_table true false true 1 "X"%string 0 7 Hfit)) in H.
    destruct H as [r [Hr [_ [Hg [_ Hd]]]]].
    destruct Hr as [<-|[<-|[<-|[]]]]; discriminate.
Defined.

(** X6.  Raising the staleness limit, or lifting it, only adds rows: a row
    present under the limit [S1] is present under every [S2 >= S1] and
    without any limit, with the same probability. *)
Theorem staleness_limit_monotone fd S1 S2 pa pq dc q X B D :
  buckets_fit dc fd ->
  S1 <= S2 ->
  let under S := map s_prob (rows_for_question q X B D
                               (carry_forward_snapshots fd S pa pq dc)) in
  under (Some S1) = []
  \/ (under (Some S1) = under (Some S2) /\ under (Some S1) = under None).
Proof.
  intros Hfit Hle under. unfold under.
  destruct (in_dec Z.eq_dec D (map day (question_rows fd q))) as [HD|HD].
  - rewrite !(@carry_forward_spec fd _ pa pq dc q X B D Hfit HD).
    unfold live_day, stale.
    destruct (last_update_day (question_rows fd q) (X, B) D) as [U|];
      [|left; reflexivity].
    destruct (D - U >? S1) eqn:E1; [left; reflexivity|].
    right. rewrite Z.gtb_ltb in E1. apply Z.ltb_ge in E1.
    replace (D - U >? S2) with false
      by (symmetry; rewrite Z.gtb_ltb; apply Z.ltb_ge; lia).
    split; reflexivity.
  - left. rewrite rows_unobserved_nil by exact HD. reflexivity.
Qed.

Lemma staleness_limit_monotone_witness :
  map s_prob (rows_for_question 1 "X" 0 7
                (carry_forward_snapshots example_table (Some 7) true false
                                         true))
  = map s_prob (rows_for_question 1 "X" 0 7
                  (carry_forward_snapshots example_table None true false
                                           true)).
Proof.
  destruct (@staleness_limit_monotone example_table 7 8 true false true
              1 "X"%string 0 7) as [H|[_ H]].
  - intros _; repeat constructor; unfold fits_int16; simpl; lia.
  - lia.
  - vm_compute in H. discriminate H.
  - exact H.
Defined.

(** *** The attached metadata *)

Lemma qa_eqb_eq (a b : Z * Z) : qa_eqb a b = true <-> a = b.
Proof.
  destruct a as [a1 a2], b as [b1 b2]. unfold qa_eqb; simpl.
  rewrite andb_true_iff, !Z.eqb_eq.
  split; [intros [-> ->]; reflexivity | intros E; inversion E; auto].
Qed.

Lemma unique_incl (A : Type) (eqb : A -> A -> bool) l x :
  In x (unique eqb l) -> In x l.
Proof.
  revert x. induction l as [|y t IH]; simpl; intros x; [tauto|].
  intros [E|H]; [auto|]. apply filter_In in H. right. apply IH. tauto.
Qed.

(** Each element has a representative among the first occurrences. *)
Lemma unique_repr (A : Type) (eqb : A -> A -> bool) l :
  (forall x, eqb x x = true) ->
  (forall x y z, eqb x y = true -> eqb y z = true -> eqb x z = true) ->
  forall z, In z l -> exists y, In y (unique eqb l) /\ eqb y z = true.
Proof.
  intros Hrefl Htrans. induction l as [|x t IH]; simpl; intros z Hz;
    [contradiction|].
  destruct Hz as [<-|Hz].
  - exists x. auto.
  - destruct (IH z Hz) as [y [Hy E]].
    destruct (eqb x y) eqn:Exy.
    + exists x. split; [auto | eapply Htrans; eassumption].
    + exists y. split; [|exact E]. right. apply filter_In.
      split; [exact Hy | rewrite Exy; reflexivity].
Qed.

(** Writing a list of (key, value) entries into a dictionary, in order:
    if every entry of key [k] has a value satisfying [P], and either the
    dictionary already holds such a value for [k] or some entry has key [k],
    then the result holds such a value for [k]. *)
Lemma lookup_fold (P : Q -> Prop) (k : Z * Z) (l : list ((Z * Z) * Q)) :
  forall d,
    (forall e, In e l -> fst e = k -> P (snd e)) ->
    ((exists v, dict_get qa_eqb k d = Some v /\ P v)
     \/ exists e, In e l /\ fst e = k) ->
    exists v,
      dict_get qa_eqb k
        (fold_left (fun d e => dict_set qa_eqb (fst e) (snd e) d) l d)
      = Some v /\ P v.
Proof.
  induction l as [|e0 t IH]; intros d Hall Hex; simpl.
  - destruct Hex as [H|[e [[] _]]]. exact H.
  - apply IH.
    + intros e He. apply Hall. right; exact He.
    + rewrite (dict_get_set qa_eqb qa_eqb_eq).
      destruct (qa_eqb (fst e0) k) eqn:E.
      * left. exists (snd e0). split; [reflexivity|].
        apply Hall; [left; reflexivity | apply qa_eqb_eq; exact E].
      * destruct Hex as [H|[e [[<-|He] Hk]]].
        -- left. exact H.
        -- apply qa_eqb_eq in Hk. congruence.
        -- right. exists e. auto.
Qed.

Lemma answer_pair_refl (x : (Z * Z) * Q) :
  qa_eqb (fst x) (fst x) && Qeq_bool (snd x) (snd x) = true.
Proof.
  apply andb_true_iff. split; [apply qa_eqb_eq; reflexivity|].
  apply Qeq_bool_iff. reflexivity.
Qed.

Lemma answer_pair_trans (x y z : (Z * Z) * Q) :
  qa_eqb (fst x) (fst y) && Qeq_bool (snd x) (snd y) = true ->
  qa_eqb (fst y) (fst z) && Qeq_bool (snd y) (snd z) = true ->
  qa_eqb (fst x) (fst z) && Qeq_bool (snd x) (snd z) = true.
Proof.
  rewrite !andb_true_iff, !qa_eqb_eq, !Qeq_bool_iff.
  intros [E1 H1] [E2 H2]. split; [congruence|]. rewrite H1. exact H2.
Qed.

Lemma per_answer_lookup_constant fd k v :
  (exists r, In r fd /\ (qid r, aso r) = k) ->
  (forall r, In r fd -> (qid r, aso r) = k -> resolved_probability r == v) ->
  exists v', dict_get qa_eqb k (build_per_answer_lookup fd) = Some v'
             /\ v' == v.
Proof.
  intros [r [Hr Hk]] Hall. unfold build_per_answer_lookup.
  apply lookup_fold with (P := fun x => x == v).
  - intros e He Hke. apply unique_incl in He. apply in_map_iff in He.
    destruct He as [r' [<- Hr']]. simpl in *. apply Hall; assumption.
  - right.
    destruct (@unique_repr _
                (fun a b => qa_eqb (fst a) (fst b) && Qeq_bool (snd a) (snd b))
                (map (fun r => ((qid r, aso r), resolved_probability r)) fd)
                answer_pair_refl answer_pair_trans
                ((qid r, aso r), resolved_probability r))
      as [y [Hy E]].
    + apply in_map_iff. exists r. auto.
    + exists y. split; [exact Hy|]. apply andb_true_iff in E.
      destruct E as [E _]. apply qa_eqb_eq in E. simpl in E. congruence.
Qed.

Lemma day_loop_metadata S pa pq pal pql q sub_q days : forall st s,
  In s (day_loop S pa pq pal pql q sub_q days st) ->
  s_resolved_probability s
  = (if pa then dict_get qa_eqb (q, s_aso s) pal else None).
Proof.
  induction days as [|d days IH]; simpl; intros st s Hin; [contradiction|].
  apply in_app_or in Hin. destruct Hin as [Hin|Hin].
  - unfold emit in Hin. apply in_map_iff in Hin.
    destruct Hin as [e [<- _]]. reflexivity.
  - eapply IH; exact Hin.
Qed.

Lemma emitted_metadata fd S pa pq s :
  In s (emitted_records fd S pa pq) ->
  s_resolved_probability s
  = (if pa
     then dict_get qa_eqb (s_qid s, s_aso s) (build_per_answer_lookup fd)
     else None).
Proof.
  unfold emitted_records, carry_forward_snapshots. intros Hin.
  apply in_flat_map in Hin. destruct Hin as [q [_ Hs]].
  pose proof (question_chunk_qid _ _ _ _ _ _ _ _ _ Hs) as Eq.
  unfold question_chunk in Hs. simpl in Hs.
  apply day_loop_metadata in Hs. rewrite Hs, Eq.
  destruct pa; reflexivity.
Qed.

(** X7.  When the resolved probability is constant over the rows of a
    (question, answer), every row of the table for that question and answer
    carries it, provided the per-answer column was requested; when it was
    not, the field is empty. *)
Theorem resolved_probability_is_attached fd S pa pq dc s v :
  buckets_fit dc fd ->
  In s (carry_forward_snapshots fd S pa pq dc) ->
  (forall r, In r fd -> qid r = s_qid s -> aso r = s_aso s ->
             resolved_probability r == v) ->
  if pa
  then exists v', s_resolved_probability s = Some v' /\ v' == v
  else s_resolved_probability s = None.
Proof.
  intros Hfit Hin Hconst.
  destruct (table_row_sound S pa pq s Hfit Hin) as [U [El _]].
  apply last_update_day_Some in El. destruct El as [[r [Hr [Hk _]]] _].
  unfold question_rows in Hr. apply filter_In in Hr.
  destruct Hr as [Hr Hq]. apply Z.eqb_eq in Hq.
  unfold row_key in Hk. injection Hk as Hg Ha.
  rewrite (table_downcast_fits S pa pq Hfit) in Hin.
  rewrite (emitted_metadata _ _ _ _ _ Hin).
  destruct pa; [|reflexivity].
  apply per_answer_lookup_constant.
  - exists r. split; [exact Hr | congruence].
  - intros r' Hr' E. injection E as E1 E2. apply Hconst; assumption.
Qed.

Lemma resolved_probability_is_attached_witness :
  exists v',
    s_resolved_probability
      {| s_qid := 1; s_guid := "Y"; s_day := 8; s_aso := 0;
         s_prob := 3 # 10; s_resolved_probability := Some 1%Q;
         s_correctness_known_day := None |} = Some v'
    /\ v' == 1.
Proof.
  refine (@resolved_probability_is_attached
            example_table (Some 7) true false true
            {| s_qid := 1; s_guid := "Y"; s_day := 8; s_aso := 0;
               s_prob := 3 # 10; s_resolved_probability := Some 1%Q;
               s_correctness_known_day := None |} 1%Q _ _ _).
  - intros _. repeat constructor; unfold fits_int16; simpl; lia.
  - vm_compute. auto.
  - intros r [<-|[<-|[<-|[]]]] _ _; reflexivity.
Defined.

(** The deduplicated entries around the first entry of a key: nothing of
    that key before it, nothing equal to it after it, and every later entry
    of the key with another value is represented after it. *)
Lemma unique_split_first (pre : list ((Z * Z) * Q)) x1 rest :
  let eqbp := fun a b : (Z * Z) * Q =>
                qa_eqb (fst a) (fst b) && Qeq_bool (snd a) (snd b) in
  (forall e, In e pre -> fst e <> fst x1) ->
  exists u1 u2,
    unique eqbp (pre ++ x1 :: rest) = u1 ++ x1 :: u2
    /\ (forall e, In e u1 -> fst e <> fst x1)
    /\ (forall e, In e u2 -> eqbp x1 e = false)
    /\ (forall z, In z rest -> fst z = fst x1 -> eqbp x1 z = false ->
                  exists y, In y u2 /\ eqbp y z = true).
Proof.
  intros eqbp. induction pre as [|x0 pre IH]; intros Hpre.
  - exists [], (filter (fun y => negb (eqbp x1 y)) (unique eqbp rest)).
    simpl. split; [reflexivity|]. split; [tauto|]. split.
    + intros e He. apply filter_In in He. apply negb_true_iff. tauto.
    + intros z Hz _ Hne.
      destruct (@unique_repr _ eqbp rest answer_pair_refl answer_pair_trans
                  z Hz) as [y [Hy E]].
      exists y. split; [|exact E]. apply filter_In. split; [exact Hy|].
      apply negb_true_iff. destruct (eqbp x1 y) eqn:E1; [|reflexivity].
      pose proof (answer_pair_trans x1 y z E1 E) as Ht.
      unfold eqbp in Hne. rewrite Ht in Hne. discriminate.
  - destruct IH as [u1 [u2 [E [H1 [H2 H3]]]]].
    { intros e He. apply Hpre. right; exact He. }
    assert (Hx0 : fst x0 <> fst x1) by (apply Hpre; left; reflexivity).
    assert (Hkeep : forall y, fst y = fst x1 -> negb (eqbp x0 y) = true).
    { intros y Hy. apply negb_true_iff. unfold eqbp.
      apply andb_false_iff. left.
      destruct (qa_eqb (fst x0) (fst y)) eqn:Eq; [|reflexivity].
      apply qa_eqb_eq in Eq. congruence. }
    exists (x0 :: filter (fun y => negb (eqbp x0 y)) u1),
           (filter (fun y => negb (eqbp x0 y)) u2).
    split.
    + simpl. fold eqbp. rewrite E, filter_app. simpl.
      rewrite (Hkeep x1 eq_refl). reflexivity.
    + split; [|split].
      * intros e [<-|He]; [exact Hx0|]. apply filter_In in He.
        apply H1. tauto.
      * intros e He. apply filter_In in He. apply H2. tauto.
      * intros z Hz Hk Hne. destruct (H3 z Hz Hk Hne) as [y [Hy Ey]].
        exists y. split; [|exact Ey]. apply filter_In. split; [exact Hy|].
        apply Hkeep. unfold eqbp in Ey. apply andb_true_iff in Ey.
        destruct Ey as [Ey _]. apply qa_eqb_eq in Ey. congruence.
Qed.

(** X8.  When the rows of a (question, answer) disagree on the resolved
    probability, the per-answer lookup does not keep the first observed
    value: it holds a different value, taken from a later row. *)
Theorem per_answer_lookup_drops_first_value pre r1 rest r2 :
  let k := (qid r1, aso r1) in
  (forall r, In r pre -> (qid r, aso r) <> k) ->
  In r2 rest ->
  (qid r2, aso r2) = k ->
  ~ resolved_probability r2 == resolved_probability r1 ->
  exists v,
    dict_get qa_eqb k (build_per_answer_lookup (pre ++ r1 :: rest)) = Some v
    /\ ~ v == resolved_probability r1
    /\ exists r, In r rest /\ (qid r, aso r) = k
                 /\ resolved_probability r = v.
Proof.
  intros k Hpre Hr2 Hk2 Hne. unfold build_per_answer_lookup.
  set (kv := fun r => ((qid r, aso r), resolved_probability r)).
  rewrite map_app. simpl map.
  destruct (@unique_split_first (map kv pre) (kv r1) (map kv rest))
    as [u1 [u2 [E [H1 [H2 H3]]]]].
  { intros e He. apply in_map_iff in He. destruct He as [r [<- Hr]].
    simpl. apply Hpre. exact Hr. }
  assert (Hin : forall e, In e u2 ->
                  In e (map kv pre ++ kv r1 :: map kv rest)).
  { intros e He. apply unique_incl with
      (eqb := fun a b => qa_eqb (fst a) (fst b) && Qeq_bool (snd a) (snd b)).
    rewrite E. apply in_or_app. right. right. exact He. }
  rewrite E, fold_left_app. simpl fold_left.
  destruct (@lookup_fold
              (fun v => ~ v == resolved_probability r1
                        /\ exists r, In r rest /\ (qid r, aso r) = k
                                     /\ resolved_probability r = v)
              k u2
              (dict_set qa_eqb (fst (kv r1)) (snd (kv r1))
                 (fold_left
                    (fun d e => dict_set qa_eqb (fst e) (snd e) d) u1 [])))
    as [v [Hv HP]].
  - intros e He Hke. pose proof (H2 e He) as Hx. simpl in Hx.
    apply andb_false_iff in Hx. destruct Hx as [Hx|Hx].
    + exfalso. assert (qa_eqb (qid r1, aso r1) (fst e) = true)
        by (apply qa_eqb_eq; symmetry; exact Hke). congruence.
    + split.
      * intros Hq. assert (Qeq_bool (resolved_probability r1) (snd e) = true)
          by (apply Qeq_bool_iff; symmetry; exact Hq). congruence.
      * specialize (Hin e He). apply in_app_or in Hin.
        destruct Hin as [Hp|[Hp|Hp]].
        -- apply in_map_iff in Hp. destruct Hp as [r [<- Hr]].
           exfalso. apply (Hpre r Hr). exact Hke.
        -- exfalso. subst e. simpl in Hx.
           assert (Qeq_bool (resolved_probability r1)
                            (resolved_probability r1) = true)
             by (apply Qeq_bool_iff; reflexivity). congruence.
        -- apply in_map_iff in Hp. destruct Hp as [r [<- Hr]].
           exists r. auto.
  - right. destruct (H3 (kv r2)) as [y [Hy Ey]].
    + apply in_map. exact Hr2.
    + exact Hk2.
    + simpl. apply andb_false_iff. right.
      destruct (Qeq_bool (resolved_probability r1) (resolved_probability r2))
        eqn:Eq; [|reflexivity].
      apply Qeq_bool_iff in Eq. exfalso. apply Hne. symmetry; exact Eq.
    + exists y. split; [exact Hy|]. apply andb_true_iff in Ey.
      destruct Ey as [Ey _]. apply qa_eqb_eq in Ey. simpl in Ey.
      rewrite Ey. exact Hk2.
  - exists v. auto.
Qed.

Lemma per_answer_lookup_drops_first_value_witness :
  exists v,
    dict_get qa_eqb (1, 0)
      (build_per_answer_lookup
         ([] ++ {| qid := 1; guid := "X"; day := 0; aso := 0; prob := 1 # 2;
                   resolved_probability := 1;
                   correctness_known_day := None |}
             :: [ {| qid := 1; guid := "Y"; day := 1; aso := 0;
                     prob := 1 # 2; resolved_probability := 0;
                     correctness_known_day := None |};
                  {| qid := 1; guid := "X"; day := 2; aso := 0;
                     prob := 1 # 2; resolved_probability := 1;
                     correctness_known_day := None |} ]))
    = Some v
    /\ ~ v == 1.
Proof.
  destruct (@per_answer_lookup_drops_first_value
              []
              {| qid := 1; guid := "X"; day := 0; aso := 0; prob := 1 # 2;
                 resolved_probability := 1; correctness_known_day := None |}
              [ {| qid := 1; guid := "Y"; day := 1; aso := 0;
                   prob := 1 # 2; resolved_probability := 0;
                   correctness_known_day := None |};
                {| qid := 1; guid := "X"; day := 2; aso := 0;
                   prob := 1 # 2; resolved_probability := 1;
                   correctness_known_day := None |} ]
              {| qid := 1; guid := "Y"; day := 1; aso := 0;
                 prob := 1 # 2; resolved_probability := 0;
                 correctness_known_day := None |})
    as [v [Hv [Hne _]]].
  - intros r [].
  - left; reflexivity.
  - reflexivity.
  - simpl. intros H; discriminate H.
  - exists v. split; [exact Hv | exact Hne].
Defined.
End SnapshotTableFacts.


(** ** The scoring rule: range, perfect forecast, scale invariance *)

Section OrderedBrierMoreFacts.
Import OrderedBrier.

(** On a valid input of length at least 2 the function returns the score
    of the splits. *)
Lemma ordered_brier_valid probs outcome :
  (2 <= List.length probs)%nat ->
  List.length outcome = List.length probs ->
  one_hot outcome ->
  ordered_brier_from_distribution (Array1 probs) (Array1 outcome)
  = Ok (score_splits probs outcome).
Proof.
  intros HK Hlen Hhot. unfold ordered_brier_from_distribution; simpl.
  rewrite Hlen, Nat.eqb_refl; simpl. unfold expand_single_bucket.
  replace (List.length probs =? 1)%nat with false
    by (symmetry; apply Nat.eqb_neq; lia).
  rewrite (one_hot_passes Hhot). reflexivity.
Qed.

Lemma np_sum_app l1 l2 : np_sum (l1 ++ l2) == np_sum l1 + np_sum l2.
Proof.
  induction l1 as [|x t IH]; simpl; [ring | rewrite IH; ring].
Qed.

Lemma np_sum_zeros l : Forall (fun x => x == 0) l -> np_sum l == 0.
Proof.
  induction 1 as [|x t Hx Ht IH]; simpl; [reflexivity|].
  rewrite Hx, IH. ring.
Qed.

Lemma one_hot_sum outcome : one_hot outcome -> np_sum outcome == 1.
Proof.
  intros [a [y [b [-> [Hy [Ha Hb]]]]]]. rewrite np_sum_app. simpl.
  rewrite (np_sum_zeros Ha), (np_sum_zeros Hb), Hy. ring.
Qed.

Lemma one_hot_nonneg outcome :
  one_hot outcome -> Forall (fun x => 0 <= x) outcome.
Proof.
  intros [a [y [b [-> [Hy [Ha Hb]]]]]]. apply Forall_forall. intros x Hx.
  rewrite Forall_forall in Ha, Hb. apply in_app_or in Hx.
  destruct Hx as [Hx|[<-|Hx]].
  - rewrite (Ha x Hx). discriminate.
  - rewrite Hy. discriminate.
  - rewrite (Hb x Hx). discriminate.
Qed.

Lemma np_sum_nonneg l : Forall (fun x => 0 <= x) l -> 0 <= np_sum l.
Proof.
  induction 1 as [|x t Hx Ht IH]; simpl; [discriminate | lra].
Qed.

(** A partial sum of non-negative numbers lies between 0 and the total. *)
Lemma partial_sum_bounds l n :
  Forall (fun x => 0 <= x) l ->
  0 <= np_sum (firstn n l) <= np_sum l.
Proof.
  intros H. revert n. induction H as [|x t Hx Ht IH]; intros n.
  - destruct n; simpl; split; discriminate.
  - destruct n; simpl.
    + pose proof (np_sum_nonneg Ht). lra.
    + specialize (IH n). lra.
Qed.

Lemma spec_rescaled_nonneg probs :
  Forall (fun x => 0 <= x) probs ->
  Forall (fun x => 0 <= x) (spec_rescaled probs)
  /\ np_sum (spec_rescaled probs) <= 1.
Proof.
  intros H. unfold spec_rescaled.
  destruct (Qlt_le_dec 0 (np_sum probs)) as [Hs|Hs].
  - split.
    + apply Forall_forall. intros y Hy. apply in_map_iff in Hy.
      destruct Hy as [x [<- Hx]]. rewrite Forall_forall in H.
      specialize (H x Hx). apply Qle_shift_div_l; [exact Hs | lra].
    + rewrite np_sum_scale. apply Qle_shift_div_r; [exact Hs | lra].
  - split; [exact H | lra].
Qed.

Lemma np_sum_bounds (A : Type) (f : A -> Q) (a b : Q) l :
  (forall x, In x l -> a <= f x <= b) ->
  inject_Z (Z.of_nat (List.length l)) * a <= np_sum (map f l)
  /\ np_sum (map f l) <= inject_Z (Z.of_nat (List.length l)) * b.
Proof.
  induction l as [|x t IH]; intros H.
  - simpl. split; [ring_simplify | ring_simplify]; discriminate.
  - change (List.length (x :: t)) with (S (List.length t)).
    rewrite Nat2Z.inj_succ. unfold Z.succ. rewrite inject_Z_plus.
    simpl np_sum. pose proof (H x (or_introl eq_refl)) as Hx.
    assert (Ht : forall y, In y t -> a <= f y <= b)
      by (intros y Hy; apply H; right; exact Hy).
    specialize (IH Ht). change (inject_Z 1) with 1. lra.
Qed.

(** X9.  For a forecast with non-negative entries against a one-hot
    outcome, both of length at least 2, the score lies between 0 and 2. *)
Theorem ordered_brier_score_range probs outcome :
  (2 <= List.length probs)%nat ->
  List.length outcome = List.length probs ->
  Forall (fun p => 0 <= p) probs ->
  one_hot outcome ->
  exists score,
    ordered_brier_from_distribution (Array1 probs) (Array1 outcome) = Ok score
    /\ 0 <= score <= 2.
Proof.
  intros HK Hlen Hpos Hhot. exists (score_splits probs outcome).
  split; [apply ordered_brier_valid; assumption|].
  rewrite (score_splits_spec probs outcome Hlen). unfold spec_ordered_brier.
  destruct (spec_rescaled_nonneg Hpos) as [HP Hle].
  pose proof (one_hot_nonneg Hhot) as HY. pose proof (one_hot_sum Hhot) as HS.
  set (K := List.length probs) in *.
  assert (Hterm : forall j, In j (seq 0 (K - 1)) ->
            0 <= 2 * (spec_cumulative (spec_rescaled probs) j
                      - spec_cumulative outcome j) ^ 2 <= 2).
  { intros j _. unfold spec_cumulative.
    pose proof (partial_sum_bounds (S j) HP) as [H1 H2].
    pose proof (partial_sum_bounds (S j) HY) as [H3 H4].
    set (P := np_sum (firstn (S j) (spec_rescaled probs))) in *.
    set (Y := np_sum (firstn (S j) outcome)) in *.
    assert (E : (P - Y) ^ 2 == (P - Y) * (P - Y)) by (simpl; ring).
    assert (HD : -1 <= P - Y <= 1) by (split; lra).
    rewrite E. set (D := P - Y) in *. clearbody D. split; nra. }
  pose proof (@np_sum_bounds _ _ 0 2 (seq 0 (K - 1)) Hterm) as [Hlo Hhi].
  rewrite length_seq in Hlo, Hhi.
  assert (Hn : 0 < inject_Z (Z.of_nat (K - 1))).
  { change 0 with (inject_Z 0). rewrite <- Zlt_Qlt. lia. }
  split.
  - apply Qle_shift_div_l; [exact Hn | lra].
  - apply Qle_shift_div_r; [exact Hn | lra].
Qed.

Lemma ordered_brier_score_range_witness :
  exists score,
    ordered_brier_from_distribution
      (Array1 [0; 1 # 2; 1 # 4; 1 # 4]) (Array1 [0; 1; 0; 0]) = Ok score
    /\ 0 <= score <= 2.
Proof.
  apply ordered_brier_score_range.
  - simpl; lia.
  - reflexivity.
  - repeat constructor; discriminate.
  - exists [0], 1, [0; 0].
    repeat split; try reflexivity; repeat constructor; reflexivity.
Defined.

Lemma cumulative_rescaled probs j :
  0 < np_sum probs ->
  spec_cumulative (spec_rescaled probs) j
  == spec_cumulative probs j / np_sum probs.
Proof.
  intros Hs. unfold spec_cumulative, spec_rescaled.
  destruct (Qlt_le_dec 0 (np_sum probs)) as [_|H]; [|lra].
  rewrite firstn_map. apply np_sum_scale.
Qed.

Lemma np_sum_times (c : Q) l : np_sum (map (Qmult c) l) == c * np_sum l.
Proof.
  induction l as [|x t IH]; simpl; [ring | rewrite IH; ring].
Qed.

(** X10.  A forecast that puts all its mass on the true bucket scores 0. *)
Theorem ordered_brier_perfect_forecast outcome :
  (2 <= List.length outcome)%nat ->
  one_hot outcome ->
  exists score,
    ordered_brier_from_distribution (Array1 outcome) (Array1 outcome)
    = Ok score
    /\ score == 0.
Proof.
  intros HK Hhot. exists (score_splits outcome outcome).
  split; [apply ordered_brier_valid; auto|].
  rewrite (score_splits_spec outcome outcome eq_refl).
  unfold spec_ordered_brier. pose proof (one_hot_sum Hhot) as HS.
  assert (E : np_sum
                (map (fun j => 2 * (spec_cumulative (spec_rescaled outcome) j
                                    - spec_cumulative outcome j) ^ 2)
                     (seq 0 (List.length outcome - 1)))
              == np_sum (map (fun _ : nat => 0)
                             (seq 0 (List.length outcome - 1)))).
  { apply np_sum_map_ext. intros j _.
    rewrite cumulative_rescaled by lra. rewrite HS. simpl. field. }
  rewrite E.
  assert (Z0 : forall l : list nat, np_sum (map (fun _ => 0) l) == 0)
    by (induction l as [|x t IH]; simpl; [reflexivity | rewrite IH; ring]).
  rewrite Z0. unfold Qdiv. ring.
Qed.

Lemma ordered_brier_perfect_forecast_witness :
  exists score,
    ordered_brier_from_distribution (Array1 [0; 0; 1]) (Array1 [0; 0; 1])
    = Ok score
    /\ score == 0.
Proof.
  apply ordered_brier_perfect_forecast.
  - simpl; lia.
  - exists [0; 0], 1, [].
    repeat split; try reflexivity; repeat constructor; reflexivity.
Defined.

(** X11.  The score does not depend on the scale of the forecast:
    multiplying every entry by a positive constant leaves it unchanged, as
    long as the entries have a positive sum. *)
Theorem ordered_brier_scale_invariant (c : Q) probs outcome :
  0 < c ->
  0 < np_sum probs ->
  (2 <= List.length probs)%nat ->
  List.length outcome = List.length probs ->
  one_hot outcome ->
  exists s1 s2,
    ordered_brier_from_distribution (Array1 (map (Qmult c) probs))
                                    (Array1 outcome) = Ok s1
    /\ ordered_brier_from_distribution (Array1 probs) (Array1 outcome)
       = Ok s2
    /\ s1 == s2.
Proof.
  intros Hc Hs HK Hlen Hhot.
  exists (score_splits (map (Qmult c) probs) outcome),
         (score_splits probs outcome).
  split; [apply ordered_brier_valid; rewrite ?length_map; assumption|].
  split; [apply ordered_brier_valid; assumption|].
  rewrite (score_splits_spec (map (Qmult c) probs) outcome)
    by (rewrite length_map; exact Hlen).
  rewrite (score_splits_spec probs outcome Hlen).
  unfold spec_ordered_brier. rewrite length_map.
  apply Qdiv_comp; [|reflexivity].
  apply np_sum_map_ext. intros j _.
  assert (Hcs : 0 < np_sum (map (Qmult c) probs))
    by (rewrite np_sum_times; nra).
  rewrite !cumulative_rescaled by assumption.
  unfold spec_cumulative. rewrite firstn_map, !np_sum_times.
  assert (E : c * np_sum (firstn (S j) probs) / (c * np_sum probs)
              == np_sum (firstn (S j) probs) / np_sum probs)
    by (field; split; lra).
  rewrite E. reflexivity.
Qed.

Lemma ordered_brier_scale_invariant_witness :
  exists s1 s2,
    ordered_brier_from_distribution
      (Array1 (map (Qmult 100) [1 # 10; 6 # 10; 3 # 10])) (Array1 [0; 0; 1])
    = Ok s1
    /\ ordered_brier_from_distribution
         (Array1 [1 # 10; 6 # 10; 3 # 10]) (Array1 [0; 0; 1]) = Ok s2
    /\ s1 == s2.
Proof.
  apply ordered_brier_scale_invariant.
  - reflexivity.
  - reflexivity.
  - simpl; lia.
  - reflexivity.
  - exists [0; 0], 1, [].
    repeat split; try reflexivity; repeat constructor; reflexivity.
Defined.
End OrderedBrierMoreFacts.


(** ** The trimmed mean *)

Section TrimmedMeanFacts.
Import TrimmedMean.

Lemma insert_q_In x y l : In y (insert_q x l) <-> y = x \/ In y l.
Proof.
  induction l as [|z t IH]; simpl; [intuition auto|].
  destruct (Qle_bool x z); simpl; [|rewrite IH]; intuition auto.
Qed.

Lemma np_sort_In y l : In y (np_sort l) <-> In y l.
Proof.
  induction l as [|x t IH]; simpl; [tauto|].
  rewrite insert_q_In, IH. intuition auto.
Qed.

Lemma insert_q_length x l :
  List.length (insert_q x l) = S (List.length l).
Proof.
  induction l as [|z t IH]; simpl; [reflexivity|].
  destruct (Qle_bool x z); simpl; [|rewrite IH]; reflexivity.
Qed.

Lemma np_sort_length l : List.length (np_sort l) = List.length l.
Proof.
  induction l as [|x t IH]; simpl; [reflexivity|].
  rewrite insert_q_length, IH. reflexivity.
Qed.



Lemma firstn_subset (A : Type) n : forall (l : list A) x,
  In x (firstn n l) -> In x l.
Proof.
  induction n as [|n IH]; intros [|y t] x; simpl; try tauto.
  intros [E|H]; [auto | right; apply IH; exact H].
Qed.

Lemma skipn_subset (A : Type) n : forall (l : list A) x,
  In x (skipn n l) -> In x l.
Proof.
  induction n as [|n IH]; intros [|y t] x; simpl; try tauto.
  intros H. right. apply IH. exact H.
Qed.

Lemma py_slice_incl arr start stop x :
  In x (py_slice arr start stop) -> In x arr.
Proof.
  unfold py_slice. intros H. apply firstn_subset in H.
  eapply skipn_subset; exact H.
Qed.

(** The slice kept by the trimming is never empty. *)
Lemma trimmed_slice_nonempty arr k :
  arr <> [] ->
  (k * 2 < Z.of_nat (List.length arr))%Z ->
  py_slice arr k (Z.of_nat (List.length arr) - k) <> [].
Proof.
  intros Hne Hk. unfold py_slice, slice_bound.
  set (n := Z.of_nat (List.length arr)) in *.
  assert (Hn : (1 <= n)%Z)
    by (unfold n; destruct arr; [congruence | simpl List.length; lia]).
  intros E. apply (f_equal (@List.length Q)) in E.
  rewrite length_firstn, length_skipn in E. simpl in E.
  destruct (k <? 0)%Z eqn:E1; destruct (n - k <? 0)%Z eqn:E2;
    try apply Z.ltb_lt in E1; try apply Z.ltb_ge in E1;
    try apply Z.ltb_lt in E2; try apply Z.ltb_ge in E2;
    unfold n in *; lia.
Qed.

Lemma mean_or_nan_bounds (lo hi : Q) l :
  l <> [] ->
  (forall x, In x l -> lo <= x <= hi) ->
  exists v, mean_or_nan l = Some v /\ lo <= v <= hi.
Proof.
  intros Hne H. unfold mean_or_nan.
  destruct l as [|x t] eqn:El; [congruence|]. rewrite <- El in *.
  eexists. split; [reflexivity|].
  pose proof (@np_sum_bounds _ (fun x => x) lo hi l H) as [Hlo Hhi].
  rewrite map_id in Hlo, Hhi. unfold OrderedBrier.np_sum in Hlo, Hhi.
  assert (Hn : 0 < inject_Z (Z.of_nat (List.length l))).
  { change 0 with (inject_Z 0). rewrite <- Zlt_Qlt.
    rewrite El. simpl List.length. lia. }
  split.
  - apply Qle_shift_div_l; [exact Hn | lra].
  - apply Qle_shift_div_r; [exact Hn | lra].
Qed.

(** X12.  On a non-empty input the trimmed mean is a number between the
    smallest and the largest input, whatever the trim fraction; so it lies
    in [0, 1] for probabilities.  On the empty input it is NaN. *)
Theorem trimmed_mean_within_input_range (lo hi : Q) probs trim_frac :
  probs <> [] ->
  Forall (fun x => lo <= x <= hi) probs ->
  (exists v, trimmed_mean_prob probs trim_frac = Some v /\ lo <= v <= hi)
  /\ trimmed_mean_prob [] trim_frac = None.
Proof.
  intros Hne Hall. split; [|reflexivity]. unfold trimmed_mean_prob.
  replace (List.length probs =? 0)%nat with false
    by (destruct probs; [congruence | reflexivity]).
  assert (Hs : np_sort probs <> []).
  { intros E. apply (f_equal (@List.length Q)) in E.
    rewrite np_sort_length in E. destruct probs; [congruence | discriminate]. }
  assert (Hin : forall x, In x (np_sort probs) -> lo <= x <= hi).
  { intros x Hx. rewrite np_sort_In in Hx. rewrite Forall_forall in Hall.
    apply Hall. exact Hx. }
  destruct (_ * 2 >=? _)%Z eqn:E.
  - apply mean_or_nan_bounds; assumption.
  - apply mean_or_nan_bounds.
    + apply trimmed_slice_nonempty; [exact Hs|].
      rewrite Z.geb_leb in E. apply Z.leb_gt in E. exact E.
    + intros x Hx. apply Hin. eapply py_slice_incl; exact Hx.
Qed.

Lemma trimmed_mean_within_input_range_witness :
  exists v,
    trimmed_mean_prob [2; 2; 4; 8; 2; 0; 0; 8; 0; 8] (1 # 10) = Some v
    /\ 0 <= v <= 8.
Proof.
  refine (proj1 (@trimmed_mean_within_input_range
                   0 8 [2; 2; 4; 8; 2; 0; 0; 8; 0; 8] (1 # 10) _ _)).
  - discriminate.
  - repeat constructor; discriminate.
Defined.



End TrimmedMeanFacts.


(** ** The geometric means: agreement and symmetry *)

Section MeansMoreFacts.
Import Means.
Local Open Scope R_scope.

Lemma np_clip_inside x :
  EPS <= x <= 1 - EPS -> np_clip EPS (1 - EPS) x = x.
Proof.
  intros [H1 H2]. unfold np_clip.
  rewrite Rmax_left by exact H1. apply Rmin_left. exact H2.
Qed.

Lemma arr_mean_constant (c : R) (l : list R) :
  l <> [] -> Forall (fun x => x = c) l -> arr_mean l = c.
Proof.
  intros Hne Hall.
  assert (Hs : arr_sum l = INR (List.length l) * c).
  { induction Hall as [|x t Hx Ht IH].
    - simpl. ring.
    - change (List.length (x :: t)) with (S (List.length t)).
      rewrite S_INR. simpl arr_sum.
      destruct t as [|y t'].
      + simpl. subst x. ring.
      + rewrite IH by discriminate. subst x. ring. }
  assert (Hn : 0 < INR (List.length l)).
  { apply lt_0_INR. destruct l; [congruence | simpl; lia]. }
  unfold arr_mean. rewrite Hs. field. lra.
Qed.

(** X14.  When all forecasters give the same probability [p], within the
    clipping bounds, both geometric means return exactly [p]. *)
Theorem geometric_means_of_unanimous_forecast (p : R) (l : list R) :
  l <> [] ->
  EPS <= p <= 1 - EPS ->
  Forall (fun x => x = p) l ->
  geometric_mean_prob l = Finite p /\ geometric_mean_odds l = Finite p.
Proof.
  intros Hne Hp Hall. pose proof EPS_pos as He.
  assert (H01 : Forall (fun x => 0 <= x <= 1) l).
  { apply Forall_forall. intros x Hx. rewrite Forall_forall in Hall.
    rewrite (Hall x Hx). unfold EPS in *. lra. }
  assert (Hclip : map (np_clip EPS (1 - EPS)) l = l).
  { rewrite <- (map_id l) at 2. apply map_ext_in. intros x Hx.
    rewrite Forall_forall in Hall. rewrite (Hall x Hx).
    apply np_clip_inside. exact Hp. }
  split.
  - unfold geometric_mean_prob.
    rewrite (nonempty_size Hne), (any_below_false H01), Hclip.
    rewrite (arr_mean_constant (c := ln p)).
    + rewrite exp_ln by lra. reflexivity.
    + destruct l; [congruence | discriminate].
    + apply Forall_forall. intros y Hy. apply in_map_iff in Hy.
      destruct Hy as [x [<- Hx]]. rewrite Forall_forall in Hall.
      rewrite (Hall x Hx). reflexivity.
  - unfold geometric_mean_odds.
    rewrite (nonempty_size Hne), (any_below_false H01),
      (any_above_false H01), Hclip. simpl.
    rewrite (arr_mean_constant (c := ln (p / (1 - p)))).
    + assert (Ho : 0 < p / (1 - p))
        by (apply Rdiv_lt_0_compat; unfold EPS in *; lra).
      rewrite exp_ln by exact Ho. f_equal. field. unfold EPS in *. lra.
    + destruct l; [congruence | discriminate].
    + apply Forall_forall. intros y Hy. apply in_map_iff in Hy.
      destruct Hy as [o [<- Ho]]. apply in_map_iff in Ho.
      destruct Ho as [x [<- Hx]]. rewrite Forall_forall in Hall.
      rewrite (Hall x Hx). reflexivity.
Qed.

Lemma geometric_means_of_unanimous_forecast_witness :
  geometric_mean_prob [1 / 4; 1 / 4; 1 / 4] = Finite (1 / 4)
  /\ geometric_mean_odds [1 / 4; 1 / 4; 1 / 4] = Finite (1 / 4).
Proof.
  apply geometric_means_of_unanimous_forecast.
  - discriminate.
  - unfold EPS. lra.
  - repeat constructor.
Defined.

Lemma np_clip_complement x :
  np_clip EPS (1 - EPS) (1 - x) = 1 - np_clip EPS (1 - EPS) x.
Proof.
  unfold np_clip, Rmin, Rmax, EPS.
  repeat destruct (Rle_dec _ _); lra.
Qed.

Lemma arr_sum_opp l : arr_sum (map Ropp l) = - arr_sum l.
Proof.
  induction l as [|x t IH]; simpl; [ring | rewrite IH; ring].
Qed.

(** X15.  The geometric mean of odds treats an outcome and its complement
    alike: on the complemented probabilities [1 - p] it returns the
    complement of what it returns on the [p]. *)
Theorem geometric_mean_odds_complement (l : list R) :
  l <> [] ->
  Forall (fun x => 0 <= x <= 1) l ->
  exists v,
    geometric_mean_odds l = Finite v
    /\ geometric_mean_odds (map (fun x => 1 - x) l) = Finite (1 - v).
Proof.
  intros Hne Hall.
  assert (Hall' : Forall (fun x => 0 <= x <= 1) (map (fun x => 1 - x) l)).
  { apply Forall_forall. intros y Hy. apply in_map_iff in Hy.
    destruct Hy as [x [<- Hx]]. rewrite Forall_forall in Hall.
    specialize (Hall x Hx). lra. }
  assert (Hne' : map (fun x => 1 - x) l <> [])
    by (destruct l; [congruence | discriminate]).
  unfold geometric_mean_odds.
  rewrite (nonempty_size Hne), (any_below_false Hall),
    (any_above_false Hall), (nonempty_size Hne'), (any_below_false Hall'),
    (any_above_false Hall'). simpl.
  eexists. split; [reflexivity|]. f_equal.
  set (logodds := map ln (map (fun a => a / (1 - a))
                               (map (np_clip EPS (1 - EPS)) l))).
  assert (E : map ln (map (fun a => a / (1 - a))
                          (map (np_clip EPS (1 - EPS))
                               (map (fun x => 1 - x) l)))
              = map Ropp logodds).
  { unfold logodds. rewrite !map_map. apply map_ext. intros x.
    rewrite np_clip_complement.
    pose proof (np_clip_bounds x) as [H1 H2]. pose proof EPS_pos.
    set (c := np_clip EPS (1 - EPS) x) in *.
    replace ((1 - c) / (1 - (1 - c))) with (/ (c / (1 - c)))
      by (field; lra).
    apply ln_Rinv. apply Rdiv_lt_0_compat; lra. }
  rewrite E. unfold arr_mean. rewrite arr_sum_opp, length_map.
  replace (- arr_sum logodds / INR (List.length logodds))
    with (- (arr_sum logodds / INR (List.length logodds)))
    by (unfold Rdiv; ring).
  rewrite exp_Ropp.
  match goal with |- context [exp ?m] => pose proof (exp_pos m) as Ho;
    set (o := exp m) in * end.
  field. lra.
Qed.

Lemma geometric_mean_odds_complement_witness :
  exists v,
    geometric_mean_odds [1 / 10; 1 / 5] = Finite v
    /\ geometric_mean_odds (map (fun x => 1 - x) [1 / 10; 1 / 5])
       = Finite (1 - v).
Proof.
  apply geometric_mean_odds_complement.
  - discriminate.
  - repeat constructor; lra.
Defined.
End MeansMoreFacts.


(** ** The aggregate table: keys, distributions, idempotence *)

Section AggregateTableFacts.
Import CarryForward Aggregation.

Lemma key3_eqb_eq (a b : key3) : key3_eqb a b = true <-> a = b.
Proof.
  destruct a as [[a1 a2] a3], b as [[b1 b2] b3]. unfold key3_eqb; simpl.
  rewrite !andb_true_iff, !Z.eqb_eq.
  split; [intros [[-> ->] ->]; reflexivity | intros E; inversion E; auto].
Qed.

Lemma key3_leb_total (a b : key3) :
  key3_leb a b = false -> key3_leb b a = true.
Proof.
  destruct a as [[a1 a2] a3], b as [[b1 b2] b3]. unfold key3_leb; simpl.
  destruct (a1 =? b1)%Z eqn:E1, (b1 =? a1)%Z eqn:E1',
           (a2 =? b2)%Z eqn:E2, (b2 =? a2)%Z eqn:E2';
    rewrite ?Z.eqb_eq, ?Z.eqb_neq, ?Z.leb_le, ?Z.ltb_lt,
      ?Z.leb_gt, ?Z.ltb_ge in *; lia.
Qed.

Lemma key3_leb_trans (a b c : key3) :
  key3_leb a b = true -> key3_leb b c = true -> key3_leb a c = true.
Proof.
  destruct a as [[a1 a2] a3], b as [[b1 b2] b3], c as [[c1 c2] c3].
  unfold key3_leb; simpl.
  destruct (a1 =? b1)%Z eqn:E1, (b1 =? c1)%Z eqn:E2, (a1 =? c1)%Z eqn:E3,
           (a2 =? b2)%Z eqn:E4, (b2 =? c2)%Z eqn:E5, (a2 =? c2)%Z eqn:E6;
    rewrite ?Z.eqb_eq, ?Z.eqb_neq, ?Z.leb_le, ?Z.ltb_lt in *; lia.
Qed.

Lemma insert_key3_perm k l : Permutation (k :: l) (insert_key3 k l).
Proof.
  induction l as [|y t IH]; simpl; [reflexivity|].
  destruct (key3_leb k y); [reflexivity|].
  rewrite perm_swap. constructor. exact IH.
Qed.

Lemma sort_key3_perm l : Permutation l (fold_right insert_key3 [] l).
Proof.
  induction l as [|x t IH]; simpl; [constructor|].
  rewrite <- insert_key3_perm. constructor. exact IH.
Qed.

Lemma insert_key3_sorted k l :
  StronglySorted (fun a b => key3_leb a b = true) l ->
  StronglySorted (fun a b => key3_leb a b = true) (insert_key3 k l).
Proof.
  induction l as [|y t IH]; simpl; intros Hs.
  - constructor; constructor.
  - inversion Hs as [|? ? Ht Hy]; subst.
    destruct (key3_leb k y) eqn:E.
    + constructor; [exact Hs|]. constructor; [exact E|].
      rewrite Forall_forall in *. intros z Hz.
      eapply key3_leb_trans; [exact E | apply Hy; exact Hz].
    + constructor; [apply IH; exact Ht|].
      rewrite Forall_forall in *. intros z Hz.
      apply (Permutation_in _ (Permutation_sym (insert_key3_perm k t))) in Hz.
      destruct Hz as [<-|Hz]; [apply key3_leb_total; exact E | auto].
Qed.

Lemma sort_key3_sorted l :
  StronglySorted (fun a b => key3_leb a b = true)
                 (fold_right insert_key3 [] l).
Proof.
  induction l as [|x t IH]; simpl; [constructor|].
  apply insert_key3_sorted. exact IH.
Qed.

Lemma insert_row_keys r l :
  map row_key3 (insert_row r l) = insert_key3 (row_key3 r) (map row_key3 l).
Proof.
  induction l as [|y t IH]; simpl; [reflexivity|].
  destruct (key3_leb (row_key3 r) (row_key3 y)); simpl; [reflexivity|].
  rewrite IH. reflexivity.
Qed.

Lemma sort_rows_keys l :
  map row_key3 (fold_right insert_row [] l)
  = fold_right insert_key3 [] (map row_key3 l).
Proof.
  induction l as [|x t IH]; simpl; [reflexivity|].
  rewrite insert_row_keys, IH. reflexivity.
Qed.

Lemma pooled_keys (m md tm gp go : list Q -> cell) snaps :
  map row_key3 (pooled_aggregates m md tm gp go snaps)
  = fold_right insert_key3 []
      (fold_right insert_key3 []
         (unique key3_eqb
                 (map (fun s => (s_qid s, s_day s, s_aso s)) snaps))).
Proof.
  unfold pooled_aggregates. rewrite sort_rows_keys, map_map. f_equal.
  rewrite <- (map_id (fold_right insert_key3 [] _)) at 2.
  apply map_ext. intros [[a b] c]. reflexivity.
Qed.

Lemma set_col_key3 c v r : row_key3 (set_col c v r) = row_key3 r.
Proof. destruct c; reflexivity. Qed.

Lemma divide_where_keys col : forall agg mask totals,
  map row_key3 (divide_where col agg mask totals) = map row_key3 agg.
Proof.
  induction agg as [|r t IH]; intros mask totals; simpl; [reflexivity|].
  destruct mask as [|mb mask]; [reflexivity|].
  destruct totals as [|x totals]; [reflexivity|]. simpl.
  rewrite IH. destruct mb; [rewrite set_col_key3|]; reflexivity.
Qed.

Lemma renormalize_keys agg :
  map row_key3 (renormalize agg) = map row_key3 agg.
Proof.
  unfold renormalize.
  generalize (map (fun n => (1 <? n)%nat) (transform_size agg)) as mb.
  intros mb. revert agg. induction PROB_COLS as [|c cols IH]; intros agg;
    simpl; [reflexivity|].
  rewrite IH. unfold renormalize_col. apply divide_where_keys.
Qed.

Lemma aggregate_keys (m md tm gp go : list Q -> cell) snaps :
  map row_key3 (aggregate_across_forecasters m md tm gp go snaps)
  = map row_key3 (pooled_aggregates m md tm gp go snaps).
Proof.
  rewrite aggregate_unfolded, map_map.
  etransitivity; [|apply renormalize_keys].
  apply map_ext. intros r. reflexivity.
Qed.

(** X16.  The aggregate table has exactly one row per distinct (question,
    day, answer) of the snapshots, and its rows are sorted by that key. *)
Theorem aggregate_rows_uniquely_keyed (m md tm gp go : list Q -> cell) snaps :
  let keys :=
    map row_key3 (aggregate_across_forecasters m md tm gp go snaps) in
  NoDup keys
  /\ StronglySorted (fun a b => key3_leb a b = true) keys
  /\ (forall k, In k keys
                <-> exists s, In s snaps /\ (s_qid s, s_day s, s_aso s) = k).
Proof.
  intros keys. unfold keys. rewrite aggregate_keys, pooled_keys.
  set (U := unique key3_eqb (map (fun s => (s_qid s, s_day s, s_aso s)) snaps)).
  assert (HP : Permutation U
                 (fold_right insert_key3 [] (fold_right insert_key3 [] U))).
  { eapply Permutation_trans; apply sort_key3_perm. }
  split; [|split].
  - apply (Permutation_NoDup HP). apply unique_NoDup. exact key3_eqb_eq.
  - apply sort_key3_sorted.
  - intros k. split.
    + intros Hk. apply (Permutation_in _ (Permutation_sym HP)) in Hk.
      unfold U in Hk. rewrite (unique_In key3_eqb key3_eqb_eq) in Hk.
      apply in_map_iff in Hk. destruct Hk as [s [E Hs]]. exists s. auto.
    + intros [s [Hs E]]. apply (Permutation_in _ HP).
      unfold U. rewrite (unique_In key3_eqb key3_eqb_eq).
      apply in_map_iff. exists s. auto.
Qed.

(** The column of a group after renormalisation, from the group before. *)
Lemma renormalize_group_col agg q d col :
  let raw := group_of agg q d in
  let total := nansum (map (get_col col) raw) in
  map (get_col col) (group_of (renormalize agg) q d)
  = map (fun c => if (1 <? List.length raw)%nat && negb (Qle_bool total 0)
                  then cell_div c total else c)
        (map (get_col col) raw).
Proof.
  intros raw total.
  destruct (renormalize_rows agg) as [F [E [HF Hcell]]]. rewrite E.
  rewrite (group_of_map _ _ _ HF). fold raw. rewrite !map_map.
  apply map_ext_in. intros r Hr. rewrite Hcell.
  unfold raw, group_of in Hr. apply filter_In in Hr. destruct Hr as [_ Hk].
  apply andb_true_iff in Hk. destruct Hk as [Hq Hd].
  apply Z.eqb_eq in Hq, Hd.
  unfold renormalized_cell, multi_bucket_row, group_total.
  rewrite Hq, Hd. reflexivity.
Qed.

Lemma nansum_upper l x :
  Forall (fun c => exists y, c = Some y /\ 0 <= y) l ->
  In (Some x) l -> x <= nansum l.
Proof.
  induction 1 as [|c t [y [-> Hy]] Ht IH]; simpl; intros Hin; [contradiction|].
  assert (Hn : 0 <= nansum t).
  { clear IH Hin. induction Ht as [|c' t' [y' [-> Hy']] Ht' IH']; simpl;
      [discriminate | lra]. }
  destruct Hin as [E|Hin].
  - inversion E; subst. lra.
  - specialize (IH Hin). lra.
Qed.

(** X17.  In a group with at least two buckets, a method column whose
    pooled values are non-negative numbers with a positive sum comes out as
    a probability distribution: every emitted value is a number in
    [0, 1]. *)
Theorem aggregate_emits_probabilities
        (m md tm gp go : list Q -> cell) snaps q d col :
  let raw := group_of (pooled_aggregates m md tm gp go snaps) q d in
  let out :=
    group_of (aggregate_across_forecasters m md tm gp go snaps) q d in
  (2 <= List.length raw)%nat ->
  Forall (fun c => exists y, c = Some y /\ 0 <= y) (map (get_col col) raw) ->
  0 < nansum (map (get_col col) raw) ->
  Forall (fun c => exists y, c = Some y /\ 0 <= y <= 1)
         (map (get_col col) out).
Proof.
  intros raw out Hlen Hpos Htot.
  pose proof (aggregate_group_col m md tm gp go snaps q d col) as H.
  simpl in H. fold raw in H. fold out in H. rewrite H.
  replace (1 <? List.length raw)%nat with true
    by (symmetry; apply Nat.ltb_lt; lia).
  replace (negb (Qle_bool (nansum (map (get_col col) raw)) 0)) with true
    by (symmetry; apply positive_sum_test; exact Htot).
  simpl. apply Forall_forall. intros c Hc. apply in_map_iff in Hc.
  destruct Hc as [r [<- Hr]].
  assert (Hin : In (get_col col r) (map (get_col col) raw))
    by (apply in_map; exact Hr).
  pose proof Hpos as Hpos'. rewrite Forall_forall in Hpos'.
  destruct (Hpos' _ Hin) as [y [Ey Hy]]. rewrite Ey in *.
  exists (y / nansum (map (get_col col) raw)). split; [reflexivity|].
  pose proof (@nansum_upper _ y Hpos Hin) as Hup. split.
  - apply Qle_shift_div_l; [exact Htot | lra].
  - apply Qle_shift_div_r; [exact Htot | lra].
Qed.

Lemma aggregate_emits_probabilities_witness :
  Forall (fun c => exists y, c = Some y /\ 0 <= y <= 1)
         (map (get_col mean_col)
              (group_of (aggregate_across_forecasters
                           mean_reducer mean_reducer mean_reducer
                           mean_reducer mean_reducer example_snapshots)
                        1 0)).
Proof.
  apply aggregate_emits_probabilities.
  - vm_compute. constructor.
  - repeat constructor; eexists; (split; [reflexivity | discriminate]).
  - vm_compute. reflexivity.
Defined.

Import AggregateContract.

Lemma Forall2_map_left (A : Type) (R : A -> A -> Prop) (g : A -> A) l :
  (forall x, R (g x) x) -> Forall2 R (map g l) l.
Proof.
  intros H. induction l as [|x t IH]; simpl; constructor; auto.
Qed.

Lemma same_cell_refl c : same_cell c c.
Proof. destruct c; simpl; [reflexivity | exact I]. Qed.

(** Renormalising a column of cells a second time changes nothing. *)
Lemma renormalize_cells_twice (n : nat) (cells : list cell) :
  let f := fun (T : Q) (c : cell) =>
             if (1 <? n)%nat && negb (Qle_bool T 0) then cell_div c T
             else c in
  let cells1 := map (f (nansum cells)) cells in
  Forall2 same_cell (map (f (nansum cells1)) cells1) cells1.
Proof.
  intros f cells1.
  destruct ((1 <? n)%nat && negb (Qle_bool (nansum cells) 0)) eqn:Eb.
  - apply andb_true_iff in Eb. destruct Eb as [En Ep].
    apply positive_sum_test in Ep.
    assert (E1 : cells1 = map (fun c => cell_div c (nansum cells)) cells).
    { unfold cells1, f. apply map_ext. intros c.
      rewrite En. replace (negb (Qle_bool (nansum cells) 0)) with true
        by (symmetry; apply positive_sum_test; exact Ep).
      reflexivity. }
    assert (HT : nansum cells1 == 1)
      by (rewrite E1, nansum_div; field; lra).
    apply Forall2_map_left. intros c. unfold f. rewrite En.
    replace (negb (Qle_bool (nansum cells1) 0)) with true
      by (symmetry; apply positive_sum_test; rewrite HT; reflexivity).
    simpl. destruct c as [x|]; simpl; [|exact I].
    rewrite HT. field.
  - assert (E1 : cells1 = cells).
    { unfold cells1, f. rewrite <- (map_id cells) at 2. apply map_ext.
      intros c. rewrite Eb. reflexivity. }
    rewrite E1. apply Forall2_map_left. intros c. unfold f. rewrite Eb.
    apply same_cell_refl.
Qed.

Lemma group_of_renormalize_length agg q d :
  List.length (group_of (renormalize agg) q d)
  = List.length (group_of agg q d).
Proof.
  destruct (renormalize_rows agg) as [F [E [HF _]]]. rewrite E.
  rewrite (group_of_map _ _ _ HF). apply length_map.
Qed.

(** X18.  Renormalising an already renormalised table is a no-op: every
    method column of every (question, day) group keeps its values. *)
Theorem renormalize_idempotent agg q d col :
  Forall2 same_cell
          (map (get_col col) (group_of (renormalize (renormalize agg)) q d))
          (map (get_col col) (group_of (renormalize agg) q d)).
Proof.
  rewrite (renormalize_group_col (renormalize agg) q d col).
  rewrite group_of_renormalize_length.
  rewrite (renormalize_group_col agg q d col).
  apply renormalize_cells_twice.
Qed.

(** *** A question-day is aggregated on its own *)

Lemma filter_swap (A : Type) (P R : A -> bool) (l : list A) :
  filter P (filter R l) = filter R (filter P l).
Proof.
  rewrite !filter_filter'. apply filter_ext. intros x. apply andb_comm.
Qed.

Lemma unique_filter (A : Type) (eqb : A -> A -> bool) (P : A -> bool) l :
  (forall x y, eqb x y = true -> P x = P y) ->
  filter P (unique eqb l) = unique eqb (filter P l).
Proof.
  intros HP. induction l as [|x t IH]; simpl; [reflexivity|].
  destruct (P x) eqn:Ex; simpl.
  - rewrite filter_swap, IH. reflexivity.
  - rewrite <- IH. apply filter_filter_implied.
    intros y Hy. apply negb_true_iff.
    destruct (eqb x y) eqn:E; [|reflexivity].
    apply HP in E. congruence.
Qed.

Lemma insert_key3_filter (P : key3 -> bool) k l :
  StronglySorted (fun a b => key3_leb a b = true) l ->
  filter P (insert_key3 k l)
  = if P k then insert_key3 k (filter P l) else filter P l.
Proof.
  induction l as [|y t IH]; simpl; intros Hs.
  - destruct (P k); reflexivity.
  - inversion Hs as [|? ? Ht Hy]; subst. specialize (IH Ht).
    destruct (key3_leb k y) eqn:E; simpl.
    + destruct (P k) eqn:Ek; [|reflexivity].
      destruct (P y) eqn:Ey; simpl; [rewrite E; reflexivity|].
      clear IH. rewrite Forall_forall in Hy.
      assert (Hall : forall z, In z t -> key3_leb k z = true)
        by (intros z Hz; eapply key3_leb_trans; [exact E | apply Hy; exact Hz]).
      clear Hy Hs Ht. induction t as [|z t IHt]; simpl; [reflexivity|].
      destruct (P z); simpl.
      * rewrite (Hall z (or_introl eq_refl)). reflexivity.
      * apply IHt. intros w Hw. apply Hall. right; exact Hw.
    + rewrite IH. destruct (P y) eqn:Ey; simpl.
      * destruct (P k); simpl; [rewrite E|]; reflexivity.
      * destruct (P k); reflexivity.
Qed.

Lemma sort_key3_filter (P : key3 -> bool) l :
  filter P (fold_right insert_key3 [] l)
  = fold_right insert_key3 [] (filter P l).
Proof.
  induction l as [|x t IH]; simpl; [reflexivity|].
  rewrite insert_key3_filter by apply sort_key3_sorted.
  rewrite IH. destruct (P x); reflexivity.
Qed.

Lemma insert_row_In r z l : In z (insert_row r l) <-> z = r \/ In z l.
Proof.
  induction l as [|y t IH]; simpl; [intuition auto|].
  destruct (key3_leb (row_key3 r) (row_key3 y)); simpl; [|rewrite IH];
    intuition auto.
Qed.

Lemma insert_row_sorted r l :
  StronglySorted (fun a b => key3_leb (row_key3 a) (row_key3 b) = true) l ->
  StronglySorted (fun a b => key3_leb (row_key3 a) (row_key3 b) = true)
                 (insert_row r l).
Proof.
  induction l as [|y t IH]; simpl; intros Hs.
  - constructor; constructor.
  - inversion Hs as [|? ? Ht Hy]; subst.
    destruct (key3_leb (row_key3 r) (row_key3 y)) eqn:E.
    + constructor; [exact Hs|]. constructor; [exact E|].
      rewrite Forall_forall in *. intros z Hz.
      eapply key3_leb_trans; [exact E | apply Hy; exact Hz].
    + constructor; [apply IH; exact Ht|].
      rewrite Forall_forall in *. intros z Hz.
      apply insert_row_In in Hz.
      destruct Hz as [->|Hz]; [apply key3_leb_total; exact E | auto].
Qed.

Lemma sort_rows_sorted l :
  StronglySorted (fun a b => key3_leb (row_key3 a) (row_key3 b) = true)
                 (fold_right insert_row [] l).
Proof.
  induction l as [|x t IH]; simpl; [constructor|].
  apply insert_row_sorted. exact IH.
Qed.

Lemma insert_row_filter (P : agg_row -> bool) r l :
  StronglySorted (fun a b => key3_leb (row_key3 a) (row_key3 b) = true) l ->
  filter P (insert_row r l)
  = if P r then insert_row r (filter P l) else filter P l.
Proof.
  induction l as [|y t IH]; simpl; intros Hs.
  - destruct (P r); reflexivity.
  - inversion Hs as [|? ? Ht Hy]; subst. specialize (IH Ht).
    destruct (key3_leb (row_key3 r) (row_key3 y)) eqn:E; simpl.
    + destruct (P r) eqn:Ek; [|reflexivity].
      destruct (P y) eqn:Ey; simpl; [rewrite E; reflexivity|].
      clear IH. rewrite Forall_forall in Hy.
      assert (Hall : forall z, In z t ->
                key3_leb (row_key3 r) (row_key3 z) = true)
        by (intros z Hz; eapply key3_leb_trans; [exact E | apply Hy; exact Hz]).
      clear Hy Hs Ht. induction t as [|z t IHt]; simpl; [reflexivity|].
      destruct (P z); simpl.
      * rewrite (Hall z (or_introl eq_refl)). reflexivity.
      * apply IHt. intros w Hw. apply Hall. right; exact Hw.
    + rewrite IH. destruct (P y) eqn:Ey; simpl.
      * destruct (P r); simpl; [rewrite E|]; reflexivity.
      * destruct (P r); reflexivity.
Qed.

Lemma sort_rows_filter (P : agg_row -> bool) l :
  filter P (fold_right insert_row [] l)
  = fold_right insert_row [] (filter P l).
Proof.
  induction l as [|x t IH]; simpl; [reflexivity|].
  rewrite insert_row_filter by apply sort_rows_sorted.
  rewrite IH. destruct (P x); reflexivity.
Qed.

Lemma filter_map_comm (A B : Type) (f : A -> B) (P : B -> bool) l :
  filter P (map f l) = map f (filter (fun x => P (f x)) l).
Proof.
  induction l as [|x t IH]; simpl; [reflexivity|].
  destruct (P (f x)); simpl; rewrite IH; reflexivity.
Qed.

(** The pooled rows of a (question, day) are the pooled table of that
    question-day's snapshots alone. *)
Lemma pooled_group (m md tm gp go : list Q -> cell) snaps q d :
  group_of (pooled_aggregates m md tm gp go snaps) q d
  = pooled_aggregates m md tm gp go (question_day q d snaps).
Proof.
  unfold group_of, pooled_aggregates, question_day.
  set (Pk := fun k : key3 => (fst (fst k) =? q)%Z && (snd (fst k) =? d)%Z).
  set (key := fun s => (s_qid s, s_day s, s_aso s)).
  rewrite sort_rows_filter, filter_map_comm. simpl.
  change (fun x : key3 => (fst (fst x) =? q)%Z && (snd (fst x) =? d)%Z)
    with Pk.
  rewrite sort_key3_filter.
  rewrite unique_filter
    by (intros x y E; apply key3_eqb_eq in E; subst; reflexivity).
  rewrite (filter_map_comm key Pk). f_equal.
  apply map_ext_in. intros k Hk.
  assert (HPk : Pk k = true).
  { apply (Permutation_in _ (Permutation_sym (sort_key3_perm _))) in Hk.
    apply unique_incl in Hk. apply in_map_iff in Hk.
    destruct Hk as [s [<- Hs]]. apply filter_In in Hs. tauto. }
  assert (Eb : filter (fun s => key3_eqb (s_qid s, s_day s, s_aso s) k)
                      (filter (fun s => (s_qid s =? q)%Z && (s_day s =? d)%Z)
                              snaps)
               = filter (fun s => key3_eqb (s_qid s, s_day s, s_aso s) k)
                        snaps).
  { apply filter_filter_implied. intros s Hs. apply key3_eqb_eq in Hs.
    rewrite <- Hs in HPk. exact HPk. }
  unfold key in *. rewrite Eb. reflexivity.
Qed.

(** X19.  Question-days do not interact: the aggregate rows of a
    (question, day) depend only on the snapshots of that question and day.
    Two snapshot tables that agree there give the same pooled rows and the
    same five method columns. *)
Theorem aggregate_question_day_local
        (m md tm gp go : list Q -> cell) snaps snaps' q d :
  question_day q d snaps = question_day q d snaps' ->
  group_of (pooled_aggregates m md tm gp go snaps) q d
  = group_of (pooled_aggregates m md tm gp go snaps') q d
  /\ forall col,
      map (get_col col)
          (group_of (aggregate_across_forecasters m md tm gp go snaps) q d)
      = map (get_col col)
            (group_of (aggregate_across_forecasters m md tm gp go snaps') q d).
Proof.
  intros E.
  assert (Hp : group_of (pooled_aggregates m md tm gp go snaps) q d
               = group_of (pooled_aggregates m md tm gp go snaps') q d)
    by (rewrite !pooled_group, E; reflexivity).
  split; [exact Hp|]. intros col.
  rewrite !aggregate_group_col. rewrite Hp. reflexivity.
Qed.

Lemma aggregate_question_day_local_witness :
  map (get_col mean_col)
      (group_of (aggregate_across_forecasters
                   mean_reducer mean_reducer mean_reducer mean_reducer
                   mean_reducer example_snapshots) 1 0)
  = map (get_col mean_col)
        (group_of (aggregate_across_forecasters
                     mean_reducer mean_reducer mean_reducer mean_reducer
                     mean_reducer
                     (example_snapshots
                        ++ [ {| s_qid := 2; s_guid := "X"; s_day := 0;
                                s_aso := 0; s_prob := 1;
                                s_resolved_probability := None;
                                s_correctness_known_day := None |} ]))
                  1 0).
Proof.
  refine (proj2 (@aggregate_question_day_local
                   mean_reducer mean_reducer mean_reducer mean_reducer
                   mean_reducer example_snapshots _ 1%Z 0%Z _) mean_col).
  reflexivity.
Defined.

(** X20.  Trimming leaves the aggregates up to the freeze day untouched:
    for every day on or before the freeze day, the pooled rows and the five
    method columns of each question are those of the untrimmed run. *)
Theorem trim_keeps_pre_freeze_aggregates
        (m md tm gp go : list Q -> cell) freeze excl snaps q d :
  (d <= freeze)%Z ->
  let trimmed := Pipeline.trim_snapshots freeze excl snaps in
  group_of (pooled_aggregates m md tm gp go trimmed) q d
  = group_of (pooled_aggregates m md tm gp go snaps) q d
  /\ forall col,
      map (get_col col)
          (group_of (aggregate_across_forecasters m md tm gp go trimmed) q d)
      = map (get_col col)
            (group_of (aggregate_across_forecasters m md tm gp go snaps) q d).
Proof.
  intros Hd trimmed.
  assert (E : question_day q d trimmed = question_day q d snaps).
  { unfold trimmed, Pipeline.trim_snapshots, question_day.
    destruct excl as [|g excl]; [reflexivity|].
    apply filter_filter_implied. intros s Hs.
    apply andb_true_iff in Hs. destruct Hs as [_ Hs].
    apply Z.eqb_eq in Hs. apply negb_true_iff.
    apply andb_false_iff. left. rewrite Z.gtb_ltb. apply Z.ltb_ge. lia. }
  assert (Hp : group_of (pooled_aggregates m md tm gp go trimmed) q d
               = group_of (pooled_aggregates m md tm gp go snaps) q d)
    by (rewrite !pooled_group, E; reflexivity).
  split; [exact Hp|]. intros col.
  rewrite !aggregate_group_col. rewrite Hp. reflexivity.
Qed.

Lemma trim_keeps_pre_freeze_aggregates_witness :
  map (get_col mean_col)
      (group_of (aggregate_across_forecasters
                   mean_reducer mean_reducer mean_reducer mean_reducer
                   mean_reducer
                   (Pipeline.trim_snapshots 0 ["X"%string] example_snapshots))
                1 0)
  = map (get_col mean_col)
        (group_of (aggregate_across_forecasters
                     mean_reducer mean_reducer mean_reducer mean_reducer
                     mean_reducer example_snapshots) 1 0).
Proof.
  refine (proj2 (@trim_keeps_pre_freeze_aggregates
                   mean_reducer mean_reducer mean_reducer mean_reducer
                   mean_reducer 0%Z ["X"%string] example_snapshots
                   1%Z 0%Z _) mean_col).
  lia.
Defined.
End AggregateTableFacts.

(** ** The freeze day and the training slice *)

Section FreezeFacts.
Import CarryForward Pipeline Training.
Local Open Scope Z_scope.

Lemma pair_eqb_eq (a b : Z * Z) : pair_eqb a b = true <-> a = b.
Proof.
  destruct a as [a1 a2], b as [b1 b2]. unfold pair_eqb; simpl.
  rewrite andb_true_iff, !Z.eqb_eq. split; [intros [-> ->]|intros E; inversion E];
    auto.
Qed.

Lemma insert_by_day_perm p l : Permutation (p :: l) (insert_by_day p l).
Proof.
  induction l as [|y t IH]; simpl; [apply Permutation_refl|].
  destruct (snd p <=? snd y); [apply Permutation_refl|].
  eapply Permutation_trans; [apply perm_swap|]. apply perm_skip. exact IH.
Qed.

Lemma q_ck_perm fd : Permutation (resolved_pairs fd) (q_ck fd).
Proof.
  unfold q_ck. induction (resolved_pairs fd) as [|p t IH]; simpl;
    [constructor|].
  eapply Permutation_trans; [apply perm_skip; exact IH|].
  apply insert_by_day_perm.
Qed.

Lemma dropna_pairs_In q d (l : list (Z * option Z)) :
  In (q, d) (dropna_pairs l) <-> In (q, Some d) l.
Proof.
  unfold dropna_pairs. rewrite in_flat_map. split.
  - intros [[q' [d'|]] [Hin H]]; simpl in H; [|tauto].
    destruct H as [E|[]]. inversion E; subst. exact Hin.
  - intros H. exists (q, Some d). split; [exact H | left; reflexivity].
Qed.

Lemma resolved_pairs_In fd q d :
  In (q, d) (resolved_pairs fd)
  <-> exists r, In r fd /\ qid r = q /\ correctness_known_day r = Some d.
Proof.
  unfold resolved_pairs. rewrite (@unique_In _ _ pair_eqb_eq), dropna_pairs_In.
  rewrite in_map_iff. split.
  - intros [r [E H]]. inversion E. exists r. auto.
  - intros [r [H [E1 E2]]]. exists r. rewrite E1, E2. auto.
Qed.

Lemma resolved_pairs_nil fd :
  resolved_pairs fd = []
  <-> forall r, In r fd -> correctness_known_day r = None.
Proof.
  split.
  - intros E r Hr. destruct (correctness_known_day r) as [d|] eqn:Ed;
      [|reflexivity].
    assert (H : In (qid r, d) (resolved_pairs fd))
      by (apply resolved_pairs_In; exists r; auto).
    rewrite E in H. destruct H.
  - intros H. destruct (resolved_pairs fd) as [|[q d] t] eqn:E; [reflexivity|].
    assert (Hin : In (q, d) (resolved_pairs fd)) by (rewrite E; left; reflexivity).
    apply resolved_pairs_In in Hin. destruct Hin as [r [Hr [_ Ed]]].
    rewrite (H r Hr) in Ed. discriminate.
Qed.

Lemma q_ck_nil fd :
  q_ck fd = [] <-> forall r, In r fd -> correctness_known_day r = None.
Proof.
  rewrite <- resolved_pairs_nil. split; intros E.
  - apply Permutation_nil. rewrite <- E. apply Permutation_sym, q_ck_perm.
  - apply Permutation_nil. rewrite <- E. apply q_ck_perm.
Qed.

Lemma freeze_index_overflow (f : Q) (n : nat) :
  (1 <= n)%nat -> Z.of_nat n < 2 ^ 53 -> Float64.binary64 f -> (1 < f)%Q ->
  Z.of_nat n <= freeze_index f n.
Proof.
  intros Hn Hb Hf64 Hf. unfold freeze_index.
  assert (Hgt : (inject_Z (Z.of_nat n)
                 < Float64.float_mul f (Float64.float_of_int (Z.of_nat n)))%Q)
    by (apply float_mul_int_gt; [lia | exact Hf64 | exact Hf]).
  assert (Hlt : (inject_Z (Z.of_nat n)
                 < inject_Z (Qceiling
                               (Float64.float_mul
                                  f (Float64.float_of_int (Z.of_nat n)))))%Q)
    by (eapply Qlt_le_trans; [exact Hgt | apply Qle_ceiling]).
  rewrite <- Zlt_Qlt in Hlt. lia.
Qed.

(** The selection on the unfolded code: the error for no resolved row, or
    the lookup at the freeze index. *)
Lemma select_freeze_day_shape (f : Q) fd :
  (q_ck fd = []
   /\ select_freeze_day f fd
      = Raise (ValueError
                 "No resolved questions available to determine a freeze day."))
  \/ (q_ck fd <> []
      /\ select_freeze_day f fd
         = match nth_error (map snd (q_ck fd))
                           (Z.to_nat (freeze_index f (List.length (q_ck fd))))
           with
           | Some D => Ok D
           | None => Raise IndexError
           end).
Proof.
  unfold select_freeze_day.
  destruct (q_ck fd) as [|p t] eqn:E; [left; split; reflexivity|].
  right. split; [discriminate | reflexivity].
Qed.

(** The three outcomes of the freeze-day selection, for a float fraction
    and fewer than [2^53] resolved pairs. *)
Lemma select_freeze_day_cases (f : Q) fd :
  Float64.binary64 f -> Z.of_nat (List.length (q_ck fd)) < 2 ^ 53 ->
  (q_ck fd = []
   /\ select_freeze_day f fd
      = Raise (ValueError
                 "No resolved questions available to determine a freeze day."))
  \/ (q_ck fd <> [] /\ (1 < f)%Q /\ select_freeze_day f fd = Raise IndexError)
  \/ (q_ck fd <> [] /\ (f <= 1)%Q
      /\ exists D, nth_error (map snd (q_ck fd))
                             (Z.to_nat (freeze_index f (List.length (q_ck fd))))
                   = Some D
                   /\ select_freeze_day f fd = Ok D).
Proof.
  intros Hf64 Hb.
  destruct (select_freeze_day_shape f fd) as [H|[Hne Hs]]; [left; exact H|].
  right. rewrite Hs.
  assert (Hn : (1 <= List.length (q_ck fd))%nat)
    by (destruct (q_ck fd); [congruence | simpl; lia]).
  destruct (Qlt_le_dec 1 f) as [Hf|Hf].
  - left. split; [exact Hne|]. split; [exact Hf|].
    pose proof (@freeze_index_overflow f _ Hn Hb Hf64 Hf) as Ho.
    destruct (nth_error _ _) as [D|] eqn:En; [|reflexivity].
    assert (Hlt : (Z.to_nat (freeze_index f (List.length (q_ck fd)))
                   < List.length (map snd (q_ck fd)))%nat)
      by (apply nth_error_Some; congruence).
    rewrite length_map in Hlt. lia.
  - right. split; [exact Hne|]. split; [exact Hf|].
    pose proof (@freeze_index_range f _ Hn Hb Hf) as Hr.
    destruct (nth_error _ _) as [D|] eqn:En.
    + exists D. split; reflexivity.
    + apply nth_error_None in En. rewrite length_map in En. lia.
Qed.

Lemma selected_day_of_row (f : Q) fd D :
  select_freeze_day f fd = Ok D ->
  nth_error (map snd (q_ck fd))
            (Z.to_nat (freeze_index f (List.length (q_ck fd)))) = Some D
  /\ exists r, In r fd /\ correctness_known_day r = Some D.
Proof.
  intros HD.
  destruct (select_freeze_day_shape f fd) as [[_ Hs]|[_ Hs]];
    rewrite Hs in HD; [discriminate|].
  destruct (nth_error _ _) as [D0|] eqn:En; [|discriminate].
  inversion HD; subst D0. split; [reflexivity|].
  apply nth_error_In in En. apply in_map_iff in En.
  destruct En as [[q d] [Ed Hin]]. simpl in Ed. subst d.
  apply (Permutation_in _ (Permutation_sym (q_ck_perm fd))) in Hin.
  apply resolved_pairs_In in Hin. destruct Hin as [r [Hr [_ Er]]].
  exists r. auto.
Qed.

(** X21.  The freeze-day selection has exactly three outcomes.  It raises
    the [ValueError] exactly when no row carries a correctness-known day;
    for a float fraction and fewer than [2^53] resolved pairs it raises an
    [IndexError] exactly when some row does and the requested fraction
    exceeds 1; otherwise it returns a day, and that day is the
    correctness-known day of some row. *)
Theorem select_freeze_day_outcomes (f : Q) fd :
  (select_freeze_day f fd
   = Raise (ValueError
              "No resolved questions available to determine a freeze day.")
   <-> forall r, In r fd -> correctness_known_day r = None)
  /\ (Float64.binary64 f -> Z.of_nat (List.length (q_ck fd)) < 2 ^ 53 ->
      (select_freeze_day f fd = Raise IndexError
       <-> (exists r, In r fd /\ correctness_known_day r <> None)
           /\ (1 < f)%Q)
      /\ (forall D, select_freeze_day f fd = Ok D <->
            (f <= 1)%Q
            /\ nth_error (map snd (q_ck fd))
                         (Z.to_nat (freeze_index f (List.length (q_ck fd))))
               = Some D))
  /\ (forall D, select_freeze_day f fd = Ok D ->
        exists r, In r fd /\ correctness_known_day r = Some D).
Proof.
  assert (Hres : q_ck fd <> []
                 <-> exists r, In r fd /\ correctness_known_day r <> None).
  { rewrite q_ck_nil. split.
    - intros H. destruct (existsb (fun r => match correctness_known_day r with
                                            | Some _ => true | None => false
                                            end) fd) eqn:E.
      + apply existsb_exists in E. destruct E as [r [Hr E]]. exists r.
        split; [exact Hr|]. destruct (correctness_known_day r); congruence.
      + exfalso. apply H. intros r Hr.
        destruct (correctness_known_day r) eqn:Er; [|reflexivity].
        assert (Ht : existsb (fun r => match correctness_known_day r with
                                       | Some _ => true | None => false
                                       end) fd = true)
          by (apply existsb_exists; exists r; rewrite Er; auto).
        congruence.
    - intros [r [Hr Hn]] H. apply Hn, H, Hr. }
  split; [|split].
  - destruct (select_freeze_day_shape f fd) as [[E Hs]|[Hne Hs]]; rewrite Hs.
    + split; [intros _; apply q_ck_nil; exact E | reflexivity].
    + split.
      * destruct (nth_error _ _); discriminate.
      * intros H. apply q_ck_nil in H. tauto.
  - intros Hf64 Hb.
    destruct (select_freeze_day_cases fd Hf64 Hb)
      as [[E Hs]|[[Hne [Hf Hs]]|[Hne [Hf [D0 [En Hs]]]]]]; rewrite Hs.
    + split.
      * split; [discriminate|]. intros [Hex _]. apply Hres in Hex. tauto.
      * intros D. split; [discriminate|]. intros [_ H]. rewrite E in H.
        simpl in H. destruct (Z.to_nat _); discriminate.
    + split.
      * split; [intros _; split; [apply Hres; exact Hne | exact Hf]
               | reflexivity].
      * intros D. split; [discriminate|]. intros [Hle _].
        exfalso. apply (Qlt_irrefl 1). eapply Qlt_le_trans; eassumption.
    + split.
      * split; [discriminate|]. intros [_ Hlt].
        exfalso. apply (Qlt_irrefl 1). eapply Qlt_le_trans; eassumption.
      * intros D. split.
        -- intros E. inversion E; subst. split; [exact Hf | exact En].
        -- intros [_ E]. rewrite En in E. congruence.
  - intros D HD. apply (selected_day_of_row _ _ HD).
Qed.

Lemma select_freeze_day_outcomes_witness :
  select_freeze_day (Float64.py_float (4 # 10)) (resolved_questions 10)
  <> Raise IndexError.
Proof.
  destruct (@select_freeze_day_outcomes
              (Float64.py_float (4 # 10)) (resolved_questions 10))
    as [_ [H _]].
  destruct H as [H _].
  - vm_compute. reflexivity.
  - vm_compute. reflexivity.
  - intros E. apply H in E. destruct E as [_ Hlt].
    vm_compute in Hlt. discriminate.
Defined.

Lemma sorted_count_ge (ds : list Z) : forall i D,
  StronglySorted Z.le ds -> nth_error ds i = Some D ->
  (i < List.length (filter (fun x => (x <=? D)%Z) ds))%nat.
Proof.
  induction ds as [|x t IH]; intros i D Hs Hn; [destruct i; discriminate|].
  inversion Hs as [|? ? Ht Hx]; subst. destruct i as [|j]; simpl in *.
  - inversion Hn; subst. rewrite Z.leb_refl. simpl. lia.
  - rewrite Forall_forall in Hx.
    assert (x <= D) by (apply Hx; eapply nth_error_In; exact Hn).
    replace (x <=? D) with true by (symmetry; apply Z.leb_le; assumption).
    simpl. specialize (IH j D Ht Hn). lia.
Qed.

Lemma sorted_count_lt (ds : list Z) : forall i D d,
  StronglySorted Z.le ds -> nth_error ds i = Some D -> d < D ->
  (List.length (filter (fun x => (x <=? d)%Z) ds) <= i)%nat.
Proof.
  induction ds as [|x t IH]; intros i D d Hs Hn Hd; [simpl; lia|].
  inversion Hs as [|? ? Ht Hx]; subst. destruct i as [|j]; simpl in *.
  - inversion Hn; subst.
    replace (D <=? d) with false by (symmetry; apply Z.leb_gt; lia).
    assert (E : filter (fun x => x <=? d) t = []).
    { apply filter_nil_iff. intros y Hy. rewrite Forall_forall in Hx.
      specialize (Hx y Hy). apply Z.leb_gt. lia. }
    rewrite E. simpl. lia.
  - specialize (IH j D d Ht Hn Hd).
    destruct (x <=? d); simpl; lia.
Qed.

(** X22.  The freeze day is the earliest day that covers the computed
    product.  With [p] the float product of the fraction and the number of
    resolved pairs, and [p > 0]: at least [p] of the pairs are resolved on
    or before the returned freeze day, and fewer than [p] on or before
    every earlier day. *)
Theorem freeze_day_is_earliest_covering (f : Q) fd D :
  let p :=
    Float64.float_mul
      f (Float64.float_of_int (Z.of_nat (List.length (q_ck fd)))) in
  (0 < p)%Q ->
  select_freeze_day f fd = Ok D ->
  (p <= inject_Z (resolved_by D fd))%Q
  /\ forall d, d < D -> (inject_Z (resolved_by d fd) < p)%Q.
Proof.
  intros p Hp Hsel.
  destruct (selected_day_of_row _ _ Hsel) as [En _].
  set (n := List.length (q_ck fd)) in *.
  assert (Hcount : forall d,
             List.length (filter (fun p : Z * Z => snd p <=? d) (q_ck fd))
             = List.length (filter (fun x => x <=? d) (map snd (q_ck fd)))).
  { intros d. rewrite (filter_map_comm snd (fun x => x <=? d)).
    rewrite length_map. reflexivity. }
  assert (Hsorted : StronglySorted Z.le (map snd (q_ck fd)))
    by (rewrite q_ck_days; apply sorted_le).
  assert (Hc : 1 <= Qceiling p).
  { assert (H : (inject_Z 0 < inject_Z (Qceiling p))%Q).
    { change (inject_Z 0) with 0%Q.
      eapply Qlt_le_trans; [exact Hp | apply Qle_ceiling]. }
    rewrite <- Zlt_Qlt in H. lia. }
  assert (Hidx : freeze_index f n = Qceiling p - 1).
  { unfold freeze_index. fold p. lia. }
  rewrite Hidx in En. unfold resolved_by. split.
  - pose proof (@sorted_count_ge _ _ _ Hsorted En) as Hge.
    rewrite <- Hcount in Hge.
    eapply Qle_trans; [apply Qle_ceiling|].
    rewrite <- Zle_Qle. lia.
  - intros d Hd.
    pose proof (@sorted_count_lt _ _ _ _ Hsorted En Hd) as Hle.
    rewrite <- Hcount in Hle.
    eapply Qle_lt_trans; [|apply Qceiling_lt].
    rewrite <- Zle_Qle. lia.
Qed.

Lemma freeze_day_is_earliest_covering_witness :
  (4 <= inject_Z (resolved_by 4 (resolved_questions 10)))%Q
  /\ (inject_Z (resolved_by 3 (resolved_questions 10)) < 4)%Q.
Proof.
  destruct (@freeze_day_is_earliest_covering
              (Float64.py_float (4 # 10)) (resolved_questions 10) 4)
    as [H1 H2].
  - vm_compute. reflexivity.
  - vm_compute. reflexivity.
  - split.
    + eapply Qle_trans; [|exact H1]. vm_compute. discriminate.
    + eapply Qlt_le_trans; [apply H2; lia|]. vm_compute. discriminate.
Defined.

(** X23.  The training slice is never empty once a freeze day is selected:
    the [ValueError] for an empty training slice cannot be raised, so the
    phase fails exactly when the freeze-day selection fails and otherwise
    hands on the rows resolved by the freeze day, of which there is at
    least one. *)
Theorem training_slice_never_empty (f : Q) fd :
  training_rows f fd
  = match select_freeze_day f fd with
    | Raise e => Raise e
    | Ok freeze_day => Ok (freeze_day, train_slice freeze_day fd)
    end
  /\ training_rows f fd
     <> Raise (ValueError
                 "No questions resolved by freeze day; cannot rank forecasters.")
  /\ forall D train, training_rows f fd = Ok (D, train) -> train <> [].
Proof.
  assert (Hne : forall D, select_freeze_day f fd = Ok D ->
                          train_slice D fd <> []).
  { intros D HD.
    destruct (selected_day_of_row _ _ HD) as [_ [r [Hr Er]]].
    intros E.
    assert (Hin : In r (train_slice D fd)).
    { unfold train_slice. apply filter_In. split; [exact Hr|].
      rewrite Er. apply Z.leb_refl. }
    rewrite E in Hin. destruct Hin. }
  assert (Heq : training_rows f fd
                = match select_freeze_day f fd with
                  | Raise e => Raise e
                  | Ok freeze_day => Ok (freeze_day, train_slice freeze_day fd)
                  end).
  { unfold training_rows.
    destruct (select_freeze_day f fd) as [D|e] eqn:E; [|reflexivity].
    specialize (Hne D eq_refl).
    destruct (train_slice D fd); [congruence | reflexivity]. }
  split; [exact Heq|]. split.
  - rewrite Heq.
    destruct (select_freeze_day_shape f fd) as [[_ Hs]|[_ Hs]]; rewrite Hs;
      [discriminate|].
    destruct (nth_error _ _); discriminate.
  - intros D train. rewrite Heq.
    destruct (select_freeze_day f fd) as [D'|e] eqn:E; [|discriminate].
    intros H. inversion H; subst. apply Hne. reflexivity.
Qed.
End FreezeFacts.

(** ** Ranking: participation rate and the excluded forecasters *)

Section RankingFacts.
Import Aggregation Ranking.

Lemma clip_lower_spec lo x :
  lo <= clip_lower lo x /\ (lo <= x -> clip_lower lo x = x)
  /\ (x <= lo -> clip_lower lo x == lo).
Proof.
  unfold clip_lower. destruct (Qle_bool lo x) eqn:E.
  - apply Qle_bool_iff in E. repeat split; auto. intros H. lra.
  - assert (H : ~ lo <= x) by (intros H; apply Qle_bool_iff in H; congruence).
    repeat split; try lra; intros H'; tauto.
Qed.

Lemma clip_upper_spec hi x :
  clip_upper hi x <= hi /\ (x <= hi -> clip_upper hi x = x)
  /\ (hi <= x -> clip_upper hi x == hi).
Proof.
  unfold clip_upper. destruct (Qle_bool x hi) eqn:E.
  - apply Qle_bool_iff in E. repeat split; auto. intros H. lra.
  - assert (H : ~ x <= hi) by (intros H; apply Qle_bool_iff in H; congruence).
    repeat split; try lra; intros H'; tauto.
Qed.

Lemma guarded_total_days_ge r : 1 <= guarded_total_days r.
Proof. unfold guarded_total_days. apply clip_lower_spec. Qed.

Lemma participation_rate_bounds r :
  0 <= participation_rate r <= 1.
Proof.
  unfold participation_rate, clip.
  set (x := inject_Z (n_days r) / guarded_total_days r).
  destruct (clip_lower_spec 0 x) as [H0 _].
  destruct (clip_upper_spec 1 (clip_lower 0 x)) as [H1 [H2 H3]].
  split; [|exact H1].
  destruct (Qlt_le_dec 1 (clip_lower 0 x)) as [H|H].
  - rewrite H3; lra.
  - rewrite H2; assumption.
Qed.

Lemma participation_rate_zero r :
  participation_rate r == 0 <-> (n_days r <= 0)%Z.
Proof.
  pose proof (guarded_total_days_ge r) as Htd.
  unfold participation_rate, clip.
  set (td := guarded_total_days r) in *.
  set (x := inject_Z (n_days r) / td).
  destruct (clip_lower_spec 0 x) as [H0 [Hl1 Hl2]].
  destruct (clip_upper_spec 1 (clip_lower 0 x)) as [H1 [H2 H3]].
  assert (Hx : x * td == inject_Z (n_days r))
    by (unfold x; field; lra).
  split.
  - intros E. destruct (Z_le_gt_dec (n_days r) 0) as [Hn|Hn]; [exact Hn|].
    exfalso.
    assert (Hq : 0 < inject_Z (n_days r)).
    { change 0 with (inject_Z 0). rewrite <- Zlt_Qlt. lia. }
    assert (Hxpos : 0 < x).
    { destruct (Qlt_le_dec 0 x) as [H|H]; [exact H|]. nra. }
    rewrite Hl1 in * by lra.
    destruct (Qlt_le_dec 1 x) as [H|H].
    + rewrite H3 in E by lra. lra.
    + rewrite H2 in E by lra. lra.
  - intros Hn.
    assert (Hq : inject_Z (n_days r) <= 0).
    { change 0 with (inject_Z 0). rewrite <- Zle_Qle. exact Hn. }
    assert (Hxneg : x <= 0).
    { destruct (Qlt_le_dec 0 x) as [H|H]; [|exact H]. nra. }
    specialize (Hl2 Hxneg).
    rewrite H2 by lra. exact Hl2.
Qed.

(** X24.  The guardrails of the participation rate.  Whatever the row
    holds, the rate lies in [0, 1] and is 0 exactly when the row has no
    scored day.  The coverage-adjusted score is missing exactly when the
    average score is missing or the rate is 0; otherwise it is the average
    divided by the rate, and so at least the average when that is not
    negative. *)
Theorem participation_rate_guardrails r :
  0 <= participation_rate r <= 1
  /\ (participation_rate r == 0 <-> (n_days r <= 0)%Z)
  /\ (coverage_adjusted_brier r = None
      <-> avg_brier r = None \/ (n_days r <= 0)%Z)
  /\ forall c, coverage_adjusted_brier r = Some c ->
        exists b, avg_brier r = Some b
                  /\ 0 < participation_rate r
                  /\ c * participation_rate r == b
                  /\ (0 <= b -> b <= c).
Proof.
  pose proof (participation_rate_bounds r) as Hb.
  pose proof (participation_rate_zero r) as Hz.
  split; [exact Hb|]. split; [exact Hz|].
  unfold coverage_adjusted_brier.
  destruct (Qeq_bool (participation_rate r) 0) eqn:E.
  - apply Qeq_bool_iff in E. split.
    + split; [|destruct (avg_brier r); reflexivity].
      intros _. right. apply Hz. exact E.
    + intros c H. destruct (avg_brier r); discriminate.
  - assert (Hne : ~ participation_rate r == 0)
      by (intros H; apply Qeq_bool_iff in H; congruence).
    split.
    + split.
      * destruct (avg_brier r); [discriminate | auto].
      * intros [H|H]; [rewrite H; reflexivity|]. apply Hz in H. tauto.
    + intros c H. destruct (avg_brier r) as [b|]; [|discriminate].
      inversion H; subst c. exists b. split; [reflexivity|].
      set (p := participation_rate r) in *.
      assert (Hp : 0 < p) by (destruct (Qlt_le_dec 0 p); [assumption | lra]).
      split; [exact Hp|]. split; [field; lra|].
      intros Hb0. apply Qle_shift_div_l; [exact Hp|]. nra.
Qed.

Lemma insert_guid_perm g l : Permutation (g :: l) (insert_guid g l).
Proof.
  induction l as [|y t IH]; simpl; [apply Permutation_refl|].
  destruct (String.leb g y); [apply Permutation_refl|].
  eapply Permutation_trans; [apply perm_swap|]. apply perm_skip. exact IH.
Qed.

Lemma sort_guid_perm l : Permutation l (fold_right insert_guid [] l).
Proof.
  induction l as [|x t IH]; simpl; [constructor|].
  eapply Permutation_trans; [apply perm_skip; exact IH|].
  apply insert_guid_perm.
Qed.

Lemma string_eqb_eq (a b : string) : String.eqb a b = true <-> a = b.
Proof. apply String.eqb_eq. Qed.











End RankingFacts.

(** ** The cleaner *)

Section DataCleanerFacts.
Import DataCleaner.
Variable raw : Type.
Variable normalized_after_known : raw -> option bool.

Local Abbreviation row := (raw_row raw).
Local Abbreviation clean :=
  (drop_unresolved_questions normalized_after_known).

Lemma dropna_In (A : Type) (l : list (option A)) x :
  In x (dropna l) <-> In (Some x) l.
Proof.
  unfold dropna. rewrite in_flat_map. split.
  - intros [[v|] [Hin H]]; simpl in H; [|tauto].
    destruct H as [E|[]]. subst. exact Hin.
  - intros H. exists (Some x). split; [exact H | left; reflexivity].
Qed.

Lemma bad_qids_In (df : list row) q :
  In q (bad_qids df)
  <-> exists r, In r df /\ discover_question_id r = Some q
                /\ answer_resolved_probability r = None.
Proof.
  unfold bad_qids. rewrite (@unique_In _ _ Z.eqb_eq), dropna_In, in_map_iff.
  split.
  - intros [r [E H]]. apply filter_In in H. destruct H as [H1 H2].
    exists r. split; [exact H1|]. split; [exact E|].
    destruct (answer_resolved_probability r); [discriminate | reflexivity].
  - intros [r [H1 [E H2]]]. exists r. split; [exact E|].
    apply filter_In. split; [exact H1|]. rewrite H2. reflexivity.
Qed.

Lemma isin_true q l : isin q l = true <-> exists z, q = Some z /\ In z l.
Proof.
  destruct q as [z|]; simpl.
  - rewrite existsb_exists. split.
    + intros [y [Hy E]]. apply Z.eqb_eq in E. subst. exists y. auto.
    + intros [y [E Hy]]. inversion E; subst. exists y.
      split; [exact Hy | apply Z.eqb_refl].
  - split; [discriminate | intros [z [E _]]; discriminate].
Qed.

Lemma filter_all (A : Type) (f : A -> bool) (l : list A) :
  (forall x, In x l -> f x = true) -> filter f l = l.
Proof.
  induction l as [|x t IH]; simpl; intros H; [reflexivity|].
  rewrite (H x (or_introl eq_refl)). f_equal. apply IH.
  intros y Hy. apply H. right; exact Hy.
Qed.

Lemma filter_partition_length (A : Type) (f : A -> bool) (l : list A) :
  List.length l
  = (List.length (filter f l)
     + List.length (filter (fun x => negb (f x)) l))%nat.
Proof.
  induction l as [|x t IH]; simpl; [reflexivity|].
  destruct (f x); simpl; lia.
Qed.

(** Membership in the cleaned table, spelled out. *)
Lemma cleaned_In (df : list row) r :
  In r (fst (fst (clean df)))
  <-> In r df
      /\ drop_mask normalized_after_known r = false
      /\ forall q, discover_question_id r = Some q ->
                   forall r', In r' df -> discover_question_id r' = Some q ->
                              answer_resolved_probability r' <> None.
Proof.
  unfold drop_unresolved_questions. simpl.
  rewrite !filter_In, !negb_true_iff. split.
  - intros [[Hin Hq] Hm]. split; [exact Hin|]. split; [exact Hm|].
    intros q Eq r' Hr' Eq' En.
    assert (Hb : isin (discover_question_id r) (bad_qids df) = true).
    { apply isin_true. exists q. split; [exact Eq|].
      apply bad_qids_In. exists r'. auto. }
    congruence.
  - intros [Hin [Hm Hq]]. split; [|exact Hm]. split; [exact Hin|].
    destruct (isin (discover_question_id r) (bad_qids df)) eqn:E;
      [|reflexivity].
    exfalso. apply isin_true in E. destruct E as [q [Eq Hb]].
    apply bad_qids_In in Hb. destruct Hb as [r' [Hr' [Eq' En]]].
    exact (Hq q Eq r' Hr' Eq' En).
Qed.

(** X26.  What the cleaner keeps.  A row is kept exactly when it is not
    flagged as made after correctness was known and, if it has a question
    id, no row of that question lacks a resolved probability: questions are
    kept or removed whole, a removed id labels no kept row, and the three
    row counts add up.  A row without a question id is never removed in
    step 1, even when its own resolved probability is missing. *)
Theorem cleaner_keeps_resolved_questions (df : list row) :
  let result := drop_unresolved_questions normalized_after_known df in
  let cleaned := fst (fst result) in
  let removed_qids := snd (fst result) in
  let n_after_known_removed := snd result in
  (forall r, In r cleaned
             <-> In r df
                 /\ drop_mask normalized_after_known r = false
                 /\ forall q, discover_question_id r = Some q ->
                      forall r', In r' df ->
                                 discover_question_id r' = Some q ->
                                 answer_resolved_probability r' <> None)
  /\ (forall r q, In r cleaned -> discover_question_id r = Some q ->
                  ~ In q removed_qids
                  /\ answer_resolved_probability r <> None)
  /\ (forall r, In r df -> discover_question_id r = None ->
                drop_mask normalized_after_known r = false ->
                In r cleaned)
  /\ List.length df
     = (List.length cleaned + n_after_known_removed
        + List.length
            (filter (fun r => isin (discover_question_id r) removed_qids)
                    df))%nat.
Proof.
  intros result cleaned removed_qids n_after_known_removed.
  split; [intros r; apply cleaned_In|]. split; [|split].
  - intros r q Hr Eq. apply cleaned_In in Hr. destruct Hr as [Hin [_ Hq]].
    split.
    + intros Hb. apply bad_qids_In in Hb. destruct Hb as [r' [Hr' [Eq' En]]].
      exact (Hq q Eq r' Hr' Eq' En).
    + exact (Hq q Eq r Hin Eq).
  - intros r Hin Eq Hm. apply cleaned_In. split; [exact Hin|].
    split; [exact Hm|]. intros q E. congruence.
  - unfold cleaned, n_after_known_removed, removed_qids, result,
      drop_unresolved_questions. simpl.
    rewrite (filter_partition_length
               (fun r => isin (discover_question_id r) (bad_qids df)) df).
    rewrite (filter_partition_length
               (drop_mask normalized_after_known)
               (filter (fun r => negb (isin (discover_question_id r)
                                            (bad_qids df))) df)).
    lia.
Qed.

(** X27.  Cleaning is idempotent: cleaning a cleaned table removes no
    question and no row. *)
Theorem cleaner_idempotent (df : list row) :
  let cleaned :=
    fst (fst (drop_unresolved_questions normalized_after_known df)) in
  drop_unresolved_questions normalized_after_known cleaned
  = (cleaned, [], 0%nat).
Proof.
  cbv zeta.
  set (cleaned := fst (fst (clean df))).
  assert (Hbad : bad_qids cleaned = []).
  { destruct (bad_qids cleaned) as [|q t] eqn:E; [reflexivity|]. exfalso.
    assert (Hq : In q (bad_qids cleaned)) by (rewrite E; left; reflexivity).
    apply bad_qids_In in Hq. destruct Hq as [r [Hr [Eq En]]].
    apply cleaned_In in Hr. destruct Hr as [Hin [_ Hq]].
    exact (Hq q Eq r Hin Eq En). }
  assert (Hmask : forall r, In r cleaned ->
                            negb (drop_mask normalized_after_known r) = true).
  { intros r Hr. apply cleaned_In in Hr. destruct Hr as [_ [Hm _]].
    rewrite Hm. reflexivity. }
  unfold drop_unresolved_questions at 1. rewrite Hbad.
  assert (H1 : filter (fun r : row => negb (isin (discover_question_id r) []))
                      cleaned = cleaned).
  { apply filter_all. intros r _. destruct (discover_question_id r);
      reflexivity. }
  rewrite H1.
  assert (H2 : filter (fun r => negb (drop_mask normalized_after_known r))
                      cleaned = cleaned)
    by (apply filter_all; exact Hmask).
  assert (H3 : filter (drop_mask normalized_after_known) cleaned = []).
  { apply filter_nil_iff. intros r Hr. apply Hmask in Hr.
    apply negb_true_iff in Hr. exact Hr. }
  rewrite H2, H3. reflexivity.
Qed.
End DataCleanerFacts.

(** ** The rationale filter *)

Section BaserateFilterFacts.
Import CarryForward BaserateFilter.
Variable pattern : string -> bool.

Lemma counts_In (df : list source_row) g c :
  In (g, c) (counts pattern df)
  <-> (exists s, In s df /\ sr_guid s = g) /\ c = group_hits pattern g df.
Proof.
  unfold counts. rewrite in_map_iff. split.
  - intros [g0 [E H]]. inversion E; subst. split; [|reflexivity].
    apply (Permutation_in _ (Permutation_sym (sort_guid_perm _))) in H.
    rewrite (@unique_In _ _ string_eqb_eq) in H. apply in_map_iff in H.
    destruct H as [s0 [Es Hs]]. exists s0. auto.
  - intros [[s0 [Hs Es]] Ec]. exists g. split; [rewrite Ec; reflexivity|].
    apply (Permutation_in _ (sort_guid_perm _)).
    rewrite (@unique_In _ _ string_eqb_eq). apply in_map_iff. exists s0. auto.
Qed.

Lemma keyword_guids_In min_hits (df : list source_row) g :
  In g (keyword_guids pattern min_hits df)
  <-> (exists s, In s df /\ sr_guid s = g)
      /\ (min_hits <= group_hits pattern g df)%Z.
Proof.
  unfold keyword_guids. rewrite in_map_iff. split.
  - intros [[g0 c] [E H]]. simpl in E. subst g0.
    apply filter_In in H. destruct H as [H Hc]. simpl in Hc.
    apply counts_In in H. destruct H as [Hs Ec]. split; [exact Hs|].
    rewrite <- Ec. rewrite Z.geb_leb in Hc. apply Z.leb_le. exact Hc.
  - intros [Hs Hc]. exists (g, group_hits pattern g df).
    split; [reflexivity|]. apply filter_In. split.
    + apply counts_In. auto.
    + simpl. rewrite Z.geb_leb. apply Z.leb_le. exact Hc.
Qed.

Lemma filter_by_rationale_In min_hits src df r :
  In r (filter_by_rationale pattern min_hits src df)
  <-> In r df
      /\ (exists s, In s src /\ sr_guid s = guid r)
      /\ (min_hits <= group_hits pattern (guid r) src)%Z.
Proof.
  unfold filter_by_rationale. rewrite filter_In.
  assert (H : existsb (String.eqb (guid r))
                      (keyword_guids pattern min_hits src) = true
              <-> In (guid r) (keyword_guids pattern min_hits src)).
  { rewrite existsb_exists. split.
    - intros [x [Hx E]]. apply String.eqb_eq in E. rewrite E. exact Hx.
    - intros Hx. exists (guid r). split; [exact Hx | apply String.eqb_refl]. }
  rewrite H, keyword_guids_In. tauto.
Qed.

(** X28.  Who passes the rationale filter.  A row is kept exactly when its
    forecaster occurs in the rationale source with at least [min_hits]
    matching rationales there.  So with a threshold of one or more every
    kept forecaster has a matching rationale; with a threshold of zero or
    less the rows of every forecaster of the source are kept; and the rows
    of a forecaster absent from the source are dropped at any threshold. *)
Theorem rationale_filter_keeps_keyword_users min_hits src df :
  (forall r, In r (filter_by_rationale pattern min_hits src df)
             <-> In r df
                 /\ (exists s, In s src /\ sr_guid s = guid r)
                 /\ (min_hits <= group_hits pattern (guid r) src)%Z)
  /\ ((1 <= min_hits)%Z ->
      forall r, In r (filter_by_rationale pattern min_hits src df) ->
                exists s, In s src /\ sr_guid s = guid r
                          /\ hit pattern s = true)
  /\ ((min_hits <= 0)%Z ->
      forall r, In r df -> (exists s, In s src /\ sr_guid s = guid r) ->
                In r (filter_by_rationale pattern min_hits src df))
  /\ (forall r, In r df -> (forall s, In s src -> sr_guid s <> guid r) ->
                ~ In r (filter_by_rationale pattern min_hits src df)).
Proof.
  split; [intros r; apply filter_by_rationale_In|]. split; [|split].
  - intros Hm r Hr. apply filter_by_rationale_In in Hr.
    destruct Hr as [_ [_ Hc]]. unfold group_hits in Hc.
    destruct (filter (hit pattern)
                     (filter (fun s => String.eqb (sr_guid s) (guid r)) src))
      as [|s t] eqn:E; [simpl in Hc; lia|].
    assert (Hs : In s (filter (hit pattern)
                              (filter (fun s => String.eqb (sr_guid s) (guid r))
                                      src)))
      by (rewrite E; left; reflexivity).
    apply filter_In in Hs. destruct Hs as [Hs Hh].
    apply filter_In in Hs. destruct Hs as [Hs Hg].
    apply String.eqb_eq in Hg. exists s. auto.
  - intros Hm r Hr Hs. apply filter_by_rationale_In.
    split; [exact Hr|]. split; [exact Hs|]. unfold group_hits. lia.
  - intros r Hr Hno H. apply filter_by_rationale_In in H.
    destruct H as [_ [[s [Hs E]] _]]. exact (Hno s Hs E).
Qed.

(** X29.  Raising the threshold only removes rows: with [m <= m'], a row
    kept at threshold [m'] is kept at [m], and filtering at [m'] what was
    filtered at [m] is filtering at [m'] directly.  With [m = m'], the
    filter is idempotent. *)
Theorem rationale_filter_monotone m m' src df :
  (m <= m')%Z ->
  (forall r, In r (filter_by_rationale pattern m' src df) ->
             In r (filter_by_rationale pattern m src df))
  /\ filter_by_rationale pattern m' src (filter_by_rationale pattern m src df)
     = filter_by_rationale pattern m' src df.
Proof.
  intros Hm.
  assert (Hk : forall g, In g (keyword_guids pattern m' src) ->
                         In g (keyword_guids pattern m src)).
  { intros g Hg. apply keyword_guids_In in Hg. apply keyword_guids_In.
    destruct Hg as [Hs Hc]. split; [exact Hs | lia]. }
  split.
  - intros r Hr. apply filter_by_rationale_In in Hr.
    apply filter_by_rationale_In. destruct Hr as [H1 [H2 H3]].
    split; [exact H1|]. split; [exact H2 | lia].
  - unfold filter_by_rationale. apply filter_filter_implied.
    intros r Hr. apply existsb_exists in Hr. destruct Hr as [g [Hg E]].
    apply existsb_exists. exists g. split; [apply Hk; exact Hg | exact E].
Qed.

End BaserateFilterFacts.

Lemma rationale_filter_keeps_keyword_users_witness :
  exists s, In s BaserateFilter.example_source
            /\ BaserateFilter.sr_guid s = "X"%string
            /\ BaserateFilter.hit BaserateFilter.example_pattern s = true.
Proof.
  refine (proj1 (proj2 (@rationale_filter_keeps_keyword_users
                          BaserateFilter.example_pattern 1%Z
                          BaserateFilter.example_source
                          CarryForward.example_table)) _
                {| CarryForward.qid := 1; CarryForward.guid := "X";
                   CarryForward.day := 0; CarryForward.aso := 0;
                   CarryForward.prob := 1 # 2;
                   CarryForward.resolved_probability := 1;
                   CarryForward.correctness_known_day := Some 9%Z |} _).
  - lia.
  - vm_compute. left. reflexivity.
Defined.

Lemma rationale_filter_monotone_witness :
  BaserateFilter.filter_by_rationale
    BaserateFilter.example_pattern 1 BaserateFilter.example_source
    (BaserateFilter.filter_by_rationale
       BaserateFilter.example_pattern 0 BaserateFilter.example_source
       CarryForward.example_table)
  = BaserateFilter.filter_by_rationale
      BaserateFilter.example_pattern 1 BaserateFilter.example_source
      CarryForward.example_table.
Proof.
  refine (proj2 (@rationale_filter_monotone
                   BaserateFilter.example_pattern 0%Z 1%Z
                   BaserateFilter.example_source
                   CarryForward.example_table _)).
  lia.
Defined.

(** ** The correctness-known day attached per question *)

Section MainFacts.
Import CarryForward Pipeline Main.
Local Open Scope Z_scope.

Lemma dict_get_keyed (V : Type) (F : Z -> V) (keys : list Z) q :
  dict_get Z.eqb q (map (fun k => (k, F k)) keys)
  = if existsb (Z.eqb q) keys then Some (F q) else None.
Proof.
  induction keys as [|k t IH]; simpl; [reflexivity|].
  rewrite (Z.eqb_sym q k). destruct (k =? q) eqn:E; simpl.
  - apply Z.eqb_eq in E. subst. reflexivity.
  - exact IH.
Qed.

Lemma fold_min_spec (l : list Z) :
  l <> [] ->
  In (fold_right Z.min (hd 0 l) l) l
  /\ forall x, In x l -> fold_right Z.min (hd 0 l) l <= x.
Proof.
  intros Hne. destruct l as [|a t]; [congruence|]. clear Hne. simpl hd.
  assert (H : forall (t : list Z) (a0 : Z),
             (fold_right Z.min a0 t = a0 \/ In (fold_right Z.min a0 t) t)
             /\ fold_right Z.min a0 t <= a0
             /\ forall x, In x t -> fold_right Z.min a0 t <= x).
  { clear. induction t as [|y t IH]; intros a0; simpl.
    - split; [auto|]. split; [lia | intros x []].
    - destruct (IH a0) as [H1 [H2 H3]]. split; [|split].
      + destruct (Z.min_spec y (fold_right Z.min a0 t)) as [[_ E]|[_ E]];
          rewrite E; [auto|]. destruct H1 as [H1|H1]; auto.
      + lia.
      + intros x [<-|Hx]; [lia|]. specialize (H3 x Hx). lia. }
  destruct (H (a :: t) a) as [H1 [H2 H3]]. split; [|exact H3].
  destruct H1 as [H1|H1]; [rewrite H1; left; reflexivity | exact H1].
Qed.

(** The entry of a question in the earliest-day series. *)
Lemma q_earliest_ck_spec fd q :
  match dict_get Z.eqb q
                 (q_earliest_ck
                    (map (fun r => (qid r, correctness_known_day r)) fd)) with
  | Some d =>
      (exists r, In r fd /\ qid r = q /\ correctness_known_day r = Some d)
      /\ forall r d1, In r fd -> qid r = q ->
                      correctness_known_day r = Some d1 -> d <= d1
  | None =>
      forall r, In r fd -> qid r = q -> correctness_known_day r = None
  end.
Proof.
  unfold q_earliest_ck.
  set (known := dropna_pairs
                  (map (fun r => (qid r, correctness_known_day r)) fd)).
  assert (Hknown : forall q0 d, In (q0, d) known
                     <-> exists r, In r fd /\ qid r = q0
                                   /\ correctness_known_day r = Some d).
  { intros q0 d. unfold known. rewrite dropna_pairs_In, in_map_iff. split.
    - intros [r [E H]]. inversion E. exists r. auto.
    - intros [r [H [E1 E2]]]. exists r. rewrite E1, E2. auto. }
  rewrite (dict_get_keyed
             (fun q0 => fold_right Z.min
                          (hd 0 (map snd (filter (fun p => fst p =? q0) known)))
                          (map snd (filter (fun p => fst p =? q0) known)))).
  set (ds := map snd (filter (fun p : Z * Z => fst p =? q) known)).
  assert (Hds : forall d, In d ds <-> In (q, d) known).
  { intros d. unfold ds. rewrite in_map_iff. split.
    - intros [[q0 d0] [E H]]. simpl in E. subst d0.
      apply filter_In in H. destruct H as [H Eq]. simpl in Eq.
      apply Z.eqb_eq in Eq. subst. exact H.
    - intros H. exists (q, d). split; [reflexivity|].
      apply filter_In. split; [exact H | simpl; apply Z.eqb_refl]. }
  destruct (existsb (Z.eqb q) (sorted (unique Z.eqb (map fst known)))) eqn:E.
  - apply existsb_exists in E. destruct E as [q0 [Hq0 E]].
    apply Z.eqb_eq in E. subst q0.
    rewrite sorted_In, (@unique_In _ _ Z.eqb_eq), in_map_iff in Hq0.
    destruct Hq0 as [[q0 d0] [E H]]. simpl in E. subst q0.
    assert (Hne : ds <> []).
    { intros En. apply Hds in H. rewrite En in H. destruct H. }
    destruct (fold_min_spec Hne) as [Hin Hle]. split.
    + apply Hknown, Hds. exact Hin.
    + intros r d1 Hr Eq Ed. apply Hle. apply Hds, Hknown. exists r. auto.
  - intros r Hr Eq. destruct (correctness_known_day r) as [d|] eqn:Ed;
      [|reflexivity].
    exfalso.
    assert (Hin : In q (sorted (unique Z.eqb (map fst known)))).
    { rewrite sorted_In, (@unique_In _ _ Z.eqb_eq), in_map_iff.
      exists (q, d). split; [reflexivity|]. apply Hknown. exists r. auto. }
    assert (Ht : existsb (Z.eqb q) (sorted (unique Z.eqb (map fst known)))
                 = true)
      by (apply existsb_exists; exists q; split;
          [exact Hin | apply Z.eqb_refl]).
    congruence.
Qed.

Lemma NoDup_map_fst (A B : Type) (l : list (A * B)) :
  NoDup l ->
  (forall a b b', In (a, b) l -> In (a, b') l -> b = b') ->
  NoDup (map fst l).
Proof.
  induction 1 as [|[a b] t Hx Ht IH]; simpl; intros Hf; [constructor|].
  constructor.
  - intros Hin. apply in_map_iff in Hin. destruct Hin as [[a' b'] [E Hin]].
    simpl in E. subst a'.
    assert (b = b') by (apply (Hf a); [left; reflexivity | right; exact Hin]).
    subst b'. exact (Hx Hin).
  - apply IH. intros a0 b0 b0' H1 H2. apply (Hf a0); right; assumption.
Qed.

(** X30.  The day attached to a question is its earliest one.  After the
    attachment every row keeps its other columns and carries the earliest
    correctness-known day found on any row of its question (none when the
    question has none), so the rows of a question agree on it, and the
    freeze-day selection then sees exactly one resolved pair per resolved
    question. *)
Theorem attached_day_is_earliest fd :
  let fd' := attach_correctness_known_day fd in
  map (fun r => (qid r, guid r, day r, aso r, prob r, resolved_probability r))
      fd'
  = map (fun r => (qid r, guid r, day r, aso r, prob r, resolved_probability r))
        fd
  /\ (forall r', In r' fd' ->
        match correctness_known_day r' with
        | Some d =>
            (exists r, In r fd /\ qid r = qid r'
                       /\ correctness_known_day r = Some d)
            /\ forall r d1, In r fd -> qid r = qid r' ->
                            correctness_known_day r = Some d1 -> d <= d1
        | None =>
            forall r, In r fd -> qid r = qid r' ->
                      correctness_known_day r = None
        end)
  /\ (forall r1 r2, In r1 fd' -> In r2 fd' -> qid r1 = qid r2 ->
                    correctness_known_day r1 = correctness_known_day r2)
  /\ NoDup (map fst (q_ck fd')).
Proof.
  intros fd'.
  assert (Hrow : forall r', In r' fd' ->
            exists r, In r fd /\ qid r' = qid r
              /\ correctness_known_day r'
                 = dict_get Z.eqb (qid r)
                     (q_earliest_ck
                        (map (fun r => (qid r, correctness_known_day r)) fd))).
  { intros r' Hr'. unfold fd', attach_correctness_known_day in Hr'.
    apply in_map_iff in Hr'. destruct Hr' as [r [E Hr]]. exists r.
    subst r'. simpl. auto. }
  assert (Hagree : forall r1 r2, In r1 fd' -> In r2 fd' -> qid r1 = qid r2 ->
                     correctness_known_day r1 = correctness_known_day r2).
  { intros r1 r2 H1 H2 E.
    destruct (Hrow r1 H1) as [a [_ [Ea Ha]]].
    destruct (Hrow r2 H2) as [b [_ [Eb Hb]]].
    rewrite Ha, Hb. congruence. }
  split; [|split; [|split]].
  - unfold fd', attach_correctness_known_day. rewrite map_map. reflexivity.
  - intros r' Hr'. destruct (Hrow r' Hr') as [r [Hr [Eq Eck]]].
    rewrite Eck, Eq. apply q_earliest_ck_spec.
  - exact Hagree.
  - eapply Permutation_NoDup;
      [apply Permutation_map; apply q_ck_perm|].
    apply NoDup_map_fst.
    + unfold resolved_pairs. apply (@unique_NoDup _ _ pair_eqb_eq).
    + intros q d d' H1 H2.
      apply resolved_pairs_In in H1. apply resolved_pairs_In in H2.
      destruct H1 as [r1 [Hr1 [E1 Ed1]]]. destruct H2 as [r2 [Hr2 [E2 Ed2]]].
      assert (E : correctness_known_day r1 = correctness_known_day r2)
        by (apply Hagree; congruence).
      congruence.
Qed.
End MainFacts.
